(** * keep-alive: the bounded, pattern-filtered component cache

    A shallow embedding of [src/core/components/keep-alive.ts] and the
    properties of its cache store, key resolution, pattern matcher and
    render/commit cycle.

    Conventions of the embedding:
    - a JS value that is [undefined] or [null] is [None]; the code only ever
      tests such values for truthiness or with [== null];
    - strings are [string]; the empty string is falsy, as in JS;
    - objects that the code mutates through references (render nodes) live in
      a heap indexed by references; the cache object and the [keys] array are
      owned by the one keep-alive instance and live in its state;
    - the [$destroy] method of a component instance is an effect of a
      collaborator: the embedding records every call in a log;
    - a [TypeError] raised by reading a property of [undefined] aborts the
      running function and is an explicit outcome. *)

From Stdlib Require Import String Ascii List ZArith Lia Bool Arith PeanoNat.
From Stdlib Require Import Permutation DecimalString Decimal.
Import ListNotations.
Open Scope string_scope.
Open Scope list_scope.

(** ** JS strings and truthiness *)

Definition truthy_string (s : string) : bool := negb (s =? "").

(** Truthiness of a value of type [string | undefined | null]. *)
Definition truthy (o : option string) : bool :=
  match o with
  | Some s => truthy_string s
  | None => false
  end.

(** [a || b] on values of type [string | undefined | null]. *)
Definition or_else (a b : option string) : option string :=
  if truthy a then a else b.

(** The string held by a value that is known to be a string. *)
Definition str (o : option string) : string :=
  match o with
  | Some s => s
  | None => ""
  end.

(** [a === b] on values of type [string | undefined]. *)
Definition strict_eq (a b : option string) : bool :=
  match a, b with
  | Some x, Some y => x =? y
  | None, None => true
  | _, _ => false
  end.

Definition comma : ascii := ","%char.

(** [s.split(',')]: the segments between commas; always at least one
    segment ([''.split(',')] is [['']]). *)
Fixpoint split_comma (s : string) : list string :=
  match s with
  | EmptyString => [EmptyString]
  | String c r =>
      if Ascii.eqb c comma then EmptyString :: split_comma r
      else match split_comma r with
           | seg :: segs => String c seg :: segs
           | [] => [String c EmptyString]
           end
  end.

(** [arr.indexOf(x) > -1] on an array of strings. *)
Fixpoint includes (arr : list string) (x : string) : bool :=
  match arr with
  | [] => false
  | y :: r => (y =? x) || includes r x
  end.

(** ** Pattern matcher *)

(** A regular expression without the [g] and [y] flags.  The code uses the
    expression only through [test], and for such an expression [test] neither
    reads nor writes [lastIndex]: the expression is taken as its test
    function.  An expression with one of these flags is a [Js.RegExp]
    below. *)
Record RegExp := mkRegExp { test : string -> bool }.

(** The value of an [include] / [exclude] prop.  [POther t] is a value of any
    other type, [undefined] included; the code observes only its truthiness
    [t]. *)
Inductive Pattern :=
| PString (s : string)
| PRegExp (r : RegExp)
| PArray (l : list string)
| POther (t : bool).

Definition matches (pattern : Pattern) (name : string) : bool :=
  match pattern with
  | PArray l => includes l name
  | PString s => includes (split_comma s) name
  | PRegExp r => test r name
  | POther _ => false
  end.

Definition undefined_pattern : Pattern := POther false.

(** Truthiness of the value of an [include] / [exclude] prop. *)
Definition truthy_pattern (p : Pattern) : bool :=
  match p with
  | PString s => truthy_string s
  | PRegExp _ => true
  | PArray _ => true
  | POther t => t
  end.

(** ** The [max] prop and [parseInt] *)

(** [max: [String, Number]].  A number is integer-valued here and of
    magnitude below 10^21, where [ToString] prints plain decimal digits. *)
Inductive MaxProp :=
| MaxAbsent
| MaxString (s : string)
| MaxNumber (n : Z).

Definition truthy_max (m : MaxProp) : bool :=
  match m with
  | MaxAbsent => false
  | MaxString s => truthy_string s
  | MaxNumber n => negb (n =? 0)%Z
  end.

(** White space that [parseInt] skips (the ASCII part of [StrWhiteSpaceChar]:
    TAB, LF, VT, FF, CR, SP). *)
Definition is_space (c : ascii) : bool :=
  let n := nat_of_ascii c in
  ((9 <=? n)%nat && (n <=? 13)%nat) || (n =? 32)%nat.

Fixpoint skip_space (s : string) : string :=
  match s with
  | String c r => if is_space c then skip_space r else s
  | EmptyString => s
  end.

(** The value of a digit in the given radix (10 or 16), if it is one. *)
Definition digit_value (radix : Z) (c : ascii) : option Z :=
  let n := Z.of_nat (nat_of_ascii c) in
  let v :=
    if ((48 <=? n) && (n <=? 57))%Z then Some (n - 48)%Z
    else if ((97 <=? n) && (n <=? 122))%Z then Some (n - 87)%Z
    else if ((65 <=? n) && (n <=? 90))%Z then Some (n - 55)%Z
    else None in
  match v with
  | Some d => if (d <? radix)%Z then Some d else None
  | None => None
  end.

(** The longest prefix of digits, read in the radix; [None] when the prefix
    is empty. *)
Fixpoint parse_digits (radix : Z) (acc : option Z) (s : string) : option Z :=
  match s with
  | EmptyString => acc
  | String c r =>
      match digit_value radix c with
      | Some d =>
          parse_digits radix
            (Some (match acc with Some a => a * radix + d | None => d end)%Z) r
      | None => acc
      end
  end.

(** [parseInt(s)] with no radix argument; [None] is [NaN]. *)
Definition parseInt_string (s : string) : option Z :=
  let s1 := skip_space s in
  let '(sign, s2) :=
    match s1 with
    | String "-"%char r => ((-1)%Z, r)
    | String "+"%char r => (1%Z, r)
    | _ => (1%Z, s1)
    end in
  let '(radix, s3) :=
    match s2 with
    | String "0"%char (String "x"%char r) => (16%Z, r)
    | String "0"%char (String "X"%char r) => (16%Z, r)
    | _ => (10%Z, s2)
    end in
  match parse_digits radix None s3 with
  | Some v => Some (sign * v)%Z
  | None => None
  end.

(** [ToString] of an integer-valued number. *)
Definition ToString_int (n : Z) : string :=
  NilZero.string_of_int (Z.to_int n).

(** [parseInt(this.max)]: the argument is converted to a string first. *)
Definition parseInt (m : MaxProp) : option Z :=
  match m with
  | MaxAbsent => parseInt_string "undefined"
  | MaxString s => parseInt_string s
  | MaxNumber n => parseInt_string (ToString_int n)
  end.

(** [len > parseInt(max)]: a comparison with [NaN] is false. *)
Definition gt_parsed (len : nat) (p : option Z) : bool :=
  match p with
  | Some n => (n <? Z.of_nat len)%Z
  | None => false
  end.

(** ** Data model *)

(** A component instance is an opaque handle. *)
Definition Component := nat.

(** A reference to a render node (a [VNode] object). *)
Definition ref := nat.

Module Ctor.
(** The constructor of a component: its [cid] and, of its [options], the
    name that [getComponentName] derives from them. *)
Record t := mk { cid : nat; options_name : option string }.
End Ctor.

(** Modelled from the spec: [getComponentName] of
    [core/vdom/create-component] is not under src; the spec says only that
    the logical name is derived from the type and its options, so the
    embedding reads it off the constructor. *)
Definition getComponentName (c : Ctor.t) : option string :=
  Ctor.options_name c.

Module Opts.
(** [VNodeComponentOptions], the fields the cache reads or writes. *)
Record t := mk {
  Ctor : Ctor.t;
  tag : option string;
  children : option (list ref)
}.
End Opts.

Module VNode.
(** [data.keepAlive] is the only field of [data] the cache writes;
    [data = None] is a node whose [data] is [undefined]. *)
Record t := mk {
  tag : option string;
  key : option string;
  data : option bool;
  componentOptions : option Opts.t;
  componentInstance : option Component
}.
End VNode.

Module CacheEntry.
Record t := mk {
  name : option string;
  tag : option string;
  componentInstance : option Component
}.
End CacheEntry.

(** The cache object ([Object.create(null)]): its own properties in creation
    order, each holding a [CacheEntry] or [null]. *)
Definition CacheEntryMap := list (string * option CacheEntry.t).

(** [cache[key]]: [undefined] for a missing property and [null] are both
    [None]; the code tests the value for truthiness only. *)
Fixpoint cache_get (cache : CacheEntryMap) (key : string)
  : option CacheEntry.t :=
  match cache with
  | [] => None
  | (k, v) :: r => if k =? key then v else cache_get r key
  end.

(** [cache[key] = v]: an existing property keeps its place, a new one is
    created last. *)
Fixpoint cache_set (cache : CacheEntryMap) (key : string)
  (v : option CacheEntry.t) : CacheEntryMap :=
  match cache with
  | [] => [(key, v)]
  | (k, w) :: r =>
      if k =? key then (k, v) :: r else (k, w) :: cache_set r key v
  end.

(** *** The order of [for (const key in cache)]

    Array-index property names (canonical decimal strings below 2^32 - 1)
    come first, in ascending numeric order, then the other names in creation
    order. *)

Definition is_digit (c : ascii) : bool :=
  let n := nat_of_ascii c in (48 <=? n)%nat && (n <=? 57)%nat.

Fixpoint decimal_value (acc : N) (s : string) : option N :=
  match s with
  | EmptyString => Some acc
  | String c r =>
      if is_digit c
      then decimal_value (acc * 10 + N.of_nat (nat_of_ascii c - 48))%N r
      else None
  end.

Definition array_index (s : string) : option N :=
  match s with
  | EmptyString => None
  | String "0"%char EmptyString => Some 0%N
  | String "0"%char _ => None
  | _ =>
      match decimal_value 0 s with
      | Some n => if (n <=? 4294967294)%N then Some n else None
      | None => None
      end
  end.

Fixpoint insert_index (x : N * string) (l : list (N * string))
  : list (N * string) :=
  match l with
  | [] => [x]
  | y :: r => if (fst x <=? fst y)%N then x :: l else y :: insert_index x r
  end.

Definition sort_index (l : list (N * string)) : list (N * string) :=
  fold_right insert_index [] l.

Fixpoint index_names (names : list string) : list (N * string) :=
  match names with
  | [] => []
  | k :: r =>
      match array_index k with
      | Some n => (n, k) :: index_names r
      | None => index_names r
      end
  end.

Definition is_plain_name (k : string) : bool :=
  match array_index k with
  | Some _ => false
  | None => true
  end.

Definition forin_keys (cache : CacheEntryMap) : list string :=
  let names := map fst cache in
  map snd (sort_index (index_names names)) ++ filter is_plain_name names.

(** Modelled from the spec: [remove] of [shared/util] is not under src; the
    spec says that eviction "removes the key from order" and that a touch
    "removes and re-appends" the key.  One occurrence of the item is taken
    out of the array; the array is unchanged when the item is not in it. *)
Fixpoint remove (arr : list string) (item : string) : list string :=
  match arr with
  | [] => []
  | x :: r => if x =? item then r else x :: remove r item
  end.

(** ** The keep-alive instance and its world *)

Module KA.
(** The fields of [this] that the file uses, the heap of render nodes and
    the log of [$destroy] calls.  [keyToCache] is [undefined] until the
    first staging and is read only under [if (vnodeToCache)]; [render]
    sets the two together, so the field is a string.  [parent_vnode] is
    [$vnode], the placeholder node of the keep-alive itself. *)
Record t := mk {
  cache : CacheEntryMap;
  keys : list string;
  vnodeToCache : option ref;
  keyToCache : string;
  _vnode : option ref;
  parent_vnode : ref;
  include : Pattern;
  exclude : Pattern;
  max : MaxProp;
  heap : ref -> VNode.t;
  destroy_log : list Component
}.

Definition with_cache (c : CacheEntryMap) (s : t) : t :=
  mk c (keys s) (vnodeToCache s) (keyToCache s) (_vnode s) (parent_vnode s)
     (include s) (exclude s) (max s) (heap s) (destroy_log s).
Definition with_keys (k : list string) (s : t) : t :=
  mk (cache s) k (vnodeToCache s) (keyToCache s) (_vnode s) (parent_vnode s)
     (include s) (exclude s) (max s) (heap s) (destroy_log s).
Definition with_vnodeToCache (v : option ref) (s : t) : t :=
  mk (cache s) (keys s) v (keyToCache s) (_vnode s) (parent_vnode s)
     (include s) (exclude s) (max s) (heap s) (destroy_log s).
Definition with_keyToCache (k : string) (s : t) : t :=
  mk (cache s) (keys s) (vnodeToCache s) k (_vnode s) (parent_vnode s)
     (include s) (exclude s) (max s) (heap s) (destroy_log s).
Definition with__vnode (v : option ref) (s : t) : t :=
  mk (cache s) (keys s) (vnodeToCache s) (keyToCache s) v (parent_vnode s)
     (include s) (exclude s) (max s) (heap s) (destroy_log s).
Definition with_heap (h : ref -> VNode.t) (s : t) : t :=
  mk (cache s) (keys s) (vnodeToCache s) (keyToCache s) (_vnode s)
     (parent_vnode s) (include s) (exclude s) (max s) h (destroy_log s).
Definition with_destroy_log (l : list Component) (s : t) : t :=
  mk (cache s) (keys s) (vnodeToCache s) (keyToCache s) (_vnode s)
     (parent_vnode s) (include s) (exclude s) (max s) (heap s) l.
End KA.

(** [h[r] = v] on the heap of render nodes. *)
Definition heap_set (h : ref -> VNode.t) (r : ref) (v : VNode.t)
  : ref -> VNode.t :=
  fun r' => if Nat.eqb r' r then v else h r'.

(** ** Effects: state and exceptions *)

Inductive Error := TypeError.

Inductive Outcome (A : Type) :=
| Ok (a : A) (s : KA.t)
| Throw (e : Error) (s : KA.t).
Arguments Ok {A} a s.
Arguments Throw {A} e s.

Definition M (A : Type) := KA.t -> Outcome A.

Definition ret {A} (a : A) : M A := fun s => Ok a s.

Definition bind {A B} (m : M A) (k : A -> M B) : M B :=
  fun s =>
    match m s with
    | Ok a s' => k a s'
    | Throw e s' => Throw e s'
    end.

Notation "x <- m ;; k" := (bind m (fun x => k))
  (at level 61, m at next level, right associativity).
Notation "m ;; k" := (bind m (fun _ => k))
  (at level 61, right associativity).

Definition get : M KA.t := fun s => Ok s s.
Definition modify (f : KA.t -> KA.t) : M unit := fun s => Ok tt (f s).
Definition throw {A} (e : Error) : M A := fun s => Throw e s.

(** The state in which a run ended, normally or not. *)
Definition state_of {A} (o : Outcome A) : KA.t :=
  match o with
  | Ok _ s => s
  | Throw _ s => s
  end.

Definition completes {A} (o : Outcome A) : bool :=
  match o with
  | Ok _ _ => true
  | Throw _ _ => false
  end.

(** [for (const x of l) body(x)], stopped by the first exception. *)
Fixpoint for_each {A} (l : list A) (body : A -> M unit) : M unit :=
  match l with
  | [] => ret tt
  | x :: r => body x ;; for_each r body
  end.

(** [instance.$destroy()]; reading [$destroy] of [undefined] is a
    [TypeError]. *)
Definition call_destroy (instance : option Component) : M unit :=
  match instance with
  | Some i => modify (fun s => KA.with_destroy_log (KA.destroy_log s ++ [i]) s)
  | None => throw TypeError
  end.

(** ** The functions of the file *)

Definition _getComponentName (opts : option Opts.t) : option string :=
  match opts with
  | Some o => or_else (getComponentName (Opts.Ctor o)) (Opts.tag o)
  | None => None
  end.

(** [pruneCacheEntry(cache, key, keys, current)] on the cache and the keys of
    the instance. *)
Definition pruneCacheEntry (key : string) (current : option ref) : M unit :=
  s <- get ;;
  let entry := cache_get (KA.cache s) key in
  match entry with
  | Some e =>
      if match current with
         | None => true
         | Some c =>
             negb (strict_eq (CacheEntry.tag e) (VNode.tag (KA.heap s c)))
         end
      then call_destroy (CacheEntry.componentInstance e)
      else ret tt
  | None => ret tt
  end ;;
  modify (fun s => KA.with_cache (cache_set (KA.cache s) key None) s) ;;
  modify (fun s => KA.with_keys (remove (KA.keys s) key) s).

(** [pruneCache(keepAliveInstance, filter)]. *)
Definition pruneCache (filter : string -> bool) : M unit :=
  s <- get ;;
  let _vnode := KA._vnode s in
  let parent := KA.parent_vnode s in
  for_each (forin_keys (KA.cache s)) (fun key =>
    s1 <- get ;;
    match cache_get (KA.cache s1) key with
    | Some entry =>
        let name := CacheEntry.name entry in
        if truthy name && negb (filter (str name))
        then pruneCacheEntry key _vnode
        else ret tt
    | None => ret tt
    end) ;;
  s2 <- get ;;
  let pv := KA.heap s2 parent in
  match VNode.componentOptions pv with
  | Some co =>
      modify (fun s =>
        KA.with_heap
          (heap_set (KA.heap s) parent
             (VNode.mk (VNode.tag pv) (VNode.key pv) (VNode.data pv)
                (Some (Opts.mk (Opts.Ctor co) (Opts.tag co) None))
                (VNode.componentInstance pv))) s)
  | None => throw TypeError
  end.

(** [keys[0]]; the array is not empty where the code reads it. *)
Definition first_key (keys : list string) : string := hd "undefined" keys.

Definition cacheVNode : M unit :=
  s <- get ;;
  match KA.vnodeToCache s with
  | Some v =>
      let vnodeToCache := KA.heap s v in
      let keyToCache := KA.keyToCache s in
      modify (fun s =>
        KA.with_cache
          (cache_set (KA.cache s) keyToCache
             (Some (CacheEntry.mk
                      (_getComponentName (VNode.componentOptions vnodeToCache))
                      (VNode.tag vnodeToCache)
                      (VNode.componentInstance vnodeToCache)))) s) ;;
      modify (fun s => KA.with_keys (KA.keys s ++ [keyToCache]) s) ;;
      s1 <- get ;;
      (if truthy_max (KA.max s1)
          && gt_parsed (length (KA.keys s1)) (parseInt (KA.max s1))
       then pruneCacheEntry (first_key (KA.keys s1)) (KA._vnode s1)
       else ret tt) ;;
      modify (KA.with_vnodeToCache None)
  | None => ret tt
  end.

Definition created : M unit :=
  modify (KA.with_cache []) ;;
  modify (KA.with_keys []).

Definition destroyed : M unit :=
  s <- get ;;
  for_each (forin_keys (KA.cache s)) (fun key => pruneCacheEntry key None).

(** The callbacks that [mounted] registers on [include] and [exclude]. *)
Definition watch_include (val : Pattern) : M unit :=
  pruneCache (fun name => matches val name).

Definition watch_exclude (val : Pattern) : M unit :=
  pruneCache (fun name => negb (matches val name)).

Definition mounted : M unit := cacheVNode.

Definition updated : M unit := cacheVNode.

(** [ToString] of a [cid], in [cid + '...']. *)
Definition string_of_cid (cid : nat) : string :=
  NilEmpty.string_of_uint (Nat.to_uint cid).

(** The expression bound to [key] in [render]. *)
Definition resolveKey (vnode : VNode.t) (componentOptions : Opts.t) : string :=
  match VNode.key vnode with
  | None =>
      string_of_cid (Ctor.cid (Opts.Ctor componentOptions))
      ++ (if truthy (Opts.tag componentOptions)
          then "::" ++ str (Opts.tag componentOptions)
          else "")
  | Some k => k
  end.

Definition set_componentInstance (v : ref) (i : option Component) : M unit :=
  modify (fun s =>
    let n := KA.heap s v in
    KA.with_heap
      (heap_set (KA.heap s) v
         (VNode.mk (VNode.tag n) (VNode.key n) (VNode.data n)
            (VNode.componentOptions n) i)) s).

(** [vnode.data.keepAlive = true]. *)
Definition set_keepAlive (v : ref) : M unit :=
  s <- get ;;
  let n := KA.heap s v in
  match VNode.data n with
  | Some _ =>
      modify (fun s =>
        KA.with_heap
          (heap_set (KA.heap s) v
             (VNode.mk (VNode.tag n) (VNode.key n) (Some true)
                (VNode.componentOptions n) (VNode.componentInstance n))) s)
  | None => throw TypeError
  end.

(** The filter test of [render]: the pass is not cached. *)
Definition filtered_out (include exclude : Pattern) (name : option string)
  : bool :=
  (truthy_pattern include
   && (negb (truthy name) || negb (matches include (str name))))
  || (truthy_pattern exclude && truthy name && matches exclude (str name)).

(** [render()], given [slot] and [vnode = getFirstComponentChild(slot)]. *)
Definition render (slot : option (list ref)) (vnode : option ref)
  : M (option ref) :=
  s <- get ;;
  let componentOptions :=
    match vnode with
    | Some v => VNode.componentOptions (KA.heap s v)
    | None => None
    end in
  match vnode, componentOptions with
  | Some v, Some componentOptions =>
      let name := _getComponentName (Some componentOptions) in
      if filtered_out (KA.include s) (KA.exclude s) name
      then ret (Some v)
      else
        let key := resolveKey (KA.heap s v) componentOptions in
        match cache_get (KA.cache s) key with
        | Some e =>
            set_componentInstance v (CacheEntry.componentInstance e) ;;
            modify (fun s => KA.with_keys (remove (KA.keys s) key) s) ;;
            modify (fun s => KA.with_keys (KA.keys s ++ [key]) s)
        | None =>
            modify (KA.with_vnodeToCache (Some v)) ;;
            modify (KA.with_keyToCache key)
        end ;;
        set_keepAlive v ;;
        ret (Some v)
  | _, _ =>
      ret (match vnode with
           | Some v => Some v
           | None =>
               match slot with
               | Some (x :: _) => Some x
               | _ => None
               end
           end)
  end.

(** ** Predicates used in the statements *)

(** [has_comma s]: the character [,] occurs in [s]. *)
Fixpoint has_comma (s : string) : bool :=
  match s with
  | EmptyString => false
  | String c r => Ascii.eqb c comma || has_comma r
  end.

(** [name] is one of the comma-separated segments of [s]: it holds no comma
    and occurs in [s] between two boundaries, each the end of the string or
    a comma. *)
Definition segment_of (name s : string) : Prop :=
  has_comma name = false /\
  exists l r : string,
    s = (l ++ name ++ r)%string /\
    (l = "" \/ exists l', l = (l' ++ ",")%string) /\
    (r = "" \/ exists r', r = ("," ++ r')%string).

Definition join (l : list string) : string := String.concat "," l.

(** The state once [key] is out of the cache and out of the keys. *)
Definition evicted (key : string) (s : KA.t) : KA.t :=
  KA.with_keys (remove (KA.keys s) key)
    (KA.with_cache (cache_set (KA.cache s) key None) s).

(** The state once [$destroy] was called on [i]. *)
Definition logged (i : Component) (s : KA.t) : KA.t :=
  KA.with_destroy_log (KA.destroy_log s ++ [i]) s.

(** The test [!current || entry.tag !== current.tag], in the words of the
    spec: no comparison node is given, or the tags differ. *)
Definition must_destroy (s : KA.t) (e : CacheEntry.t) (current : option ref)
  : Prop :=
  current = None \/
  exists c, current = Some c /\ CacheEntry.tag e <> VNode.tag (KA.heap s c).

(** The comparison node is given and carries the tag of the entry. *)
Definition same_tag (s : KA.t) (e : CacheEntry.t) (current : option ref)
  : Prop :=
  exists c, current = Some c /\ CacheEntry.tag e = VNode.tag (KA.heap s c).

(** Every entry of the cache holds an instance, as every entry does that
    [cacheVNode] built from a node which the patch had made real. *)
Definition instances_present (c : CacheEntryMap) : Prop :=
  forall k e, cache_get c k = Some e -> CacheEntry.componentInstance e <> None.

(** ** Concrete nodes and stores for the examples *)

Module Ex.
Definition opts (cid : nat) (name : string) (tag : string) : Opts.t :=
  Opts.mk (Ctor.mk cid (Some name)) (Some tag) None.

(** Node 0 is the placeholder of the keep-alive; nodes 1 to 3 are
    component nodes that the patch has made real; node 4 is a component
    node without an instance; node 5 is a plain [div]. *)
Definition heap (r : ref) : VNode.t :=
  match r with
  | 0 => VNode.mk (Some "vue-component-9-keep-alive") None (Some false)
           (Some (opts 9 "keep-alive" "keep-alive")) (Some 100)
  | 1 => VNode.mk (Some "vue-component-1-foo") None (Some false)
           (Some (opts 1 "foo" "foo")) (Some 101)
  | 2 => VNode.mk (Some "vue-component-2-bar") None (Some false)
           (Some (opts 2 "bar" "bar")) (Some 102)
  | 3 => VNode.mk (Some "vue-component-3-baz") None (Some false)
           (Some (opts 3 "baz" "baz")) (Some 103)
  | 4 => VNode.mk (Some "vue-component-4-qux") None (Some false)
           (Some (opts 4 "qux" "qux")) None
  | _ => VNode.mk (Some "div") None None None None
  end.

Definition entry (n : nat) : option CacheEntry.t :=
  let v := heap n in
  Some (CacheEntry.mk (_getComponentName (VNode.componentOptions v))
          (VNode.tag v) (VNode.componentInstance v)).

(** An instance with the given props, cache and keys. *)
Definition instance (include exclude : Pattern) (max : MaxProp)
  (cache : CacheEntryMap) (keys : list string) (_vnode : option ref)
  : KA.t :=
  KA.mk cache keys None "" _vnode 0 include exclude max heap [].

(** A fresh instance after [created]. *)
Definition fresh (max : MaxProp) : KA.t :=
  instance undefined_pattern undefined_pattern max [] [] None.

(** Three live entries. *)
Definition store3 : KA.t :=
  instance undefined_pattern undefined_pattern MaxAbsent
    [("a", entry 1); ("b", entry 2); ("c", entry 3)] ["a"; "b"; "c"]
    (Some 3).

(** Three live entries, the second without an instance handle. *)
Definition store3_no_instance : KA.t :=
  instance undefined_pattern undefined_pattern MaxAbsent
    [("a", entry 1); ("b", entry 4); ("c", entry 3)] ["a"; "b"; "c"]
    (Some 3).
End Ex.

(** ** The eligibility rule, in the words of the spec *)

(** A prop is configured when the code finds it set, that is truthy: the
    tests are [include && ...] and [exclude && ...], so an empty string
    counts as not configured. *)
Definition configured (p : Pattern) : Prop := truthy_pattern p = true.

(** A name or tag is present when the code finds it, that is truthy
    ([name && ...], [!name], [componentOptions.tag ? ... : ...]); [undefined],
    [null] and the empty string are absent. *)
Definition present (name : option string) : Prop := truthy name = true.
Definition absent (name : option string) : Prop := truthy name = false.

(** Ineligible: [include] is configured and the name is absent or does not
    match it, or [exclude] is configured and the name is present and matches
    it. *)
Definition ineligible (include exclude : Pattern) (name : option string)
  : Prop :=
  (configured include /\
   (absent name \/ matches include (str name) = false)) \/
  (configured exclude /\ present name /\ matches exclude (str name) = true).

Module Ex2.
(** [include="foo,bar"], with entries cached for [foo], [bar] and [baz]
    under their synthetic keys. *)
Definition filtered : KA.t :=
  Ex.instance (PString "foo,bar") undefined_pattern MaxAbsent
    [("1::foo", Ex.entry 1); ("2::bar", Ex.entry 2); ("3::baz", Ex.entry 3)]
    ["1::foo"; "2::bar"; "3::baz"] (Some 2).
End Ex2.

(** ** The sweep, in the words of the spec *)

(** The entry under [k] is live, its name is present and fails the
    predicate. *)
Definition sweeps (filter : string -> bool) (c : CacheEntryMap) (k : string)
  : bool :=
  match cache_get c k with
  | Some e =>
      truthy (CacheEntry.name e) && negb (filter (str (CacheEntry.name e)))
  | None => false
  end.

(** The destroy guard against the node [current] in the heap [h]. *)
Definition guard (h : ref -> VNode.t) (e : CacheEntry.t)
  (current : option ref) : bool :=
  match current with
  | None => true
  | Some c => negb (strict_eq (CacheEntry.tag e) (VNode.tag (h c)))
  end.

(** The instance that a sweep destroys at [k], if any. *)
Definition sweep_log (filter : string -> bool) (h : ref -> VNode.t)
  (current : option ref) (c : CacheEntryMap) (k : string) : list Component :=
  match cache_get c k with
  | Some e =>
      if sweeps filter c k && guard h e current
      then match CacheEntry.componentInstance e with
           | Some i => [i]
           | None => []
           end
      else []
  | None => []
  end.

(** The body of the loop of [pruneCache] with the node [current]. *)
Definition sweep_body (filter : string -> bool) (current : option ref)
  (key : string) : M unit :=
  s1 <- get ;;
  match cache_get (KA.cache s1) key with
  | Some entry =>
      let name := CacheEntry.name entry in
      if truthy name && negb (filter (str name))
      then pruneCacheEntry key current
      else ret tt
  | None => ret tt
  end.

(** ** Commits *)

(** The entry that [cacheVNode] builds from the node [v]. *)
Definition entry_of (s : KA.t) (v : ref) : CacheEntry.t :=
  CacheEntry.mk (_getComponentName (VNode.componentOptions (KA.heap s v)))
    (VNode.tag (KA.heap s v)) (VNode.componentInstance (KA.heap s v)).

(** The state once the node [v] is in the cache under [keyToCache] and the
    key is appended to the keys. *)
Definition inserted (v : ref) (s : KA.t) : KA.t :=
  KA.with_keys (KA.keys s ++ [KA.keyToCache s])
    (KA.with_cache
       (cache_set (KA.cache s) (KA.keyToCache s) (Some (entry_of s v))) s).

(** The state after a commit that only inserts. *)
Definition committed (s : KA.t) : KA.t :=
  match KA.vnodeToCache s with
  | Some v => KA.with_vnodeToCache None (inserted v s)
  | None => s
  end.

(** A run of [cacheVNode] that evicts nothing. *)
Definition no_capacity_eviction (s : KA.t) : Prop :=
  cacheVNode s = Ok tt (committed s).

(** [max] parses to an integer that is not positive. *)
Definition non_positive (m : MaxProp) : Prop :=
  exists n, parseInt m = Some n /\ (n <= 0)%Z.

(** [max] does not parse as an integer. *)
Definition unparsable (m : MaxProp) : Prop := parseInt m = None.

Module Commit.
(** One commit: a render pass has staged [vnode] under [key] (the miss
    branch of [render]), the patch has put [current] on display, and
    [mounted] or [updated] runs [cacheVNode]. *)
Record t := mk { key : string; vnode : ref; current : option ref }.
End Commit.

Definition commit (c : Commit.t) : M unit :=
  modify (KA.with__vnode (Commit.current c)) ;;
  modify (KA.with_vnodeToCache (Some (Commit.vnode c))) ;;
  modify (KA.with_keyToCache (Commit.key c)) ;;
  cacheVNode.

Definition commits (cs : list Commit.t) : M unit := for_each cs commit.

Definition is_live (c : CacheEntryMap) (k : string) : bool :=
  match cache_get c k with
  | Some _ => true
  | None => false
  end.

(** The number of live entries of the cache. *)
Definition live_count (c : CacheEntryMap) : nat :=
  length (List.filter (is_live c) (map fst c)).

(** The invariant of the store: property names and keys are duplicate-free,
    the keys are exactly the names of the live entries, and every entry
    holds an instance. *)
Record wf_store (c : CacheEntryMap) (keys : list string) : Prop := {
  wf_names : NoDup (map fst c);
  wf_keys : NoDup keys;
  wf_lockstep : forall k, In k keys <-> cache_get c k <> None;
  wf_instances : instances_present c
}.

Module Ex3.
Definition A := Commit.mk "A" 1 (Some 1).
Definition B := Commit.mk "B" 2 (Some 2).
Definition C := Commit.mk "C" 3 (Some 3).

(** A node is staged under the key [A] on a fresh instance. *)
Definition staged (max : MaxProp) : KA.t :=
  KA.with_keyToCache "A"
    (KA.with_vnodeToCache (Some 1) (KA.with__vnode (Some 1) (Ex.fresh max))).
End Ex3.

From Stdlib Require DecimalNat DecimalPos.

(** ** The life of an instance: operations in sequence *)

(** [this.include = p], [this.exclude = p] and [this.max = m], written by
    the owner of the component. *)
Definition set_include (p : Pattern) (s : KA.t) : KA.t :=
  KA.mk (KA.cache s) (KA.keys s) (KA.vnodeToCache s) (KA.keyToCache s)
    (KA._vnode s) (KA.parent_vnode s) p (KA.exclude s) (KA.max s)
    (KA.heap s) (KA.destroy_log s).

Definition set_exclude (p : Pattern) (s : KA.t) : KA.t :=
  KA.mk (KA.cache s) (KA.keys s) (KA.vnodeToCache s) (KA.keyToCache s)
    (KA._vnode s) (KA.parent_vnode s) (KA.include s) p (KA.max s)
    (KA.heap s) (KA.destroy_log s).

Definition set_max (m : MaxProp) (s : KA.t) : KA.t :=
  KA.mk (KA.cache s) (KA.keys s) (KA.vnodeToCache s) (KA.keyToCache s)
    (KA._vnode s) (KA.parent_vnode s) (KA.include s) (KA.exclude s) m
    (KA.heap s) (KA.destroy_log s).

(** What can happen to a mounted instance.  [OpRender], [OpCommit],
    [OpInclude], [OpExclude] and [OpDestroyed] run the functions of the
    file; a change of [include] or [exclude] writes the prop and fires the
    watcher that [mounted] registered.  [OpPatch] is the work of the
    collaborators between two calls: they write render nodes and put a node
    on display, and never touch [cache], [keys] or the staged node.
    [OpMax] is a change of the [max] prop, which has no watcher. *)
Inductive Op :=
| OpRender (slot : option (list ref)) (vnode : option ref)
| OpCommit
| OpInclude (val : Pattern)
| OpExclude (val : Pattern)
| OpDestroyed
| OpPatch (heap : ref -> VNode.t) (_vnode : option ref)
| OpMax (m : MaxProp).

Definition run_op (op : Op) : M unit :=
  match op with
  | OpRender slot vnode => render slot vnode ;; ret tt
  | OpCommit => updated
  | OpInclude val => modify (set_include val) ;; watch_include val
  | OpExclude val => modify (set_exclude val) ;; watch_exclude val
  | OpDestroyed => destroyed
  | OpPatch heap _vnode =>
      modify (KA.with_heap heap) ;; modify (KA.with__vnode _vnode)
  | OpMax m => modify (set_max m)
  end.

Definition run (ops : list Op) : M unit := for_each ops run_op.

Definition keeps_max (op : Op) : bool :=
  match op with
  | OpMax _ => false
  | _ => true
  end.

(** The cache and the keys in lock-step: property names and keys are
    duplicate-free and the keys are exactly the names of the live entries. *)
Record lockstep (c : CacheEntryMap) (keys : list string) : Prop := {
  ls_names : NoDup (map fst c);
  ls_keys : NoDup keys;
  ls_live : forall k, In k keys <-> cache_get c k <> None
}.

(** A staged node waits under a key that is not live. *)
Definition staged_fresh (s : KA.t) : Prop :=
  KA.vnodeToCache s <> None -> ~ In (KA.keyToCache s) (KA.keys s).

Definition store_inv (s : KA.t) : Prop :=
  lockstep (KA.cache s) (KA.keys s) /\ staged_fresh s.

(** The fields that eviction never writes. *)
Definition frame (s : KA.t) :=
  (KA.vnodeToCache s, KA.keyToCache s, KA.max s, KA.include s, KA.exclude s,
   KA._vnode s, KA.parent_vnode s).

(** [s'] is [s] after some evictions: the same frame, no new key, no new
    live entry, and lock-step kept. *)
Record shrinks (s s' : KA.t) : Prop := {
  sh_frame : frame s' = frame s;
  sh_lockstep :
    lockstep (KA.cache s) (KA.keys s) -> lockstep (KA.cache s') (KA.keys s');
  sh_keys : forall k, In k (KA.keys s') -> In k (KA.keys s);
  sh_length : length (KA.keys s') <= length (KA.keys s);
  sh_cache :
    forall k, cache_get (KA.cache s) k = None ->
              cache_get (KA.cache s') k = None
}.

(** ** The states a render pass ends in *)

(** The node with [componentInstance = i]. *)
Definition bind_instance (n : VNode.t) (i : option Component) : VNode.t :=
  VNode.mk (VNode.tag n) (VNode.key n) (VNode.data n)
    (VNode.componentOptions n) i.

(** The node with [data.keepAlive = true]. *)
Definition mark_keepAlive (n : VNode.t) : VNode.t :=
  VNode.mk (VNode.tag n) (VNode.key n) (Some true)
    (VNode.componentOptions n) (VNode.componentInstance n).

(** After a hit: the node [v] carries the instance of the entry [e] and the
    key is the last of the keys. *)
Definition served (key : string) (v : ref) (e : CacheEntry.t) (s : KA.t)
  : KA.t :=
  KA.with_keys (remove (KA.keys s) key ++ [key])
    (KA.with_heap
       (heap_set (KA.heap s) v
          (bind_instance (KA.heap s v) (CacheEntry.componentInstance e))) s).

(** After a miss: the node [v] is staged under the key. *)
Definition stage (key : string) (v : ref) (s : KA.t) : KA.t :=
  KA.with_keyToCache key (KA.with_vnodeToCache (Some v) s).

(** After the marking of the node [v]. *)
Definition marked (v : ref) (s : KA.t) : KA.t :=
  KA.with_heap (heap_set (KA.heap s) v (mark_keepAlive (KA.heap s v))) s.

(** The state of an eligible pass before the marking. *)
Definition looked_up (key : string) (v : ref) (s : KA.t) : KA.t :=
  match cache_get (KA.cache s) key with
  | Some e => served key v e s
  | None => stage key v s
  end.

Module Ex4.
(** A session on a fresh instance: [foo] and [bar] are rendered and
    committed, [foo] is rendered again, [baz] is rendered and committed, then
    [include] changes to [baz]. *)
Definition session : list Op :=
  [OpRender None (Some 1); OpCommit; OpPatch Ex.heap (Some 1);
   OpRender None (Some 2); OpCommit;
   OpRender None (Some 1); OpCommit;
   OpRender None (Some 3); OpCommit;
   OpInclude (PString "baz")].
End Ex4.

(** The test of [cacheVNode] for an eviction, once the key is pushed. *)
Definition over_capacity (s : KA.t) : bool :=
  truthy_max (KA.max s)
  && gt_parsed (length (KA.keys s) + 1) (parseInt (KA.max s)).

(** The state once the head [h] of the keys, which holds the entry [eh], is
    evicted after the insertion of the node [v]. *)
Definition committed_evicting (h : string) (eh : CacheEntry.t) (v : ref)
  (s : KA.t) : KA.t :=
  KA.with_vnodeToCache None
    (evicted h
       (match CacheEntry.componentInstance eh with
        | Some i =>
            if guard (KA.heap s) eh (KA._vnode s)
            then logged i (inserted v s) else inserted v s
        | None => inserted v s
        end)).

(** The placeholder node once [children] is [undefined]. *)
Definition without_children (n : VNode.t) : VNode.t :=
  match VNode.componentOptions n with
  | Some co =>
      VNode.mk (VNode.tag n) (VNode.key n) (VNode.data n)
        (Some (Opts.mk (Opts.Ctor co) (Opts.tag co) None))
        (VNode.componentInstance n)
  | None => n
  end.

Module Ex5.
(** A full store of capacity 2, with [bar] on display. *)
Definition two : KA.t :=
  Ex.instance undefined_pattern undefined_pattern (MaxString "2")
    [("1::foo", Ex.entry 1); ("2::bar", Ex.entry 2)]
    ["1::foo"; "2::bar"] (Some 2).

Definition baz : Commit.t := Commit.mk "3::baz" 3 (Some 3).

(** An entry without a name, as [cacheVNode] builds it from a node whose
    constructor has no name and which has no tag. *)
Definition unnamed : option CacheEntry.t :=
  Some (CacheEntry.mk None (Some "vue-component-6") (Some 106)).

Definition mixed : KA.t :=
  Ex.instance (PString "foo") undefined_pattern MaxAbsent
    [("1::foo", Ex.entry 1); ("6", unnamed); ("2::bar", Ex.entry 2)]
    ["1::foo"; "6"; "2::bar"] (Some 1).
End Ex5.

Module Ex6.
(** The store of [Ex2.filtered] on an instance whose placeholder node
    (node 5) has no [componentOptions]. *)
Definition orphan : KA.t :=
  KA.mk (KA.cache Ex2.filtered) (KA.keys Ex2.filtered) None "" (Some 2) 5
    (PString "foo,bar") undefined_pattern MaxAbsent Ex.heap [].

(** A full store of capacity 2 with a node staged under a fresh key, while
    [foo], the head of the keys, is on display. *)
Definition full_staged : KA.t :=
  KA.with_keyToCache "3::baz"
    (KA.with_vnodeToCache (Some 3) (KA.with__vnode (Some 1) Ex5.two)).
End Ex6.

(** ** Decimal digits *)

(** What follows the constructor identity in a synthetic key: nothing, or a
    text that starts with a colon. *)
Definition colon_rest (r : string) : Prop :=
  r = "" \/ exists t, r = String ":"%char t.

(** The value of the digits [d] read after the value [a]. *)
Fixpoint digits_value (a : Z) (d : Decimal.uint) : Z :=
  match d with
  | Decimal.Nil => a
  | Decimal.D0 d => digits_value (a * 10 + 0) d
  | Decimal.D1 d => digits_value (a * 10 + 1) d
  | Decimal.D2 d => digits_value (a * 10 + 2) d
  | Decimal.D3 d => digits_value (a * 10 + 3) d
  | Decimal.D4 d => digits_value (a * 10 + 4) d
  | Decimal.D5 d => digits_value (a * 10 + 5) d
  | Decimal.D6 d => digits_value (a * 10 + 6) d
  | Decimal.D7 d => digits_value (a * 10 + 7) d
  | Decimal.D8 d => digits_value (a * 10 + 8) d
  | Decimal.D9 d => digits_value (a * 10 + 9) d
  end.

(** ** Regular expressions with flags

    [pattern.test(name)] reads and writes [pattern.lastIndex] when the
    expression has the [g] or the [y] flag, so a call of [matches] on such
    a pattern depends on the calls before it.  [RegExp], [Pattern] and
    [matches] above are the expressions without these flags, for which
    [test] is a function of the name alone; the definitions of this part
    take the [RegExp] object with its flags and its [lastIndex], and give
    [matches] and the sweep of the watchers on it. *)

Module Js.

(** A [RegExp] object, as far as [test] goes: the matcher of its pattern
    (the attempt to match the input at one index, which gives the index
    where the match ends), the [g] and [y] flags, and [lastIndex].  Indices
    count the characters of a [string]; for the ASCII names of components
    these are the code units of the JS string. *)
Record RegExp := mkRegExp {
  matcher : string -> nat -> option nat;
  global : bool;
  sticky : bool;
  lastIndex : nat
}.

(** [r.lastIndex = i]. *)
Definition with_lastIndex (i : nat) (r : RegExp) : RegExp :=
  mkRegExp (matcher r) (global r) (sticky r) i.

(** The loop of [RegExpBuiltinExec]: try the matcher at [i]; on a failure
    a sticky expression gives up and another one goes on at [i + 1] (the
    step of an expression without the [u] flag, and of any expression on
    ASCII input), until the index is past the end of the input.  [n] counts
    the indices from [i] to the length of the input, that one included. *)
Fixpoint search (m : string -> nat -> option nat) (input : string)
  (sticky : bool) (i n : nat) : option nat :=
  match n with
  | 0 => None
  | S n' =>
      match m input i with
      | Some e => Some e
      | None => if sticky then None else search m input sticky (S i) n'
      end
  end.

(** [r.test(input)]: the answer and the object as the call leaves it.  With
    the [g] or the [y] flag the search starts at [lastIndex], which a match
    moves to its end and a failure resets to 0; without them the search
    starts at 0 and [lastIndex] is neither read nor written. *)
Definition test (r : RegExp) (input : string) : bool * RegExp :=
  let flagged := global r || sticky r in
  let start := if flagged then lastIndex r else 0 in
  match search (matcher r) input (sticky r) start
          (S (String.length input) - start) with
  | Some e => (true, if flagged then with_lastIndex e r else r)
  | None => (false, if flagged then with_lastIndex 0 r else r)
  end.

(** The value of an [include] / [exclude] prop, a regular expression being
    the object. *)
Inductive Pattern :=
| PString (s : string)
| PRegExp (r : RegExp)
| PArray (l : list string)
| POther (t : bool).

(** [matches(pattern, name)]: the answer and the pattern as the call leaves
    it. *)
Definition matches (pattern : Pattern) (name : string) : bool * Pattern :=
  match pattern with
  | PArray l => (includes l name, pattern)
  | PString s => (includes (split_comma s) name, pattern)
  | PRegExp r => let (b, r') := test r name in (b, PRegExp r')
  | POther _ => (false, pattern)
  end.

(** The expression has neither the [g] nor the [y] flag. *)
Definition flagless_regexp (r : RegExp) : bool :=
  negb (global r || sticky r).

(** The pattern is not a regular expression with the [g] or the [y]
    flag. *)
Definition flagless (pattern : Pattern) : bool :=
  match pattern with
  | PRegExp r => flagless_regexp r
  | _ => true
  end.

(** The expression has a match in the name: its matcher succeeds at some
    index of the name. *)
Definition satisfies (r : RegExp) (name : string) : Prop :=
  exists i e, i <= String.length name /\ matcher r name i = Some e.

(** [for (const x of l) body(x)] for a body that reads and writes an object
    [v] it holds; stopped by the first exception. *)
Fixpoint for_each {A V} (l : list A) (body : A -> V -> M V) (v : V) : M V :=
  match l with
  | [] => ret v
  | x :: r => v' <- body x v ;; for_each r body v'
  end.

(** [pruneCache(keepAliveInstance, filter)] for a filter that reads and
    writes an object [val] it holds: [filter val name] is the answer of
    [filter(name)] and the object as the call leaves it.  The filter is
    called only for an entry whose name is truthy ([name && !filter(name)]).
    The result is the object after the last call. *)
Definition pruneCache {V} (filter : V -> string -> bool * V) (val : V)
  : M V :=
  s <- get ;;
  let _vnode := KA._vnode s in
  let parent := KA.parent_vnode s in
  val' <- for_each (forin_keys (KA.cache s)) (fun key val =>
    s1 <- get ;;
    match cache_get (KA.cache s1) key with
    | Some entry =>
        let name := CacheEntry.name entry in
        if truthy name
        then
          let (keep, val') := filter val (str name) in
          (if negb keep then pruneCacheEntry key _vnode else ret tt) ;;
          ret val'
        else ret val
    | None => ret val
    end) val ;;
  s2 <- get ;;
  let pv := KA.heap s2 parent in
  match VNode.componentOptions pv with
  | Some co =>
      modify (fun s =>
        KA.with_heap
          (heap_set (KA.heap s) parent
             (VNode.mk (VNode.tag pv) (VNode.key pv) (VNode.data pv)
                (Some (Opts.mk (Opts.Ctor co) (Opts.tag co) None))
                (VNode.componentInstance pv))) s) ;;
      ret val'
  | None => throw TypeError
  end.

(** The callbacks that [mounted] registers on [include] and [exclude], on
    the new value [val]. *)
Definition watch_include (val : Pattern) : M Pattern :=
  pruneCache (fun val name => matches val name) val.

Definition watch_exclude (val : Pattern) : M Pattern :=
  pruneCache (fun val name => let (b, val') := matches val name in
                              (negb b, val')) val.

End Js.

(** A pattern without the [g] and [y] flags, as its test function. *)
Definition flagless_view (pattern : Js.Pattern) : Pattern :=
  match pattern with
  | Js.PString s => PString s
  | Js.PRegExp r => PRegExp (mkRegExp (fun name => fst (Js.test r name)))
  | Js.PArray l => PArray l
  | Js.POther t => POther t
  end.

Module Ex7.
(** The matcher of an expression that is a literal text: the input has the
    text at the index. *)
Definition literal (lit : string) : string -> nat -> option nat :=
  fun input i =>
    if String.prefix lit
         (String.substring i (String.length input - i) input)
    then Some (i + String.length lit)
    else None.

(** [/foo/], [/foo/g] and [/foo/y], as created. *)
Definition foo : Js.RegExp := Js.mkRegExp (literal "foo") false false 0.
Definition foo_g : Js.RegExp := Js.mkRegExp (literal "foo") true false 0.
Definition foo_y : Js.RegExp := Js.mkRegExp (literal "foo") false true 0.

Definition foo_entry (instance : Component) : option CacheEntry.t :=
  Some (CacheEntry.mk (Some "foo") (Some "vue-component-1-foo")
          (Some instance)).

(** Three entries of the component [foo] under keys of the user, with [bar]
    on display. *)
Definition three_foo : KA.t :=
  Ex.instance undefined_pattern undefined_pattern MaxAbsent
    [("a", foo_entry 111); ("b", foo_entry 112); ("c", foo_entry 113)]
    ["a"; "b"; "c"] (Some 2).
End Ex7.

(** * Properties *)

(** ** Strings *)

Lemma append_assoc (a b c : string) :
  ((a ++ b) ++ c = a ++ (b ++ c))%string.
Proof. induction a as [|x a IH]; simpl; [reflexivity | now rewrite IH]. Qed.

Lemma append_empty_r (a : string) : (a ++ "" = a)%string.
Proof. induction a as [|x a IH]; simpl; [reflexivity | now rewrite IH]. Qed.

Lemma append_inv_head (a x y : string) :
  (a ++ x = a ++ y)%string -> x = y.
Proof.
  induction a as [|c a IH]; simpl; intros H; [exact H|].
  injection H as H. now apply IH.
Qed.

Lemma includes_In (l : list string) (x : string) :
  includes l x = true <-> In x l.
Proof.
  induction l as [|y l IH]; simpl.
  - split; [discriminate | tauto].
  - rewrite orb_true_iff, IH, String.eqb_eq. tauto.
Qed.

(** ** The comma-separated segments of a string *)

Lemma split_comma_nonempty (s : string) : split_comma s <> [].
Proof.
  destruct s as [|c r]; simpl; [discriminate|].
  destruct (Ascii.eqb c comma); [discriminate|].
  destruct (split_comma r); discriminate.
Qed.

Lemma split_comma_no_comma (s : string) :
  Forall (fun seg => has_comma seg = false) (split_comma s).
Proof.
  induction s as [|c r IH]; simpl.
  - repeat constructor.
  - destruct (Ascii.eqb c comma) eqn:E.
    + constructor; [reflexivity | exact IH].
    + destruct (split_comma r) as [|seg segs].
      * constructor; [simpl; now rewrite E | constructor].
      * inversion IH; subst. constructor; [simpl; now rewrite E | assumption].
Qed.

Lemma join_split_comma (s : string) : join (split_comma s) = s.
Proof.
  unfold join. induction s as [|c r IH]; simpl; [reflexivity|].
  destruct (Ascii.eqb c comma) eqn:E.
  - apply Ascii.eqb_eq in E. subst c.
    pose proof (split_comma_nonempty r) as NE.
    destruct (split_comma r) as [|seg segs]; [congruence|].
    simpl in *. now rewrite IH.
  - pose proof (split_comma_nonempty r) as NE.
    destruct (split_comma r) as [|seg segs]; [congruence|].
    simpl in *. destruct segs; simpl in *; now rewrite <- IH.
Qed.

Lemma split_comma_app (a b : string) :
  split_comma (a ++ "," ++ b) = split_comma a ++ split_comma b.
Proof.
  induction a as [|c a IH]; simpl; [reflexivity|].
  destruct (Ascii.eqb c comma).
  - simpl in IH. now rewrite IH.
  - simpl in IH. rewrite IH.
    pose proof (split_comma_nonempty a) as NE.
    destruct (split_comma a); [congruence | reflexivity].
Qed.

Lemma split_comma_single (s : string) :
  has_comma s = false -> split_comma s = [s].
Proof.
  induction s as [|c r IH]; simpl; [reflexivity|].
  intros H. apply orb_false_iff in H as [E H].
  rewrite E, (IH H). reflexivity.
Qed.

Lemma join_In (l : list string) (x : string) :
  In x l ->
  exists pre post : string,
    join l = (pre ++ x ++ post)%string /\
    (pre = "" \/ exists p, pre = (p ++ ",")%string) /\
    (post = "" \/ exists p, post = ("," ++ p)%string).
Proof.
  unfold join. induction l as [|y l IH]; simpl; [tauto|].
  intros [-> | Hin].
  - destruct l as [|z l].
    + exists "", "". rewrite append_empty_r. simpl. tauto.
    + exists "", (String.append "," (String.concat "," (z :: l))).
      split; [reflexivity|]. split; [tauto|]. right. eexists. reflexivity.
  - destruct l as [|z l]; [destruct Hin|].
    destruct (IH Hin) as (pre & post & E & Hpre & Hpost).
    exists (String.append y (String.append "," pre)), post.
    split.
    + rewrite E. now rewrite !append_assoc.
    + split; [|exact Hpost]. right.
      destruct Hpre as [-> | [p ->]].
      * exists y. now rewrite append_empty_r.
      * exists (String.append y (String.append "," p)).
        now rewrite !append_assoc.
Qed.

Lemma split_comma_segment (s name : string) :
  In name (split_comma s) <-> segment_of name s.
Proof.
  split.
  - intros Hin. split.
    + pose proof (split_comma_no_comma s) as F.
      rewrite Forall_forall in F. now apply F.
    + destruct (join_In _ _ Hin) as (pre & post & E & Hpre & Hpost).
      rewrite join_split_comma in E. now exists pre, post.
  - intros (Hc & l & r & -> & Hl & Hr).
    assert (Hn : In name (split_comma (name ++ r))).
    { destruct Hr as [-> | [r' ->]].
      - rewrite append_empty_r, (split_comma_single _ Hc). now left.
      - rewrite split_comma_app, (split_comma_single _ Hc). now left. }
    destruct Hl as [-> | [l' ->]]; [exact Hn|].
    rewrite append_assoc, split_comma_app. apply in_or_app. now right.
Qed.

(** On the patterns without the [g] and [y] flags, [matches(pattern, name)]
    is true exactly when: the pattern is an array and the name is a member
    of it; or the pattern is a string and the name is one of its
    comma-separated segments; or the pattern is a regular expression and
    its test accepts the name.  For any other form of pattern the result is
    false. *)
Theorem matches_spec (pattern : Pattern) (name : string) :
  matches pattern name = true <->
  match pattern with
  | PArray l => In name l
  | PString s => segment_of name s
  | PRegExp r => test r name = true
  | POther _ => False
  end.
Proof.
  destruct pattern as [s | r | l | t]; simpl.
  - rewrite includes_In. apply split_comma_segment.
  - tauto.
  - apply includes_In.
  - split; [discriminate | tauto].
Qed.

(** ** The cache object and the keys array *)

Lemma cache_get_set_eq (c : CacheEntryMap) k v :
  cache_get (cache_set c k v) k = v.
Proof.
  induction c as [|[k' w] c IH]; simpl.
  - now rewrite String.eqb_refl.
  - destruct (k' =? k) eqn:E; simpl; rewrite E; [reflexivity | exact IH].
Qed.

Lemma cache_get_set_neq (c : CacheEntryMap) k v k' :
  k' <> k -> cache_get (cache_set c k v) k' = cache_get c k'.
Proof.
  intros N. induction c as [|[k0 w] c IH]; simpl.
  - apply String.eqb_neq in N. rewrite String.eqb_sym in N. now rewrite N.
  - destruct (k0 =? k) eqn:E; simpl.
    + apply String.eqb_eq in E. subst k0.
      apply String.eqb_neq in N. rewrite String.eqb_sym in N. now rewrite N.
    + destruct (k0 =? k'); [reflexivity | exact IH].
Qed.

Lemma cache_get_In (c : CacheEntryMap) k e :
  cache_get c k = Some e -> In k (map fst c).
Proof.
  induction c as [|[k0 w] c IH]; simpl; [discriminate|].
  destruct (k0 =? k) eqn:E.
  - apply String.eqb_eq in E. now left.
  - intros H. right. now apply IH.
Qed.

Lemma names_set_In (c : CacheEntryMap) k v :
  In k (map fst c) -> map fst (cache_set c k v) = map fst c.
Proof.
  induction c as [|[k0 w] c IH]; simpl; [tauto|].
  destruct (k0 =? k) eqn:E; simpl; [reflexivity|].
  intros [H | H].
  - apply String.eqb_neq in E. contradiction.
  - now rewrite IH.
Qed.

Lemma names_set_fresh (c : CacheEntryMap) k v :
  ~ In k (map fst c) -> map fst (cache_set c k v) = map fst c ++ [k].
Proof.
  induction c as [|[k0 w] c IH]; simpl; [reflexivity|].
  intros H. destruct (k0 =? k) eqn:E.
  - apply String.eqb_eq in E. tauto.
  - simpl. rewrite IH; tauto.
Qed.

Lemma remove_absent (l : list string) k : ~ In k l -> remove l k = l.
Proof.
  induction l as [|x l IH]; simpl; [reflexivity|].
  intros H. destruct (x =? k) eqn:E.
  - apply String.eqb_eq in E. tauto.
  - rewrite IH; tauto.
Qed.

Lemma remove_incl (l : list string) k x : In x (remove l k) -> In x l.
Proof.
  induction l as [|y l IH]; simpl; [tauto|].
  destruct (y =? k); simpl; intuition.
Qed.

Lemma remove_In (l : list string) k x :
  NoDup l -> (In x (remove l k) <-> In x l /\ x <> k).
Proof.
  induction l as [|y l IH]; simpl; [tauto|].
  intros ND. inversion ND as [|? ? Hy ND']; subst.
  destruct (y =? k) eqn:E.
  - apply String.eqb_eq in E. subst y. split.
    + intros H. split; [now right | intros ->; contradiction].
    + intros [[H | H] N]; [congruence | exact H].
  - apply String.eqb_neq in E. simpl. rewrite (IH ND'). split.
    + intros [-> | [H N]]; tauto.
    + intros [[-> | H] N]; tauto.
Qed.

Lemma remove_other (l : list string) k x :
  x <> k -> (In x (remove l k) <-> In x l).
Proof.
  intros N. induction l as [|y l IH]; simpl; [tauto|].
  destruct (y =? k) eqn:E.
  - apply String.eqb_eq in E. subst y. split; [tauto|].
    intros [H | H]; [congruence | exact H].
  - simpl. rewrite IH. tauto.
Qed.

Lemma remove_NoDup (l : list string) k : NoDup l -> NoDup (remove l k).
Proof.
  induction l as [|y l IH]; simpl; [constructor|].
  intros ND. inversion ND as [|? ? Hy ND']; subst.
  destruct (y =? k); [exact ND'|].
  constructor; [|now apply IH].
  intros H. apply Hy. eapply remove_incl. exact H.
Qed.

(** ** Eviction of one entry *)

(** What a run of [pruneCacheEntry] is, case by case. *)
Lemma pruneCacheEntry_run (key : string) (current : option ref) (s : KA.t) :
  pruneCacheEntry key current s =
  match cache_get (KA.cache s) key with
  | Some e =>
      if match current with
         | None => true
         | Some c =>
             negb (strict_eq (CacheEntry.tag e) (VNode.tag (KA.heap s c)))
         end
      then match CacheEntry.componentInstance e with
           | Some i => Ok tt (evicted key (logged i s))
           | None => Throw TypeError s
           end
      else Ok tt (evicted key s)
  | None => Ok tt (evicted key s)
  end.
Proof.
  unfold pruneCacheEntry, bind, get. simpl.
  destruct (cache_get (KA.cache s) key) as [e|]; [|reflexivity].
  destruct (match current with None => true | Some c => _ end);
    [|reflexivity].
  unfold call_destroy. destruct (CacheEntry.componentInstance e); reflexivity.
Qed.

Lemma strict_eq_true (a b : option string) : strict_eq a b = true <-> a = b.
Proof.
  destruct a as [x|], b as [y|]; simpl; try (split; congruence).
  rewrite String.eqb_eq. split; congruence.
Qed.

Lemma guard_must_destroy s e current :
  match current with
  | None => true
  | Some c => negb (strict_eq (CacheEntry.tag e) (VNode.tag (KA.heap s c)))
  end = true <-> must_destroy s e current.
Proof.
  unfold must_destroy. destruct current as [c|].
  - rewrite negb_true_iff. split.
    + intros H. right. exists c. split; [reflexivity|].
      intros E. apply strict_eq_true in E. congruence.
    + intros [H | (c' & [= <-] & N)]; [discriminate|].
      destruct (strict_eq _ _) eqn:E; [|reflexivity].
      apply strict_eq_true in E. contradiction.
  - split; [now left | reflexivity].
Qed.

Lemma must_destroy_same_tag s e current :
  must_destroy s e current -> same_tag s e current -> False.
Proof.
  intros [-> | (c & -> & N)] (c' & E & T); [discriminate|].
  injection E as <-. contradiction.
Qed.

(** C2.  Eviction of a key whose entry, if there is one, holds an instance:
    the run completes; the entry is out of the map and the key out of the
    recency order in every case, and nothing else moves; [$destroy] is
    called on the instance when the entry exists and no comparison node is
    given or its tag differs from the entry's, and is not called when the
    tags are equal (or when there is no entry). *)
Theorem pruneCacheEntry_spec (key : string) (current : option ref)
  (s : KA.t) :
  NoDup (KA.keys s) ->
  (forall e, cache_get (KA.cache s) key = Some e ->
             CacheEntry.componentInstance e <> None) ->
  exists s',
    pruneCacheEntry key current s = Ok tt s' /\
    cache_get (KA.cache s') key = None /\
    ~ In key (KA.keys s') /\
    (forall k, k <> key ->
       cache_get (KA.cache s') k = cache_get (KA.cache s) k /\
       (In k (KA.keys s') <-> In k (KA.keys s))) /\
    (forall e i,
       cache_get (KA.cache s) key = Some e ->
       CacheEntry.componentInstance e = Some i ->
       must_destroy s e current ->
       KA.destroy_log s' = KA.destroy_log s ++ [i]) /\
    (forall e,
       cache_get (KA.cache s) key = Some e ->
       same_tag s e current ->
       KA.destroy_log s' = KA.destroy_log s) /\
    (cache_get (KA.cache s) key = None ->
     KA.destroy_log s' = KA.destroy_log s).
Proof.
  intros ND Hinst.
  assert (Hev : forall s0,
    KA.keys s0 = KA.keys s -> KA.cache s0 = KA.cache s ->
    cache_get (KA.cache (evicted key s0)) key = None /\
    ~ In key (KA.keys (evicted key s0)) /\
    (forall k, k <> key ->
       cache_get (KA.cache (evicted key s0)) k = cache_get (KA.cache s) k /\
       (In k (KA.keys (evicted key s0)) <-> In k (KA.keys s)))).
  { intros s0 Ek Ec. simpl. rewrite Ek, Ec. split; [apply cache_get_set_eq|].
    split.
    - intros H. apply (remove_In _ key key ND) in H. tauto.
    - intros k N. split; [now apply cache_get_set_neq | now apply remove_other]. }
  rewrite pruneCacheEntry_run.
  destruct (cache_get (KA.cache s) key) as [e|] eqn:G.
  - destruct (match current with None => true | Some c => _ end) eqn:Gd.
    + apply guard_must_destroy in Gd.
      destruct (CacheEntry.componentInstance e) as [i|] eqn:Ei;
        [|exfalso; now apply (Hinst e)].
      exists (evicted key (logged i s)).
      split; [reflexivity|].
      destruct (Hev (logged i s) eq_refl eq_refl) as (A & B & C).
      repeat split; try assumption; try apply C; try assumption.
      * intros e0 i0 [= <-] Ei0 _. simpl. congruence.
      * intros e0 [= <-] St. exfalso.
        eapply must_destroy_same_tag; eassumption.
      * discriminate.
    + exists (evicted key s). split; [reflexivity|].
      destruct (Hev s eq_refl eq_refl) as (A & B & C).
      repeat split; try assumption; try apply C; try assumption.
      intros e0 i0 [= <-] _ Md. apply guard_must_destroy in Md. congruence.
  - exists (evicted key s). split; [reflexivity|].
    destruct (Hev s eq_refl eq_refl) as (A & B & C).
    repeat split; try assumption; try apply C; try assumption; discriminate.
Qed.

Lemma pruneCacheEntry_spec_witness :
  exists s',
    pruneCacheEntry "b" (Some 3) Ex.store3 = Ok tt s' /\
    cache_get (KA.cache s') "b" = None /\
    ~ In "b" (KA.keys s') /\
    KA.destroy_log s' = [102].
Proof.
  destruct (pruneCacheEntry_spec "b" (Some 3) Ex.store3)
    as (s' & R & G & K & _ & D & _).
  - simpl. repeat constructor; simpl; intuition discriminate.
  - simpl. intros e [= <-]. discriminate.
  - exists s'. repeat split; try assumption.
    apply (D (CacheEntry.mk (Some "bar") (Some "vue-component-2-bar")
                (Some 102)) 102); [reflexivity | reflexivity |].
    right. exists 3. split; [reflexivity | discriminate].
Defined.

(** ** The order of enumeration *)

Lemma insert_index_perm x l : Permutation (insert_index x l) (x :: l).
Proof.
  induction l as [|y l IH]; simpl; [apply Permutation_refl|].
  destruct (fst x <=? fst y)%N; [apply Permutation_refl|].
  eapply perm_trans; [apply perm_skip, IH | apply perm_swap].
Qed.

Lemma sort_index_perm l : Permutation (sort_index l) l.
Proof.
  induction l as [|x l IH]; simpl; [constructor|].
  eapply perm_trans; [apply insert_index_perm | now apply perm_skip].
Qed.

Lemma forin_keys_perm (c : CacheEntryMap) :
  Permutation (forin_keys c) (map fst c).
Proof.
  unfold forin_keys. generalize (map fst c) as names. intros names.
  eapply perm_trans.
  - apply Permutation_app_tail, Permutation_map, sort_index_perm.
  - induction names as [|k r IH]; simpl; [constructor|].
    unfold is_plain_name. destruct (array_index k) as [n|]; simpl.
    + now apply perm_skip.
    + apply Permutation_sym, Permutation_cons_app, Permutation_sym, IH.
Qed.

Lemma forin_keys_In (c : CacheEntryMap) k :
  In k (forin_keys c) <-> In k (map fst c).
Proof.
  split; apply Permutation_in;
    [apply forin_keys_perm | apply Permutation_sym, forin_keys_perm].
Qed.

Lemma forin_keys_NoDup (c : CacheEntryMap) :
  NoDup (map fst c) -> NoDup (forin_keys c).
Proof.
  intros H. eapply Permutation_NoDup; [|exact H].
  apply Permutation_sym, forin_keys_perm.
Qed.

Lemma cache_get_absent (c : CacheEntryMap) k :
  ~ In k (map fst c) -> cache_get c k = None.
Proof.
  intros H. destruct (cache_get c k) eqn:E; [|reflexivity].
  exfalso. apply H. eapply cache_get_In. exact E.
Qed.

(** ** Teardown of the container *)

Lemma instances_present_set (c : CacheEntryMap) k v :
  instances_present c ->
  (forall e, v = Some e -> CacheEntry.componentInstance e <> None) ->
  instances_present (cache_set c k v).
Proof.
  intros H Hv k' e. destruct (String.eqb_spec k' k) as [-> | N].
  - rewrite cache_get_set_eq. apply Hv.
  - rewrite cache_get_set_neq by exact N. apply H.
Qed.

Lemma flat_map_ext_in {A B} (f g : A -> list B) (l : list A) :
  (forall x, In x l -> f x = g x) -> flat_map f l = flat_map g l.
Proof.
  induction l as [|x l IH]; simpl; intros H; [reflexivity|].
  rewrite (H x) by now left. f_equal. apply IH. intros y Hy. apply H.
  now right.
Qed.

(** The loop of [destroyed] over any list of keys. *)
Lemma teardown_loop (l : list string) :
  forall s, instances_present (KA.cache s) ->
  exists s',
    for_each l (fun key => pruneCacheEntry key None) s = Ok tt s' /\
    (forall k, In k l -> cache_get (KA.cache s') k = None) /\
    (forall k, ~ In k l ->
       cache_get (KA.cache s') k = cache_get (KA.cache s) k) /\
    (forall k, In k (KA.keys s') -> In k (KA.keys s)) /\
    (forall k, In k l -> NoDup (KA.keys s) -> ~ In k (KA.keys s')) /\
    (NoDup l ->
     KA.destroy_log s' =
     KA.destroy_log s ++
     flat_map (fun k =>
       match cache_get (KA.cache s) k with
       | Some e =>
           match CacheEntry.componentInstance e with
           | Some i => [i]
           | None => []
           end
       | None => []
       end) l).
Proof.
  induction l as [|x l IH]; intros s Hi.
  - exists s. simpl. rewrite app_nil_r. unfold ret. intuition.
  - simpl. unfold bind at 1. rewrite pruneCacheEntry_run.
    set (s1 := match cache_get (KA.cache s) x with
               | Some e => match CacheEntry.componentInstance e with
                           | Some i => evicted x (logged i s)
                           | None => s
                           end
               | None => evicted x s
               end).
    assert (R : match cache_get (KA.cache s) x with
                | Some e => match CacheEntry.componentInstance e with
                            | Some i => Ok tt (evicted x (logged i s))
                            | None => Throw TypeError s
                            end
                | None => Ok tt (evicted x s)
                end = Ok tt s1 /\
                KA.cache s1 = cache_set (KA.cache s) x None /\
                KA.keys s1 = remove (KA.keys s) x /\
                KA.destroy_log s1 =
                KA.destroy_log s ++
                match cache_get (KA.cache s) x with
                | Some e => match CacheEntry.componentInstance e with
                            | Some i => [i]
                            | None => []
                            end
                | None => []
                end).
    { subst s1. destruct (cache_get (KA.cache s) x) as [e|] eqn:G.
      - destruct (CacheEntry.componentInstance e) as [i|] eqn:Ei.
        + repeat split.
        + exfalso. now apply (Hi x e).
      - repeat split. simpl. now rewrite app_nil_r. }
    destruct R as (R & Ec & Ek & El). rewrite R.
    destruct (IH s1) as (s' & Rl & A & B & C & D & E).
    { rewrite Ec. apply instances_present_set; [exact Hi | discriminate]. }
    exists s'. split; [exact Rl|].
    split; [|split; [|split; [|split]]].
    + intros k [<- | Hk].
      * destruct (in_dec string_dec x l) as [Hx | Hx]; [now apply A|].
        rewrite (B x Hx), Ec. apply cache_get_set_eq.
      * now apply A.
    + intros k Hk. rewrite B by tauto. rewrite Ec.
      apply cache_get_set_neq. intros ->. apply Hk. now left.
    + intros k Hk. apply C in Hk. rewrite Ek in Hk.
      eapply remove_incl. exact Hk.
    + intros k [<- | Hk] ND Hin.
      * apply C in Hin. rewrite Ek in Hin.
        apply remove_In in Hin; [tauto | exact ND].
      * apply (D k Hk); [|exact Hin]. rewrite Ek. now apply remove_NoDup.
    + intros NDl. inversion NDl as [|? ? Hx NDl']; subst.
      rewrite (E NDl'), El, <- app_assoc. f_equal. f_equal.
      apply flat_map_ext_in. intros k Hk.
      rewrite Ec, cache_get_set_neq; [reflexivity|].
      intros ->. contradiction.
Qed.

Lemma destroyed_run (s : KA.t) :
  instances_present (KA.cache s) ->
  exists s',
    destroyed s = Ok tt s' /\
    (forall k, cache_get (KA.cache s') k = None) /\
    (NoDup (KA.keys s) ->
     (forall k, In k (KA.keys s) -> In k (map fst (KA.cache s))) ->
     KA.keys s' = []).
Proof.
  intros Hi. unfold destroyed, bind, get.
  destruct (teardown_loop (forin_keys (KA.cache s)) s Hi)
    as (s' & R & A & B & C & D & _).
  exists s'. split; [exact R|]. split.
  - intros k. destruct (in_dec string_dec k (forin_keys (KA.cache s))) as [H|H].
    + now apply A.
    + rewrite (B k H). apply cache_get_absent.
      intros Hn. apply H. now apply forin_keys_In.
  - intros ND Hsub. destruct (KA.keys s') as [|k r]; [reflexivity|].
    exfalso. assert (Hk : In k (k :: r)) by now left.
    apply (D k); [|exact ND|exact Hk].
    apply forin_keys_In, Hsub, C, Hk.
Qed.

(** C7.  A second eviction of a key never calls [$destroy]: whatever the
    comparison nodes, the second of two runs of [pruneCacheEntry] on the
    same key leaves the log of [$destroy] calls as the first left it, so the
    two runs together make at most one call; when the first run completes,
    the entry is null from then on and the second run completes too.  The
    same holds for an eviction after the teardown of the container: when
    the entries hold instances the teardown completes, leaves every entry
    null, and a later eviction of any key completes and destroys nothing. *)
Theorem pruneCacheEntry_twice (key : string) (c1 c2 : option ref)
  (s : KA.t) :
  let o1 := pruneCacheEntry key c1 s in
  let o2 := pruneCacheEntry key c2 (state_of o1) in
  KA.destroy_log (state_of o2) = KA.destroy_log (state_of o1) /\
  (exists l, KA.destroy_log (state_of o2) = KA.destroy_log s ++ l /\
             length l <= 1) /\
  (completes o1 = true ->
   cache_get (KA.cache (state_of o1)) key = None /\ completes o2 = true) /\
  (instances_present (KA.cache s) ->
   let o3 := destroyed s in
   let o4 := pruneCacheEntry key c2 (state_of o3) in
   completes o3 = true /\
   cache_get (KA.cache (state_of o3)) key = None /\
   completes o4 = true /\
   KA.destroy_log (state_of o4) = KA.destroy_log (state_of o3)).
Proof.
  assert (Second : forall s1,
    cache_get (KA.cache s1) key = None ->
    completes (pruneCacheEntry key c2 s1) = true /\
    KA.destroy_log (state_of (pruneCacheEntry key c2 s1)) = KA.destroy_log s1).
  { intros s1 G. rewrite pruneCacheEntry_run, G. split; reflexivity. }
  assert (Ev : forall s0, cache_get (KA.cache (evicted key s0)) key = None).
  { intros s0. simpl. apply cache_get_set_eq. }
  cbv zeta. split; [|split; [|split]].
  - rewrite (pruneCacheEntry_run key c1 s).
    destruct (cache_get (KA.cache s) key) as [e|] eqn:G.
    + destruct (match c1 with None => true | Some c => _ end).
      * destruct (CacheEntry.componentInstance e) as [i|] eqn:Ei.
        -- apply Second, Ev.
        -- simpl. rewrite pruneCacheEntry_run, G, Ei.
           destruct (match c2 with None => true | Some c => _ end);
             reflexivity.
      * apply Second, Ev.
    + apply Second, Ev.
  - rewrite (pruneCacheEntry_run key c1 s).
    destruct (cache_get (KA.cache s) key) as [e|] eqn:G.
    + destruct (match c1 with None => true | Some c => _ end).
      * destruct (CacheEntry.componentInstance e) as [i|] eqn:Ei.
        -- exists [i]. split; [|simpl; lia].
           simpl state_of. now rewrite (proj2 (Second _ (Ev _))).
        -- exists []. split; [|simpl; lia]. simpl state_of.
           rewrite pruneCacheEntry_run, G, Ei, app_nil_r.
           destruct (match c2 with None => true | Some c => _ end);
             reflexivity.
      * exists []. split; [|simpl; lia]. simpl state_of.
        rewrite (proj2 (Second _ (Ev _))). simpl. now rewrite app_nil_r.
    + exists []. split; [|simpl; lia]. simpl state_of.
      rewrite (proj2 (Second _ (Ev _))). simpl. now rewrite app_nil_r.
  - rewrite (pruneCacheEntry_run key c1 s).
    destruct (cache_get (KA.cache s) key) as [e|] eqn:G.
    + destruct (match c1 with None => true | Some c => _ end).
      * destruct (CacheEntry.componentInstance e) as [i|] eqn:Ei.
        -- intros _. split; [apply Ev | apply Second, Ev].
        -- discriminate.
      * intros _. split; [apply Ev | apply Second, Ev].
    + intros _. split; [apply Ev | apply Second, Ev].
  - intros Hi. destruct (destroyed_run s Hi) as (s' & R & A & _).
    rewrite R. simpl. split; [reflexivity|]. split; [apply A|].
    apply Second, A.
Qed.

Lemma pruneCacheEntry_twice_witness :
  KA.destroy_log
    (state_of (pruneCacheEntry "a" None
                 (state_of (pruneCacheEntry "a" None Ex.store3)))) = [101] /\
  KA.destroy_log
    (state_of (pruneCacheEntry "a" None (state_of (destroyed Ex.store3))))
  = [101; 102; 103].
Proof.
  destruct (pruneCacheEntry_twice "a" None None Ex.store3)
    as (A & _ & B & C).
  split.
  - cbv zeta in A. rewrite A. reflexivity.
  - destruct C as (_ & _ & _ & D).
    + intros k e H. cbn in H.
      repeat match type of H with
             | context [if ?b then _ else _] => destruct b
             end;
        inversion H; subst; discriminate.
    + cbv zeta in D. rewrite D. reflexivity.
Defined.

(** C10.  Eviction of an entry that holds no instance handle throws: with no
    comparison node, [pruneCacheEntry] reads [$destroy] of [undefined] and
    raises a [TypeError] before it touches the store; the teardown of a
    store of three entries whose second entry holds no instance destroys
    the first entry and stops there, leaving two entries live. *)
Theorem pruneCacheEntry_throws_without_instance :
  pruneCacheEntry "b" None Ex.store3_no_instance
  = Throw TypeError Ex.store3_no_instance /\
  destroyed Ex.store3_no_instance
  = Throw TypeError (evicted "a" (logged 101 Ex.store3_no_instance)) /\
  KA.keys (state_of (destroyed Ex.store3_no_instance)) = ["b"; "c"] /\
  KA.destroy_log (state_of (destroyed Ex.store3_no_instance)) = [101].
Proof. repeat split. Qed.

(** ** Key resolution *)

Lemma truthy_Some (o : option string) : truthy o = true -> o = Some (str o).
Proof. destruct o; simpl; [reflexivity | discriminate]. Qed.

(** C8.  The key of a render node: an explicit key is used as it is;
    without one the key is the constructor identity alone when there is no
    tag, and the identity, [::] and the tag when there is one.  Under one
    constructor identity two synthetic keys are equal only if both nodes
    have no tag or both have the same tag. *)
Theorem resolveKey_spec (vnode vnode' : VNode.t) (co co' : Opts.t) :
  (forall k, VNode.key vnode = Some k -> resolveKey vnode co = k) /\
  (VNode.key vnode = None -> absent (Opts.tag co) ->
   resolveKey vnode co = string_of_cid (Ctor.cid (Opts.Ctor co))) /\
  (VNode.key vnode = None -> present (Opts.tag co) ->
   resolveKey vnode co =
   (string_of_cid (Ctor.cid (Opts.Ctor co)) ++ "::"
    ++ str (Opts.tag co))%string) /\
  (VNode.key vnode = None -> VNode.key vnode' = None ->
   Ctor.cid (Opts.Ctor co) = Ctor.cid (Opts.Ctor co') ->
   resolveKey vnode co = resolveKey vnode' co' ->
   truthy (Opts.tag co) = truthy (Opts.tag co') /\
   (present (Opts.tag co) -> Opts.tag co = Opts.tag co')).
Proof.
  unfold resolveKey, present, absent.
  split; [|split; [|split]].
  - intros k ->. reflexivity.
  - intros -> ->. apply append_empty_r.
  - intros -> ->. reflexivity.
  - intros K K' Ecid E. rewrite K, K', Ecid in E.
    apply append_inv_head in E.
    destruct (truthy (Opts.tag co)) eqn:T,
             (truthy (Opts.tag co')) eqn:T'; try discriminate.
    + split; [reflexivity|]. intros _. injection E as E.
      rewrite (truthy_Some _ T), (truthy_Some _ T'). now f_equal.
    + split; [reflexivity | discriminate].
Qed.

Lemma resolveKey_spec_witness :
  resolveKey (Ex.heap 1) (Ex.opts 1 "foo" "foo") = "1::foo" /\
  resolveKey (Ex.heap 1) (Ex.opts 1 "foo" "foo")
  <> resolveKey (Ex.heap 1) (Ex.opts 1 "foo" "bar").
Proof.
  destruct (resolveKey_spec (Ex.heap 1) (Ex.heap 1)
              (Ex.opts 1 "foo" "foo") (Ex.opts 1 "foo" "bar"))
    as (_ & _ & A & B).
  split.
  - apply A; reflexivity.
  - intros E. destruct (B eq_refl eq_refl eq_refl E) as [_ C].
    specialize (C eq_refl). discriminate.
Defined.

(** ** The render pass *)

Lemma filtered_out_ineligible include exclude name :
  filtered_out include exclude name = true <-> ineligible include exclude name.
Proof.
  unfold filtered_out, ineligible, configured, present, absent.
  rewrite orb_true_iff, !andb_true_iff, orb_true_iff, !negb_true_iff.
  tauto.
Qed.

Lemma heap_set_same h r v : heap_set h r v r = v.
Proof. unfold heap_set. now rewrite Nat.eqb_refl. Qed.

(** What an eligible pass does: it goes to the cache and marks the node. *)
Lemma render_eligible (slot : option (list ref)) (v : ref) (co : Opts.t)
  (s : KA.t) :
  VNode.componentOptions (KA.heap s v) = Some co ->
  filtered_out (KA.include s) (KA.exclude s) (_getComponentName (Some co))
  = false ->
  let key := resolveKey (KA.heap s v) co in
  let o := render slot (Some v) s in
  match cache_get (KA.cache s) key with
  | Some e =>
      KA.keys (state_of o) = remove (KA.keys s) key ++ [key] /\
      VNode.componentInstance (KA.heap (state_of o) v)
      = CacheEntry.componentInstance e /\
      KA.vnodeToCache (state_of o) = KA.vnodeToCache s
  | None =>
      KA.vnodeToCache (state_of o) = Some v /\
      KA.keyToCache (state_of o) = key /\
      KA.keys (state_of o) = KA.keys s
  end /\
  KA.cache (state_of o) = KA.cache s /\
  KA.destroy_log (state_of o) = KA.destroy_log s /\
  match VNode.data (KA.heap s v) with
  | Some _ =>
      o = Ok (Some v) (state_of o) /\
      VNode.data (KA.heap (state_of o) v) = Some true
  | None => o = Throw TypeError (state_of o)
  end.
Proof.
  intros Hco F. cbv zeta. unfold render, bind, get. rewrite Hco, F.
  destruct (cache_get (KA.cache s) (resolveKey (KA.heap s v) co))
    as [e|] eqn:G.
  - unfold set_componentInstance, set_keepAlive, modify, bind, get, ret,
      throw. simpl. rewrite !heap_set_same. simpl.
    destruct (VNode.data (KA.heap s v)); simpl;
      rewrite ?heap_set_same; repeat split.
  - unfold set_keepAlive, modify, bind, get, ret, throw. simpl.
    destruct (VNode.data (KA.heap s v)); simpl;
      rewrite ?heap_set_same; repeat split.
Qed.



Lemma remove_app_NoDup (l : list string) k :
  NoDup l -> NoDup (remove l k ++ [k]).
Proof.
  intros ND. apply NoDup_app.
  - now apply remove_NoDup.
  - repeat constructor. intros [].
  - intros x Hx [<- | []]. apply remove_In in Hx; [tauto | exact ND].
Qed.

Lemma remove_app_perm (l : list string) k :
  In k l -> Permutation (remove l k ++ [k]) l.
Proof.
  induction l as [|y l IH]; simpl; [tauto|].
  destruct (y =? k) eqn:E.
  - apply String.eqb_eq in E. subst y. intros _.
    apply Permutation_sym, Permutation_cons_append.
  - intros [H | H]; [apply String.eqb_neq in E; contradiction|].
    simpl. now apply perm_skip, IH.
Qed.

(** C3.  A render pass that is eligible and whose key is in the cache: the
    node that goes out carries the very instance handle of the cached entry;
    the key is taken out of its place in the recency order and appended, so
    it is the last one and still occurs once; the cache, the staged node and
    the log of [$destroy] calls are as before (nothing is rebuilt, staged or
    destroyed); the pass returns the node when the node has [data]. *)
Theorem render_hit (slot : option (list ref)) (v : ref) (co : Opts.t)
  (e : CacheEntry.t) (s : KA.t) :
  VNode.componentOptions (KA.heap s v) = Some co ->
  ~ ineligible (KA.include s) (KA.exclude s) (_getComponentName (Some co)) ->
  cache_get (KA.cache s) (resolveKey (KA.heap s v) co) = Some e ->
  NoDup (KA.keys s) ->
  let key := resolveKey (KA.heap s v) co in
  let o := render slot (Some v) s in
  VNode.componentInstance (KA.heap (state_of o) v)
  = CacheEntry.componentInstance e /\
  KA.keys (state_of o) = remove (KA.keys s) key ++ [key] /\
  last (KA.keys (state_of o)) "" = key /\
  NoDup (KA.keys (state_of o)) /\
  count_occ string_dec (KA.keys (state_of o)) key = 1 /\
  (In key (KA.keys s) -> Permutation (KA.keys (state_of o)) (KA.keys s)) /\
  KA.cache (state_of o) = KA.cache s /\
  KA.vnodeToCache (state_of o) = KA.vnodeToCache s /\
  KA.destroy_log (state_of o) = KA.destroy_log s /\
  (VNode.data (KA.heap s v) <> None -> o = Ok (Some v) (state_of o)).
Proof.
  intros Hco Hel G ND. cbv zeta.
  assert (F : filtered_out (KA.include s) (KA.exclude s)
                (_getComponentName (Some co)) = false).
  { destruct (filtered_out _ _ _) eqn:F; [|reflexivity].
    exfalso. now apply Hel, filtered_out_ineligible. }
  destruct (render_eligible slot v co s Hco F) as (A & Ec & El & D).
  cbv zeta in A. rewrite G in A. destruct A as (Hk & Hi & Hv).
  split; [exact Hi|]. split; [exact Hk|]. rewrite Hk.
  split; [apply last_last|].
  assert (ND' : NoDup (remove (KA.keys s) (resolveKey (KA.heap s v) co)
                       ++ [resolveKey (KA.heap s v) co]))
    by now apply remove_app_NoDup.
  split; [exact ND'|].
  split.
  { apply NoDup_count_occ'; [exact ND'|]. apply in_or_app. right. now left. }
  split; [apply remove_app_perm|].
  split; [exact Ec|]. split; [exact Hv|]. split; [exact El|].
  intros Hd. destruct (VNode.data (KA.heap s v)); [tauto | congruence].
Qed.

Lemma render_hit_witness :
  let o := render None (Some 1) Ex2.filtered in
  VNode.componentInstance (KA.heap (state_of o) 1) = Some 101 /\
  KA.keys (state_of o) = ["2::bar"; "3::baz"; "1::foo"].
Proof.
  destruct (render_hit None 1 (Ex.opts 1 "foo" "foo")
              (CacheEntry.mk (Some "foo") (Some "vue-component-1-foo")
                 (Some 101))
              Ex2.filtered eq_refl) as (A & B & _).
  - intros [[_ [H | H]] | [H _]]; discriminate.
  - reflexivity.
  - simpl. repeat constructor; simpl; intuition discriminate.
  - cbv zeta. split; [exact A | exact B].
Defined.

(** ** The filter-change sweep *)

Lemma remove_filter (l : list string) k :
  NoDup l -> remove l k = filter (fun x => negb (x =? k)) l.
Proof.
  induction l as [|y l IH]; simpl; [reflexivity|].
  intros ND. inversion ND as [|? ? Hy ND']; subst.
  destruct (y =? k) eqn:E; simpl.
  - apply String.eqb_eq in E. subst y.
    rewrite <- (IH ND'). symmetry. now apply remove_absent.
  - f_equal. now apply IH.
Qed.

Lemma filter_filter {A} (f g : A -> bool) (l : list A) :
  filter f (filter g l) = filter (fun x => g x && f x) l.
Proof.
  induction l as [|x l IH]; simpl; [reflexivity|].
  destruct (g x); simpl; [destruct (f x)|]; now rewrite IH.
Qed.

Lemma filter_NoDup {A} (f : A -> bool) (l : list A) :
  NoDup l -> NoDup (filter f l).
Proof.
  induction 1 as [|x l Hx ND IH]; simpl; [constructor|].
  destruct (f x); [|exact IH].
  constructor; [|exact IH]. intros H. apply filter_In in H. tauto.
Qed.

Lemma sweeps_set_other keep c x k :
  k <> x -> sweeps keep (cache_set c x None) k = sweeps keep c k.
Proof. intros N. unfold sweeps. now rewrite cache_get_set_neq. Qed.

Lemma sweep_log_set_other keep h cur c x k :
  k <> x ->
  sweep_log keep h cur (cache_set c x None) k = sweep_log keep h cur c k.
Proof.
  intros N. unfold sweep_log.
  rewrite sweeps_set_other, cache_get_set_neq by exact N. reflexivity.
Qed.

(** One turn of the loop. *)
Lemma sweep_step keep cur key (s : KA.t) :
  instances_present (KA.cache s) ->
  exists s',
    sweep_body keep cur key s = Ok tt s' /\
    KA.cache s' =
      (if sweeps keep (KA.cache s) key
       then cache_set (KA.cache s) key None else KA.cache s) /\
    KA.keys s' =
      (if sweeps keep (KA.cache s) key
       then remove (KA.keys s) key else KA.keys s) /\
    KA.destroy_log s' =
      KA.destroy_log s ++ sweep_log keep (KA.heap s) cur (KA.cache s) key /\
    KA.heap s' = KA.heap s /\
    KA.parent_vnode s' = KA.parent_vnode s.
Proof.
  intros Hi. unfold sweep_body, bind, get, sweep_log, sweeps.
  destruct (cache_get (KA.cache s) key) as [e|] eqn:G.
  - destruct (truthy (CacheEntry.name e)
              && negb (keep (str (CacheEntry.name e)))) eqn:T.
    + rewrite pruneCacheEntry_run, G. fold (guard (KA.heap s) e cur).
      destruct (guard (KA.heap s) e cur).
      * destruct (CacheEntry.componentInstance e) as [i|] eqn:Ei;
          [|exfalso; now apply (Hi key e)].
        eexists. split; [reflexivity|]. simpl. repeat split.
      * eexists. split; [reflexivity|]. simpl. rewrite app_nil_r.
        repeat split.
    + exists s. simpl. rewrite app_nil_r. repeat split.
  - exists s. simpl. rewrite app_nil_r. repeat split.
Qed.

(** The loop of [pruneCache] over a duplicate-free list of keys. *)
Lemma sweep_loop keep cur (l : list string) :
  NoDup l ->
  forall s, instances_present (KA.cache s) -> NoDup (KA.keys s) ->
  exists s',
    for_each l (sweep_body keep cur) s = Ok tt s' /\
    (forall k, cache_get (KA.cache s') k =
               if includes l k && sweeps keep (KA.cache s) k
               then None else cache_get (KA.cache s) k) /\
    KA.keys s' =
      List.filter (fun k => negb (includes l k && sweeps keep (KA.cache s) k))
        (KA.keys s) /\
    KA.destroy_log s' =
      KA.destroy_log s ++
      flat_map (sweep_log keep (KA.heap s) cur (KA.cache s)) l /\
    KA.heap s' = KA.heap s /\
    KA.parent_vnode s' = KA.parent_vnode s.
Proof.
  induction 1 as [|x l Hx NDl IH]; intros s Hi NDk.
  - exists s. simpl. rewrite app_nil_r. unfold ret. repeat split.
    clear. induction (KA.keys s) as [|y r IHr]; simpl; [reflexivity|].
    now rewrite <- IHr.
  - simpl. unfold bind at 1.
    destruct (sweep_step keep cur x s Hi) as (s1 & R & Ec & Ek & El & Eh & Ep).
    rewrite R.
    assert (Hi1 : instances_present (KA.cache s1)).
    { rewrite Ec. destruct (sweeps keep (KA.cache s) x); [|exact Hi].
      apply instances_present_set; [exact Hi | discriminate]. }
    assert (NDk1 : NoDup (KA.keys s1)).
    { rewrite Ek. destruct (sweeps keep (KA.cache s) x); [|exact NDk].
      now apply remove_NoDup. }
    destruct (IH s1 Hi1 NDk1) as (s' & Rl & A & B & C & D & E).
    assert (Same : forall k, k <> x ->
      cache_get (KA.cache s1) k = cache_get (KA.cache s) k /\
      sweeps keep (KA.cache s1) k = sweeps keep (KA.cache s) k /\
      sweep_log keep (KA.heap s1) cur (KA.cache s1) k
      = sweep_log keep (KA.heap s) cur (KA.cache s) k).
    { intros k N. rewrite Ec, Eh.
      destruct (sweeps keep (KA.cache s) x); [|tauto].
      rewrite cache_get_set_neq, sweeps_set_other, sweep_log_set_other
        by exact N. tauto. }
    assert (Hxl : includes l x = false).
    { destruct (includes l x) eqn:I; [|reflexivity].
      apply includes_In in I. contradiction. }
    exists s'. split; [exact Rl|]. split; [|split; [|split; [|split]]].
    + intros k. rewrite A. destruct (String.eqb_spec x k) as [<- | N].
      * rewrite Hxl. simpl. rewrite Ec.
        destruct (sweeps keep (KA.cache s) x) eqn:S; [|reflexivity].
        apply cache_get_set_eq.
      * simpl. destruct (Same k) as (S1 & S2 & _); [congruence|].
        now rewrite S1, S2.
    + rewrite B, Ek.
      destruct (sweeps keep (KA.cache s) x) eqn:S.
      * rewrite (remove_filter _ x NDk), filter_filter.
        apply List.filter_ext. intros k. destruct (String.eqb_spec k x) as [-> | N].
        -- rewrite String.eqb_refl. simpl. now rewrite S.
        -- destruct (Same k N) as (_ & S2 & _). rewrite S2.
           rewrite String.eqb_sym. apply String.eqb_neq in N. rewrite N.
           reflexivity.
      * apply List.filter_ext. intros k. destruct (String.eqb_spec x k) as [<- | N].
        -- now rewrite Hxl, S.
        -- destruct (Same k) as (_ & S2 & _); [congruence|]. now rewrite S2.
    + rewrite C, El, <- app_assoc. f_equal. f_equal.
      apply flat_map_ext_in. intros k Hk. apply Same. intros ->. contradiction.
    + congruence.
    + congruence.
Qed.

Lemma sweeps_live keep c k :
  sweeps keep c k = true -> In k (map fst c).
Proof.
  unfold sweeps. destruct (cache_get c k) eqn:G; [|discriminate].
  intros _. eapply cache_get_In. exact G.
Qed.

(** Discharges [instances_present] and [NoDup] on a concrete store. *)
Ltac concrete_store :=
  match goal with
  | |- instances_present _ =>
      let k := fresh "k" in
      let e := fresh "e" in
      let H := fresh "H" in
      intros k e H; cbn in H;
      repeat match type of H with
             | context [if ?b then _ else _] => destruct b
             end;
      inversion H; subst; discriminate
  | |- NoDup _ =>
      simpl; repeat constructor; simpl; intuition discriminate
  end.

(** C6.  A sweep with a predicate, over a store whose entries hold
    instances, with the placeholder node of the container in place: the
    sweep completes; an entry is null afterwards exactly when it was live
    with a present name that fails the predicate, and every other entry is
    as it was; the recency order loses exactly the keys of those entries and
    keeps the order of the rest; [$destroy] is called exactly on the
    instances of those entries whose tag differs from the tag of the node on
    display (or when no node is on display); an entry whose name is absent
    survives with its key. *)
Theorem pruneCache_spec (keep : string -> bool) (pco : Opts.t) (s : KA.t) :
  instances_present (KA.cache s) ->
  NoDup (KA.keys s) ->
  NoDup (map fst (KA.cache s)) ->
  VNode.componentOptions (KA.heap s (KA.parent_vnode s)) = Some pco ->
  exists s',
    pruneCache keep s = Ok tt s' /\
    (forall k, cache_get (KA.cache s') k =
               if sweeps keep (KA.cache s) k
               then None else cache_get (KA.cache s) k) /\
    KA.keys s' =
      List.filter (fun k => negb (sweeps keep (KA.cache s) k)) (KA.keys s) /\
    KA.destroy_log s' =
      KA.destroy_log s ++
      flat_map (sweep_log keep (KA.heap s) (KA._vnode s) (KA.cache s))
        (forin_keys (KA.cache s)) /\
    (forall i,
       In i (flat_map (sweep_log keep (KA.heap s) (KA._vnode s) (KA.cache s))
               (forin_keys (KA.cache s))) <->
       exists k e,
         cache_get (KA.cache s) k = Some e /\
         present (CacheEntry.name e) /\
         keep (str (CacheEntry.name e)) = false /\
         guard (KA.heap s) e (KA._vnode s) = true /\
         CacheEntry.componentInstance e = Some i) /\
    (forall k e,
       cache_get (KA.cache s) k = Some e -> absent (CacheEntry.name e) ->
       cache_get (KA.cache s') k = Some e /\
       (In k (KA.keys s) -> In k (KA.keys s'))).
Proof.
  intros Hi NDk NDn Hp.
  destruct (sweep_loop keep (KA._vnode s) (forin_keys (KA.cache s))
              (forin_keys_NoDup _ NDn) s Hi NDk)
    as (s1 & R & A & B & C & D & E).
  assert (Hin : forall k,
    includes (forin_keys (KA.cache s)) k && sweeps keep (KA.cache s) k
    = sweeps keep (KA.cache s) k).
  { intros k. destruct (sweeps keep (KA.cache s) k) eqn:S;
      [|apply andb_false_r].
    rewrite andb_true_r. apply includes_In, forin_keys_In.
    eapply sweeps_live. exact S. }
  assert (A' : forall k, cache_get (KA.cache s1) k =
                 if sweeps keep (KA.cache s) k
                 then None else cache_get (KA.cache s) k).
  { intros k. rewrite A, Hin. reflexivity. }
  assert (B' : KA.keys s1 =
    List.filter (fun k => negb (sweeps keep (KA.cache s) k)) (KA.keys s)).
  { rewrite B. apply List.filter_ext. intros k. now rewrite Hin. }
  eexists. split.
  - unfold pruneCache, bind at 1, get at 1. unfold bind at 1.
    change (for_each (forin_keys (KA.cache s)) _ s)
      with (for_each (forin_keys (KA.cache s))
              (sweep_body keep (KA._vnode s)) s).
    rewrite R. unfold bind, get. rewrite D, Hp. unfold modify. reflexivity.
  - simpl. split; [exact A'|]. split; [exact B'|]. split; [exact C|].
    split.
    + intros i. rewrite in_flat_map. unfold sweep_log, sweeps, present.
      split.
      * intros (k & _ & Hk).
        destruct (cache_get (KA.cache s) k) as [e|] eqn:G; [|destruct Hk].
        destruct (truthy (CacheEntry.name e)) eqn:T; [|destruct Hk].
        destruct (keep (str (CacheEntry.name e))) eqn:K; [destruct Hk|].
        destruct (guard (KA.heap s) e (KA._vnode s)) eqn:Gd; [|destruct Hk].
        simpl in Hk. destruct (CacheEntry.componentInstance e) as [j|] eqn:Ei;
          [|destruct Hk].
        destruct Hk as [<- | []]. exists k, e. tauto.
      * intros (k & e & G & T & K & Gd & Ei). exists k. split.
        -- apply forin_keys_In. eapply cache_get_In. exact G.
        -- rewrite G, T, K, Gd, Ei. now left.
    + intros k e G Ab. unfold absent in Ab.
      assert (S : sweeps keep (KA.cache s) k = false)
        by (unfold sweeps; now rewrite G, Ab).
      split.
      * now rewrite A', S.
      * intros Hk. rewrite B'. apply filter_In. now rewrite S.
Qed.

Lemma pruneCache_spec_witness :
  exists s',
    watch_include (PString "foo,bar") Ex2.filtered = Ok tt s' /\
    KA.keys s' = ["1::foo"; "2::bar"] /\
    KA.destroy_log s' = [103] /\
    cache_get (KA.cache s') "3::baz" = None /\
    cache_get (KA.cache s') "1::foo" = Ex.entry 1.
Proof.
  destruct (pruneCache_spec (fun name => matches (PString "foo,bar") name)
              (Ex.opts 9 "keep-alive" "keep-alive") Ex2.filtered)
    as (s' & R & A & B & C & _); try concrete_store; [reflexivity|].
  exists s'. split; [exact R|]. rewrite B, C, !A. repeat split.
Defined.

(** ** Commits and the capacity bound *)

(** What a run of [cacheVNode] with a staged node is. *)
Lemma cacheVNode_run (s : KA.t) (v : ref) :
  KA.vnodeToCache s = Some v ->
  cacheVNode s =
  if truthy_max (KA.max s)
     && gt_parsed (length (KA.keys s ++ [KA.keyToCache s]))
          (parseInt (KA.max s))
  then (pruneCacheEntry (first_key (KA.keys s ++ [KA.keyToCache s]))
          (KA._vnode s) ;;
        modify (KA.with_vnodeToCache None)) (inserted v s)
  else Ok tt (committed s).
Proof.
  intros Hv. unfold cacheVNode, committed, bind at 1, get at 1.
  rewrite Hv. unfold bind, modify, get, ret. simpl.
  destruct (truthy_max (KA.max s)
            && gt_parsed (length (KA.keys s ++ [KA.keyToCache s]))
                 (parseInt (KA.max s))); reflexivity.
Qed.

Lemma parseInt_nonzero_truthy (m : MaxProp) (n : Z) :
  parseInt m = Some n -> n <> 0%Z -> truthy_max m = true.
Proof.
  destruct m as [|s|z]; simpl.
  - discriminate.
  - destruct s; [discriminate | reflexivity].
  - intros H N. destruct (Z.eqb_spec z 0) as [-> | _]; [|reflexivity].
    vm_compute in H. congruence.
Qed.

Lemma wf_store_set_None c keys k :
  wf_store c keys -> wf_store (cache_set c k None) (remove keys k).
Proof.
  intros [Hn Hk Hl Hi]. split.
  - destruct (in_dec string_dec k (map fst c)) as [H | H].
    + now rewrite names_set_In.
    + rewrite names_set_fresh by exact H. apply NoDup_app; [exact Hn| |].
      * repeat constructor. intros [].
      * intros x Hx [<- | []]. contradiction.
  - now apply remove_NoDup.
  - intros x. destruct (String.eqb_spec x k) as [-> | N].
    + rewrite cache_get_set_eq. split; [|congruence].
      intros H. apply remove_In in H; [tauto | exact Hk].
    + rewrite cache_get_set_neq, remove_other by exact N. apply Hl.
  - apply instances_present_set; [exact Hi | discriminate].
Qed.

Lemma wf_store_insert c keys k e :
  wf_store c keys -> ~ In k keys ->
  CacheEntry.componentInstance e <> None ->
  wf_store (cache_set c k (Some e)) (keys ++ [k]).
Proof.
  intros [Hn Hk Hl Hi] Hfresh He. split.
  - destruct (in_dec string_dec k (map fst c)) as [H | H].
    + now rewrite names_set_In.
    + rewrite names_set_fresh by exact H. apply NoDup_app; [exact Hn| |].
      * repeat constructor. intros [].
      * intros x Hx [<- | []]. contradiction.
  - apply NoDup_app; [exact Hk | repeat constructor; intros [] |].
    intros x Hx [<- | []]. contradiction.
  - intros x. rewrite in_app_iff. destruct (String.eqb_spec x k) as [-> | N].
    + rewrite cache_get_set_eq. split; [discriminate|]. intros _. right.
      now left.
    + rewrite cache_get_set_neq by exact N. rewrite <- Hl. simpl.
      intuition congruence.
  - apply instances_present_set; [exact Hi|]. intros e' [= <-]. exact He.
Qed.

Lemma live_count_keys c keys :
  wf_store c keys -> live_count c = length keys.
Proof.
  intros [Hn Hk Hl Hi]. unfold live_count. apply Permutation_length.
  apply NoDup_Permutation; [now apply filter_NoDup | exact Hk |].
  intros x. rewrite filter_In, Hl. unfold is_live. split.
  - intros [_ H]. destruct (cache_get c x); [discriminate | discriminate].
  - intros H. destruct (cache_get c x) as [e|] eqn:G; [|congruence].
    split; [|reflexivity]. eapply cache_get_In. exact G.
Qed.

(** One commit of a fresh key on a store within its capacity. *)
Lemma commit_step (N : nat) (c : Commit.t) (s : KA.t) :
  1 <= N ->
  parseInt (KA.max s) = Some (Z.of_nat N) ->
  wf_store (KA.cache s) (KA.keys s) ->
  length (KA.keys s) <= N ->
  ~ In (Commit.key c) (KA.keys s) ->
  VNode.componentInstance (KA.heap s (Commit.vnode c)) <> None ->
  exists s',
    commit c s = Ok tt s' /\
    KA.max s' = KA.max s /\
    KA.heap s' = KA.heap s /\
    wf_store (KA.cache s') (KA.keys s') /\
    ((length (KA.keys s) < N /\
      KA.cache s' =
        cache_set (KA.cache s) (Commit.key c)
          (Some (entry_of s (Commit.vnode c))) /\
      KA.keys s' = KA.keys s ++ [Commit.key c] /\
      KA.destroy_log s' = KA.destroy_log s) \/
     (length (KA.keys s) = N /\
      exists h rest eh,
        KA.keys s = h :: rest /\
        cache_get (KA.cache s) h = Some eh /\
        KA.cache s' =
          cache_set
            (cache_set (KA.cache s) (Commit.key c)
               (Some (entry_of s (Commit.vnode c)))) h None /\
        KA.keys s' = rest ++ [Commit.key c] /\
        KA.destroy_log s' =
          KA.destroy_log s ++
          (if guard (KA.heap s) eh (Commit.current c)
           then match CacheEntry.componentInstance eh with
                | Some i => [i]
                | None => []
                end
           else []))).
Proof.
  intros HN Hmax Hwf Hlen Hfresh Hinst.
  destruct c as [k v cur]. simpl in *.
  assert (Hwf1 : wf_store (cache_set (KA.cache s) k (Some (entry_of s v)))
                   (KA.keys s ++ [k]))
    by (apply wf_store_insert; assumption).
  change (commit (Commit.mk k v cur) s)
    with (cacheVNode
            (KA.with_keyToCache k
               (KA.with_vnodeToCache (Some v) (KA.with__vnode cur s)))).
  rewrite (cacheVNode_run
             (KA.with_keyToCache k
                (KA.with_vnodeToCache (Some v) (KA.with__vnode cur s)))
             v eq_refl).
  simpl.
  rewrite Hmax, (parseInt_nonzero_truthy _ _ Hmax) by lia. simpl.
  rewrite length_app. simpl.
  destruct (Z.ltb_spec (Z.of_nat N) (Z.of_nat (length (KA.keys s) + 1)))
    as [Hlt | Hge].
  - assert (HlenN : length (KA.keys s) = N) by lia.
    destruct (KA.keys s) as [|h rest] eqn:Ek; [simpl in HlenN; lia|].
    assert (Hhk : h <> k) by (intros ->; apply Hfresh; now left).
    destruct (cache_get (KA.cache s) h) as [eh|] eqn:Gh.
    2:{ exfalso. apply (proj1 (wf_lockstep _ _ Hwf h)); [now left | exact Gh]. }
    destruct (CacheEntry.componentInstance eh) as [i|] eqn:Ei.
    2:{ exfalso. now apply (wf_instances _ _ Hwf h eh). }
    pose proof (wf_store_set_None _ _ h Hwf1) as Hwf2.
    simpl in Hwf2. rewrite String.eqb_refl in Hwf2.
    unfold bind. rewrite pruneCacheEntry_run. simpl.
    rewrite cache_get_set_neq, Gh by exact Hhk.
    fold (guard (KA.heap s) eh cur). unfold modify.
    destruct (guard (KA.heap s) eh cur) eqn:Gd; rewrite ?Ei; simpl;
      rewrite ?Ek; simpl; rewrite ?String.eqb_refl;
      (eexists; split; [reflexivity|]; simpl;
       rewrite ?Ek; simpl; rewrite ?String.eqb_refl;
       split; [reflexivity|]; split; [reflexivity|]; split; [exact Hwf2|];
       right; split; [exact HlenN|];
       exists h, rest, eh; rewrite ?Gd, ?Ei, ?app_nil_r; repeat split;
       assumption).
  - eexists. split; [reflexivity|]. simpl.
    split; [reflexivity|]. split; [reflexivity|]. split; [exact Hwf1|].
    left. repeat split. lia.
Qed.

Lemma for_each_app {A} (l1 l2 : list A) (body : A -> M unit) (s s1 : KA.t) :
  for_each l1 body s = Ok tt s1 ->
  for_each (l1 ++ l2) body s = for_each l2 body s1.
Proof.
  revert s. induction l1 as [|x l1 IH]; simpl; intros s.
  - unfold ret. now intros [= ->].
  - unfold bind. destruct (body x s) as [[] s0|]; [apply IH | discriminate].
Qed.

(** A sequence of commits of fresh, distinct keys. *)
Lemma commits_run (N : nat) (cs : list Commit.t) :
  forall s,
  1 <= N ->
  parseInt (KA.max s) = Some (Z.of_nat N) ->
  wf_store (KA.cache s) (KA.keys s) ->
  length (KA.keys s) <= N ->
  NoDup (map Commit.key cs) ->
  (forall c, In c cs -> ~ In (Commit.key c) (KA.keys s)) ->
  (forall c, In c cs ->
     VNode.componentInstance (KA.heap s (Commit.vnode c)) <> None) ->
  exists s',
    commits cs s = Ok tt s' /\
    KA.max s' = KA.max s /\
    KA.heap s' = KA.heap s /\
    wf_store (KA.cache s') (KA.keys s') /\
    length (KA.keys s') <= N /\
    (forall k, In k (KA.keys s') ->
       In k (KA.keys s) \/ In k (map Commit.key cs)).
Proof.
  induction cs as [|c cs IH]; intros s HN Hmax Hwf Hlen ND Hfresh Hinst.
  - exists s. unfold commits. simpl. unfold ret.
    split; [reflexivity|]. split; [reflexivity|]. split; [reflexivity|].
    split; [exact Hwf|]. split; [exact Hlen|]. intros k Hk. now left.
  - inversion ND as [|? ? Hc ND']; subst.
    destruct (commit_step N c s HN Hmax Hwf Hlen) as (s1 & R & Em & Eh & W & D).
    { apply Hfresh. now left. }
    { apply Hinst. now left. }
    assert (Hkeys : length (KA.keys s1) <= N /\
                    forall k, In k (KA.keys s1) ->
                              In k (KA.keys s) \/ k = Commit.key c).
    { destruct D as [(L & _ & Ek & _) | (L & h & rest & eh & Ek0 & _ & _ & Ek & _)].
      - rewrite Ek, length_app. simpl. split; [lia|].
        intros k Hk. apply in_app_iff in Hk. simpl in Hk. intuition.
      - rewrite Ek, length_app. rewrite Ek0 in L. simpl in *. split; [lia|].
        intros k Hk. apply in_app_iff in Hk. rewrite Ek0. simpl in *.
        intuition. }
    destruct Hkeys as [Hlen1 Hsub].
    destruct (IH s1) as (s' & Rl & Em' & Eh' & W' & L' & Sub'); auto.
    + congruence.
    + intros c' Hc' Hin. destruct (Hsub _ Hin) as [H | H].
      * apply (Hfresh c'); [now right | exact H].
      * apply Hc. rewrite <- H. now apply in_map.
    + intros c' Hc'. rewrite Eh. apply Hinst. now right.
    + exists s'. unfold commits in *. simpl. unfold bind. rewrite R.
      split; [exact Rl|]. split; [congruence|]. split; [congruence|].
      split; [exact W'|]. split; [exact L'|].
      intros k Hk. destruct (Sub' k Hk) as [H | H].
      * destruct (Hsub _ H) as [H' | ->]; [now left | right; now left].
      * right. now right.
Qed.

(** C1.  With a capacity [N >= 1], on a store that is within its capacity
    (the empty store of a fresh instance is), every commit of every sequence
    of commits of distinct fresh keys completes, and after it the keys, and
    with them the live entries, are at most [N].  A commit on a store below
    capacity appends the key and evicts nothing.  A commit on a full store
    evicts exactly one entry, the one under the head of the recency order:
    the head leaves the keys, its entry becomes null, every other entry is
    as before. *)
Theorem cacheVNode_capacity (N : nat) (s : KA.t) (cs : list Commit.t)
  (c : Commit.t) :
  1 <= N ->
  parseInt (KA.max s) = Some (Z.of_nat N) ->
  wf_store (KA.cache s) (KA.keys s) ->
  length (KA.keys s) <= N ->
  NoDup (map Commit.key (cs ++ [c])) ->
  (forall c', In c' (cs ++ [c]) -> ~ In (Commit.key c') (KA.keys s)) ->
  (forall c', In c' (cs ++ [c]) ->
     VNode.componentInstance (KA.heap s (Commit.vnode c')) <> None) ->
  exists s1 s2,
    commits cs s = Ok tt s1 /\
    commit c s1 = Ok tt s2 /\
    commits (cs ++ [c]) s = Ok tt s2 /\
    length (KA.keys s1) <= N /\
    length (KA.keys s2) <= N /\
    live_count (KA.cache s2) = length (KA.keys s2) /\
    wf_store (KA.cache s2) (KA.keys s2) /\
    cache_get (KA.cache s2) (Commit.key c)
    = Some (entry_of s (Commit.vnode c)) /\
    (length (KA.keys s1) < N ->
     KA.keys s2 = KA.keys s1 ++ [Commit.key c] /\
     forall k, k <> Commit.key c ->
       cache_get (KA.cache s2) k = cache_get (KA.cache s1) k) /\
    (length (KA.keys s1) = N ->
     exists h rest,
       KA.keys s1 = h :: rest /\
       KA.keys s2 = rest ++ [Commit.key c] /\
       cache_get (KA.cache s1) h <> None /\
       cache_get (KA.cache s2) h = None /\
       forall k, k <> h -> k <> Commit.key c ->
         cache_get (KA.cache s2) k = cache_get (KA.cache s1) k).
Proof.
  intros HN Hmax Hwf Hlen ND Hfresh Hinst.
  rewrite map_app in ND. simpl in ND.
  pose proof (NoDup_remove_1 _ _ _ ND) as NDcs. rewrite app_nil_r in NDcs.
  pose proof (NoDup_remove_2 _ _ _ ND) as Hc. rewrite app_nil_r in Hc.
  destruct (commits_run N cs s HN Hmax Hwf Hlen NDcs)
    as (s1 & R1 & Em & Eh & W1 & L1 & Sub).
  { intros c' Hc'. apply Hfresh, in_or_app. now left. }
  { intros c' Hc'. apply Hinst, in_or_app. now left. }
  assert (Hfresh1 : ~ In (Commit.key c) (KA.keys s1)).
  { intros H. destruct (Sub _ H) as [H' | H']; [|contradiction].
    apply (Hfresh c); [|exact H']. apply in_or_app. right. now left. }
  destruct (commit_step N c s1 HN) as (s2 & R2 & _ & _ & W2 & D);
    try assumption.
  { congruence. }
  { rewrite Eh. apply Hinst, in_or_app. right. now left. }
  assert (Ee : entry_of s1 (Commit.vnode c) = entry_of s (Commit.vnode c))
    by (unfold entry_of; now rewrite Eh).
  rewrite Ee in D.
  exists s1, s2. split; [exact R1|]. split; [exact R2|].
  split.
  { unfold commits in *. rewrite (for_each_app _ _ _ _ _ R1). simpl.
    unfold bind. rewrite R2. reflexivity. }
  split; [exact L1|].
  destruct D as [(L & Ec & Ek & _)
                | (L & h & rest & eh & Ek0 & Gh & Ec & Ek & _)].
  - split; [rewrite Ek, length_app; simpl; lia|].
    split; [now apply live_count_keys|]. split; [exact W2|].
    split; [rewrite Ec; apply cache_get_set_eq|].
    split; [|lia]. intros _. split; [exact Ek|].
    intros k Hk. rewrite Ec. now apply cache_get_set_neq.
  - assert (Hhk : h <> Commit.key c).
    { intros ->. apply Hfresh1. rewrite Ek0. now left. }
    split; [rewrite Ek, length_app; rewrite Ek0 in L; simpl in *; lia|].
    split; [now apply live_count_keys|]. split; [exact W2|].
    split.
    { rewrite Ec, cache_get_set_neq by congruence. apply cache_get_set_eq. }
    split; [lia|]. intros _. exists h, rest.
    split; [exact Ek0|]. split; [exact Ek|]. split; [congruence|].
    split; [rewrite Ec; apply cache_get_set_eq|].
    intros k N1 N2. rewrite Ec, !cache_get_set_neq by assumption. reflexivity.
Qed.

Lemma wf_store_empty : wf_store [] [].
Proof.
  split.
  - constructor.
  - constructor.
  - intros k. simpl. split; [tauto | congruence].
  - intros k e. discriminate.
Qed.

Lemma created_wf (s : KA.t) :
  exists s',
    created s = Ok tt s' /\
    KA.cache s' = [] /\ KA.keys s' = [] /\
    wf_store (KA.cache s') (KA.keys s') /\
    KA.max s' = KA.max s /\ KA.heap s' = KA.heap s.
Proof.
  eexists. split; [reflexivity|]. simpl. repeat split; try apply wf_store_empty.
Qed.

Lemma cacheVNode_capacity_witness :
  exists s2,
    commits [Ex3.A; Ex3.B; Ex3.C] (Ex.fresh (MaxString "2")) = Ok tt s2 /\
    KA.keys s2 = ["B"; "C"] /\
    cache_get (KA.cache s2) "A" = None /\
    live_count (KA.cache s2) = 2.
Proof.
  destruct (cacheVNode_capacity 2 (Ex.fresh (MaxString "2"))
              [Ex3.A; Ex3.B] Ex3.C) as (s1 & s2 & R1 & R2 & R & _ & _ & Lc
                                        & _ & _ & _ & Ev).
  - lia.
  - reflexivity.
  - exact wf_store_empty.
  - simpl. lia.
  - simpl. repeat constructor; simpl; intuition discriminate.
  - intros c' _ [].
  - intros c' [<- | [<- | [<- | []]]]; discriminate.
  - assert (E1 : s1 = state_of (commits [Ex3.A; Ex3.B]
                                  (Ex.fresh (MaxString "2"))))
      by (rewrite R1; reflexivity).
    assert (K1 : KA.keys s1 = ["A"; "B"]) by (rewrite E1; reflexivity).
    destruct Ev as (h & rest & Ek1 & Ek2 & _ & G & _);
      [rewrite K1; reflexivity|].
    rewrite K1 in Ek1. injection Ek1 as <- <-.
    exists s2. split; [exact R|]. split; [exact Ek2|]. split; [exact G|].
    rewrite Lc, Ek2. reflexivity.
Defined.

(** The scenario of the spec: [max = 2], keys [A], [B], [C] committed in
    order, then [B] rendered again and [D] committed. *)
Example scenario_lru :
  let D := Commit.mk "D" 5 (Some 5) in
  let touch_B s :=
    KA.with_keys (remove (KA.keys s) "B" ++ ["B"]) s in
  KA.keys (state_of (commits [Ex3.A; Ex3.B; Ex3.C]
                       (Ex.fresh (MaxNumber 2)))) = ["B"; "C"] /\
  KA.keys (state_of
             (commit D
                (touch_B
                   (state_of (commits [Ex3.A; Ex3.B; Ex3.C]
                                (Ex.fresh (MaxNumber 2)))))))
  = ["B"; "D"].
Proof. split; reflexivity. Qed.

(** ** A [max] that is not a positive integer *)

(** With [max = "0"], which parses to the non-positive integer 0, the first
    commit on a fresh instance evicts: the key just committed is the head of
    the keys and is taken out again. *)
Lemma max_zero_evicts :
  non_positive (MaxString "0") /\
  ~ no_capacity_eviction (Ex3.staged (MaxString "0")) /\
  KA.keys (state_of (cacheVNode (Ex3.staged (MaxString "0")))) = [] /\
  cache_get (KA.cache (state_of (cacheVNode (Ex3.staged (MaxString "0")))))
    "A" = None.
Proof.
  split; [|split; [|split; reflexivity]].
  - exists 0%Z. split; [reflexivity | lia].
  - unfold no_capacity_eviction. intros H.
    apply (f_equal (fun o => KA.keys (state_of o))) in H.
    vm_compute in H. discriminate.
Qed.

(** C5, as the code has it.  A [max] that is falsy (absent, the number 0,
    the empty string) or that does not parse as an integer sets no limit: a
    commit inserts and evicts nothing.  A truthy [max] that parses to an
    integer that is not positive (["0"], ["-1"], the number -1) is applied as
    the bound it parses to: every commit goes on to evict the head of the
    keys. *)
Theorem cacheVNode_no_limit (s : KA.t) :
  (truthy_max (KA.max s) = false \/ unparsable (KA.max s) ->
   no_capacity_eviction s) /\
  (forall v,
     KA.vnodeToCache s = Some v ->
     truthy_max (KA.max s) = true ->
     non_positive (KA.max s) ->
     cacheVNode s =
     (pruneCacheEntry (first_key (KA.keys s ++ [KA.keyToCache s]))
        (KA._vnode s) ;;
      modify (KA.with_vnodeToCache None)) (inserted v s)).
Proof.
  split.
  - intros H. unfold no_capacity_eviction.
    destruct (KA.vnodeToCache s) as [v|] eqn:Hv.
    + rewrite (cacheVNode_run s v Hv).
      destruct H as [H | H]; [now rewrite H|].
      unfold unparsable in H. rewrite H. simpl. now rewrite andb_false_r.
    + unfold cacheVNode, committed, bind, get. now rewrite Hv.
  - intros v Hv Ht (n & Hn & Hle). rewrite (cacheVNode_run s v Hv), Ht, Hn.
    simpl. rewrite length_app. simpl.
    destruct (Z.ltb_spec n (Z.of_nat (length (KA.keys s) + 1)));
      [reflexivity | lia].
Qed.

Lemma cacheVNode_no_limit_witness :
  no_capacity_eviction (Ex3.staged (MaxString "many")) /\
  no_capacity_eviction (Ex3.staged (MaxNumber 0)) /\
  KA.keys (state_of (cacheVNode (Ex3.staged (MaxString "-1")))) = [].
Proof.
  split; [|split].
  - apply (cacheVNode_no_limit (Ex3.staged (MaxString "many"))).
    right. reflexivity.
  - apply (cacheVNode_no_limit (Ex3.staged (MaxNumber 0))).
    left. reflexivity.
  - destruct (cacheVNode_no_limit (Ex3.staged (MaxString "-1"))) as [_ H].
    rewrite (H 1 eq_refl eq_refl); [reflexivity|].
    exists (-1)%Z. split; [reflexivity | lia].
Defined.

(** ** Checks of the embedding on concrete inputs *)

Example parseInt_ex1 : parseInt (MaxString "10") = Some 10%Z.
Proof. reflexivity. Qed.
Example parseInt_ex2 : parseInt (MaxString " -3px") = Some (-3)%Z.
Proof. reflexivity. Qed.
Example parseInt_ex3 : parseInt (MaxString "abc") = None.
Proof. reflexivity. Qed.
Example parseInt_ex4 : parseInt (MaxNumber 0) = Some 0%Z.
Proof. reflexivity. Qed.
Example parseInt_ex5 : parseInt (MaxNumber (-12)) = Some (-12)%Z.
Proof. reflexivity. Qed.
Example parseInt_ex6 : parseInt (MaxString "0x1f") = Some 31%Z.
Proof. reflexivity. Qed.
Example split_ex1 : split_comma "a,b,,c" = ["a"; "b"; ""; "c"].
Proof. reflexivity. Qed.
Example split_ex2 : split_comma "" = [""].
Proof. reflexivity. Qed.
Example forin_ex1 :
  forin_keys [("b", None); ("10", None); ("a", None); ("2", None);
              ("01", None)]
  = ["2"; "10"; "b"; "a"; "01"].
Proof. reflexivity. Qed.
Example resolveKey_ex1 :
  resolveKey (VNode.mk None None None None None)
    (Opts.mk (Ctor.mk 7 None) None None) = "7".
Proof. reflexivity. Qed.
Example destroyed_ex1 :
  KA.destroy_log (state_of (destroyed Ex.store3)) = [101; 102; 103] /\
  KA.keys (state_of (destroyed Ex.store3)) = [] /\
  completes (destroyed Ex.store3) = true.
Proof. repeat split. Qed.
Example sweep_same_tag :
  let s := Ex.instance undefined_pattern (PRegExp (mkRegExp (String.eqb "foo")))
             MaxAbsent [("k", Ex.entry 1)] ["k"] (Some 1) in
  KA.destroy_log (state_of (watch_exclude (KA.exclude s) s)) = [] /\
  KA.keys (state_of (watch_exclude (KA.exclude s) s)) = [] /\
  cache_get (KA.cache (state_of (watch_exclude (KA.exclude s) s))) "k" = None.
Proof. repeat split. Qed.

(** * Further properties *)

(** ** Evictions only shrink the store *)

Lemma remove_length_le (l : list string) k : length (remove l k) <= length l.
Proof.
  induction l as [|y l IH]; simpl; [lia|].
  destruct (y =? k); simpl; lia.
Qed.

Lemma remove_length_In (l : list string) k :
  In k l -> S (length (remove l k)) = length l.
Proof.
  induction l as [|y l IH]; simpl; [tauto|].
  intros H. destruct (y =? k) eqn:E; [reflexivity|].
  simpl. f_equal. apply IH. destruct H as [H | H]; [|exact H].
  apply String.eqb_neq in E. contradiction.
Qed.

Lemma names_set_NoDup (c : CacheEntryMap) k v :
  NoDup (map fst c) -> NoDup (map fst (cache_set c k v)).
Proof.
  intros Hn. destruct (in_dec string_dec k (map fst c)) as [H | H].
  - now rewrite names_set_In.
  - rewrite names_set_fresh by exact H. apply NoDup_app; [exact Hn| |].
    + repeat constructor. intros [].
    + intros x Hx [<- | []]. contradiction.
Qed.

Lemma lockstep_evict c keys k :
  lockstep c keys -> lockstep (cache_set c k None) (remove keys k).
Proof.
  intros [Hn Hk Hl]. split.
  - now apply names_set_NoDup.
  - now apply remove_NoDup.
  - intros x. destruct (String.eqb_spec x k) as [-> | N].
    + rewrite cache_get_set_eq. split; [|congruence].
      intros H. apply remove_In in H; [tauto | exact Hk].
    + rewrite cache_get_set_neq, remove_other by exact N. apply Hl.
Qed.

Lemma lockstep_insert c keys k e :
  lockstep c keys -> ~ In k keys ->
  lockstep (cache_set c k (Some e)) (keys ++ [k]).
Proof.
  intros [Hn Hk Hl] Hfresh. split.
  - now apply names_set_NoDup.
  - apply NoDup_app; [exact Hk | repeat constructor; intros [] |].
    intros x Hx [<- | []]. contradiction.
  - intros x. rewrite in_app_iff. destruct (String.eqb_spec x k) as [-> | N].
    + rewrite cache_get_set_eq. split; [discriminate|]. intros _. right.
      now left.
    + rewrite cache_get_set_neq by exact N. rewrite <- Hl. simpl.
      intuition congruence.
Qed.

Lemma lockstep_touch c keys k :
  lockstep c keys -> cache_get c k <> None ->
  lockstep c (remove keys k ++ [k]).
Proof.
  intros [Hn Hk Hl] Hlive. split; [exact Hn | now apply remove_app_NoDup|].
  intros x. rewrite <- Hl. split; apply Permutation_in.
  - apply remove_app_perm. now apply Hl.
  - apply Permutation_sym, remove_app_perm. now apply Hl.
Qed.

Lemma wf_store_lockstep c keys : wf_store c keys -> lockstep c keys.
Proof. intros [Hn Hk Hl _]. now split. Qed.

Lemma shrinks_refl s : shrinks s s.
Proof. split; auto. Qed.

Lemma shrinks_trans a b c : shrinks a b -> shrinks b c -> shrinks a c.
Proof.
  intros [F1 L1 K1 N1 C1] [F2 L2 K2 N2 C2]. split; auto.
  - congruence.
  - lia.
Qed.

Lemma shrinks_evicted key s s0 :
  frame s0 = frame s -> KA.cache s0 = KA.cache s -> KA.keys s0 = KA.keys s ->
  shrinks s (evicted key s0).
Proof.
  intros F Ec Ek. split; simpl; rewrite ?Ec, ?Ek.
  - exact F.
  - apply lockstep_evict.
  - intros k. apply remove_incl.
  - apply remove_length_le.
  - intros k G. destruct (String.eqb_spec k key) as [-> | N].
    + apply cache_get_set_eq.
    + now rewrite cache_get_set_neq.
Qed.

Lemma shrinks_pruneCacheEntry key current s :
  shrinks s (state_of (pruneCacheEntry key current s)).
Proof.
  rewrite pruneCacheEntry_run.
  destruct (cache_get (KA.cache s) key) as [e|].
  - destruct (match current with None => true | Some c => _ end).
    + destruct (CacheEntry.componentInstance e) as [i|]; simpl state_of.
      * now apply shrinks_evicted.
      * apply shrinks_refl.
    + now apply shrinks_evicted.
  - now apply shrinks_evicted.
Qed.

(** A loop keeps what each turn keeps, also when a turn throws. *)
Lemma for_each_state {A} (R : KA.t -> KA.t -> Prop) (body : A -> M unit)
  (l : list A) :
  (forall s, R s s) ->
  (forall a b c, R a b -> R b c -> R a c) ->
  (forall x s, R s (state_of (body x s))) ->
  forall s, R s (state_of (for_each l body s)).
Proof.
  intros Rr Rt Hb. induction l as [|x l IH]; intros s; simpl.
  - apply Rr.
  - unfold bind. pose proof (Hb x s) as H.
    destruct (body x s) as [[] s1 | e s1]; simpl in *.
    + eapply Rt; [exact H | apply IH].
    + exact H.
Qed.

Lemma shrinks_sweep_body keep cur key s :
  shrinks s (state_of (sweep_body keep cur key s)).
Proof.
  unfold sweep_body, bind, get.
  destruct (cache_get (KA.cache s) key) as [e|]; [|apply shrinks_refl].
  destruct (truthy (CacheEntry.name e)
            && negb (keep (str (CacheEntry.name e))));
    [apply shrinks_pruneCacheEntry | apply shrinks_refl].
Qed.

Lemma shrinks_same s s1 s2 :
  shrinks s s1 ->
  KA.cache s2 = KA.cache s1 -> KA.keys s2 = KA.keys s1 ->
  frame s2 = frame s1 ->
  shrinks s s2.
Proof.
  intros [F L K N C] Ec Ek Ef. split; rewrite ?Ec, ?Ek; auto. congruence.
Qed.

Lemma shrinks_pruneCache keep s :
  shrinks s (state_of (pruneCache keep s)).
Proof.
  unfold pruneCache, bind at 1, get at 1. unfold bind at 1.
  change (for_each (forin_keys (KA.cache s)) _ s)
    with (for_each (forin_keys (KA.cache s))
            (sweep_body keep (KA._vnode s)) s).
  pose proof (for_each_state shrinks (sweep_body keep (KA._vnode s))
                (forin_keys (KA.cache s)) shrinks_refl shrinks_trans
                (shrinks_sweep_body keep (KA._vnode s)) s) as H.
  destruct (for_each _ _ s) as [[] s1 | e s1]; simpl in H; [|exact H].
  unfold bind, get, modify, throw.
  destruct (VNode.componentOptions (KA.heap s1 (KA.parent_vnode s)));
    simpl; eapply shrinks_same; try exact H; reflexivity.
Qed.

Lemma shrinks_destroyed s : shrinks s (state_of (destroyed s)).
Proof.
  unfold destroyed, bind, get.
  apply (for_each_state shrinks (fun key => pruneCacheEntry key None)
           (forin_keys (KA.cache s)) shrinks_refl shrinks_trans).
  intros x s0. apply shrinks_pruneCacheEntry.
Qed.

Lemma shrinks_store_inv s s' : shrinks s s' -> store_inv s -> store_inv s'.
Proof.
  intros [F L K N C] [Hl Hs]. split; [now apply L|].
  unfold staged_fresh in *. unfold frame in F.
  injection F as Ev Ek _ _ _ _ _. rewrite Ev, Ek.
  intros Hv Hin. apply (Hs Hv). now apply K.
Qed.

(** ** What a render pass is *)

(** An eligible pass, as one equation. *)
Lemma render_run (slot : option (list ref)) (v : ref) (co : Opts.t)
  (s : KA.t) :
  VNode.componentOptions (KA.heap s v) = Some co ->
  filtered_out (KA.include s) (KA.exclude s) (_getComponentName (Some co))
  = false ->
  render slot (Some v) s =
  let s1 := looked_up (resolveKey (KA.heap s v) co) v s in
  match VNode.data (KA.heap s1 v) with
  | Some _ => Ok (Some v) (marked v s1)
  | None => Throw TypeError s1
  end.
Proof.
  intros Hco F. unfold render, bind at 1, get at 1. rewrite Hco, F.
  unfold looked_up, served, stage, marked, bind_instance, mark_keepAlive.
  destruct (cache_get (KA.cache s) (resolveKey (KA.heap s v) co)) as [e|].
  - unfold set_componentInstance, set_keepAlive, modify, bind, get, ret,
      throw. simpl. rewrite !heap_set_same. simpl.
    destruct (VNode.data (KA.heap s v)); reflexivity.
  - unfold set_keepAlive, modify, bind, get, ret, throw. simpl.
    destruct (VNode.data (KA.heap s v)); reflexivity.
Qed.

(** A pass that is not eligible, or has no component child, changes
    nothing. *)
Lemma render_skip (slot : option (list ref)) (vnode : option ref) (s : KA.t) :
  match vnode with
  | Some v =>
      match VNode.componentOptions (KA.heap s v) with
      | Some co =>
          filtered_out (KA.include s) (KA.exclude s)
            (_getComponentName (Some co)) = true
      | None => True
      end
  | None => True
  end ->
  state_of (render slot vnode s) = s /\ completes (render slot vnode s) = true.
Proof.
  unfold render, bind, get. destruct vnode as [v|]; [|now split].
  destruct (VNode.componentOptions (KA.heap s v)) as [co|]; [|now split].
  intros ->. now split.
Qed.

Lemma lockstep_looked_up key v s :
  store_inv s -> store_inv (looked_up key v s).
Proof.
  intros [Hl Hs]. unfold looked_up.
  destruct (cache_get (KA.cache s) key) as [e|] eqn:G.
  - split; simpl.
    + apply lockstep_touch; [exact Hl | congruence].
    + unfold staged_fresh in *. simpl. intros Hv Hin. apply (Hs Hv).
      eapply Permutation_in; [|exact Hin]. apply remove_app_perm.
      apply (ls_live _ _ Hl). congruence.
  - split; simpl; [exact Hl|].
    unfold staged_fresh. simpl. intros _ Hin.
    apply (ls_live _ _ Hl) in Hin. contradiction.
Qed.

Lemma looked_up_length key v s :
  lockstep (KA.cache s) (KA.keys s) ->
  length (KA.keys (looked_up key v s)) = length (KA.keys s) /\
  KA.max (looked_up key v s) = KA.max s.
Proof.
  intros Hl. unfold looked_up.
  destruct (cache_get (KA.cache s) key) as [e|] eqn:G; simpl;
    [|split; reflexivity].
  split; [|reflexivity]. rewrite length_app. simpl.
  assert (Hin : In key (KA.keys s)) by (apply (ls_live _ _ Hl); congruence).
  pose proof (remove_length_In _ _ Hin). lia.
Qed.

(** A render pass keeps the invariant, also when the marking throws. *)
Lemma render_inv (slot : option (list ref)) (vnode : option ref) (s : KA.t) :
  store_inv s ->
  store_inv (state_of (render slot vnode s)) /\
  length (KA.keys (state_of (render slot vnode s))) = length (KA.keys s) /\
  KA.max (state_of (render slot vnode s)) = KA.max s.
Proof.
  intros Hinv.
  assert (Skip : state_of (render slot vnode s) = s ->
                 store_inv (state_of (render slot vnode s)) /\
                 length (KA.keys (state_of (render slot vnode s)))
                 = length (KA.keys s) /\
                 KA.max (state_of (render slot vnode s)) = KA.max s).
  { intros ->. auto. }
  destruct vnode as [v|]; [|apply Skip, render_skip; exact I].
  destruct (VNode.componentOptions (KA.heap s v)) as [co|] eqn:Hco.
  2:{ apply Skip, render_skip. now rewrite Hco. }
  destruct (filtered_out (KA.include s) (KA.exclude s)
              (_getComponentName (Some co))) eqn:F.
  { apply Skip, render_skip. now rewrite Hco. }
  rewrite (render_run slot v co s Hco F). cbv zeta.
  pose proof (lockstep_looked_up (resolveKey (KA.heap s v) co) v s Hinv)
    as H1.
  pose proof (looked_up_length (resolveKey (KA.heap s v) co) v s (proj1 Hinv))
    as [H2 H3].
  destruct (VNode.data _); simpl; auto.
Qed.

(** ** What a commit keeps *)

Lemma pruneCacheEntry_keys key current s s' :
  pruneCacheEntry key current s = Ok tt s' ->
  KA.keys s' = remove (KA.keys s) key /\
  KA.cache s' = cache_set (KA.cache s) key None.
Proof.
  rewrite pruneCacheEntry_run.
  destruct (cache_get (KA.cache s) key) as [e|].
  - destruct (match current with None => true | Some c => _ end).
    + destruct (CacheEntry.componentInstance e); [|discriminate].
      intros [= <-]. now split.
    + intros [= <-]. now split.
  - intros [= <-]. now split.
Qed.

Lemma first_key_In (l : list string) k : In (first_key (l ++ [k])) (l ++ [k]).
Proof. destruct l; simpl; now left. Qed.

Lemma cacheVNode_inv (s : KA.t) :
  store_inv s ->
  lockstep (KA.cache (state_of (cacheVNode s)))
    (KA.keys (state_of (cacheVNode s))) /\
  (completes (cacheVNode s) = true ->
   KA.vnodeToCache (state_of (cacheVNode s)) = None) /\
  KA.max (state_of (cacheVNode s)) = KA.max s /\
  (forall N,
     1 <= N -> parseInt (KA.max s) = Some (Z.of_nat N) ->
     length (KA.keys s) <= N ->
     completes (cacheVNode s) = true ->
     length (KA.keys (state_of (cacheVNode s))) <= N).
Proof.
  intros [Hl Hs]. destruct (KA.vnodeToCache s) as [v|] eqn:Hv.
  2:{ assert (E : cacheVNode s = Ok tt s)
        by (unfold cacheVNode, bind, get; now rewrite Hv).
      rewrite E. simpl. auto. }
  assert (Hfresh : ~ In (KA.keyToCache s) (KA.keys s))
    by (apply Hs; congruence).
  pose proof (lockstep_insert _ _ (KA.keyToCache s) (entry_of s v) Hl Hfresh)
    as Hli.
  rewrite (cacheVNode_run s v Hv).
  destruct (truthy_max (KA.max s)
            && gt_parsed (length (KA.keys s ++ [KA.keyToCache s]))
                 (parseInt (KA.max s))) eqn:Cond.
  - unfold bind.
    pose proof (shrinks_pruneCacheEntry
                  (first_key (KA.keys s ++ [KA.keyToCache s])) (KA._vnode s)
                  (inserted v s)) as Sh.
    destruct (pruneCacheEntry _ _ (inserted v s)) as [[] s2 | e s2] eqn:R;
      simpl in *.
    + destruct Sh as [F L K N C]. unfold frame in F.
      injection F as _ _ Em _ _ _ _. simpl in Em.
      split; [now apply L|]. split; [reflexivity|]. split; [exact Em|].
      intros n Hn Hp Hlen _.
      apply pruneCacheEntry_keys in R. destruct R as [Ek _]. rewrite Ek.
      simpl. pose proof (remove_length_In _ _
                           (first_key_In (KA.keys s) (KA.keyToCache s))) as E.
      rewrite length_app in E. simpl in E. lia.
    + destruct Sh as [F L K N C]. unfold frame in F.
      injection F as _ _ Em _ _ _ _. simpl in Em.
      split; [now apply L|]. split; [discriminate|]. split; [exact Em|].
      discriminate.
  - unfold committed. rewrite Hv. simpl.
    split; [exact Hli|]. split; [reflexivity|]. split; [reflexivity|].
    intros n Hn Hp Hlen _. rewrite length_app. simpl.
    rewrite Hp, (parseInt_nonzero_truthy _ _ Hp) in Cond by lia.
    simpl in Cond. rewrite length_app in Cond. simpl in Cond.
    apply Z.ltb_ge in Cond. lia.
Qed.

(** ** The invariant along the life of an instance *)

Lemma bind_ret_state {A} (m : M A) (s : KA.t) :
  state_of ((m ;; ret tt) s) = state_of (m s) /\
  completes ((m ;; ret tt) s) = completes (m s).
Proof. unfold bind, ret. destruct (m s); now split. Qed.

Lemma live_count_lockstep c keys :
  lockstep c keys -> live_count c = length keys.
Proof.
  intros [Hn Hk Hl]. unfold live_count. apply Permutation_length.
  apply NoDup_Permutation; [now apply filter_NoDup | exact Hk |].
  intros x. rewrite filter_In, Hl. unfold is_live. split.
  - intros [_ H]. destruct (cache_get c x); discriminate.
  - intros H. destruct (cache_get c x) as [e|] eqn:G; [|congruence].
    split; [|reflexivity]. eapply cache_get_In. exact G.
Qed.

Lemma shrinks_step s s' :
  shrinks s s' -> store_inv s ->
  lockstep (KA.cache s') (KA.keys s') /\
  store_inv s' /\
  KA.max s' = KA.max s /\
  length (KA.keys s') <= length (KA.keys s).
Proof.
  intros Sh Hinv. pose proof (shrinks_store_inv _ _ Sh Hinv) as H.
  destruct Sh as [F L K N C]. unfold frame in F.
  injection F as _ _ Em _ _ _ _.
  split; [exact (proj1 H)|]. split; [exact H|]. split; [exact Em | exact N].
Qed.

(** One operation. *)
Lemma run_op_step (op : Op) (s : KA.t) :
  store_inv s ->
  lockstep (KA.cache (state_of (run_op op s)))
    (KA.keys (state_of (run_op op s))) /\
  (completes (run_op op s) = true -> store_inv (state_of (run_op op s))) /\
  (keeps_max op = true -> KA.max (state_of (run_op op s)) = KA.max s) /\
  (forall N,
     keeps_max op = true -> 1 <= N ->
     parseInt (KA.max s) = Some (Z.of_nat N) ->
     length (KA.keys s) <= N ->
     completes (run_op op s) = true ->
     length (KA.keys (state_of (run_op op s))) <= N).
Proof.
  intros Hinv. destruct op as [slot vnode | | val | val | | h cur | m];
    unfold run_op.
  - destruct (bind_ret_state (render slot vnode) s) as [-> ->].
    destruct (render_inv slot vnode s Hinv) as (A & B & C).
    split; [exact (proj1 A)|]. split; [auto|]. split; [auto|].
    intros N _ _ _ Hlen _. lia.
  - unfold updated.
    destruct (cacheVNode_inv s Hinv) as (A & B & C & D).
    split; [exact A|]. split.
    + intros Hc. split; [exact A|]. unfold staged_fresh.
      rewrite (B Hc). congruence.
    + split; [auto|]. intros N _. apply D.
  - change ((modify (set_include val) ;; watch_include val) s)
      with (pruneCache (fun name => matches val name) (set_include val s)).
    destruct (shrinks_step _ _
                (shrinks_pruneCache (fun name => matches val name)
                   (set_include val s)) Hinv) as (A & B & C & D).
    split; [exact A|]. split; [auto|]. split; [auto|].
    intros N _ _ _ Hlen _. simpl in D. lia.
  - change ((modify (set_exclude val) ;; watch_exclude val) s)
      with (pruneCache (fun name => negb (matches val name))
              (set_exclude val s)).
    destruct (shrinks_step _ _
                (shrinks_pruneCache (fun name => negb (matches val name))
                   (set_exclude val s)) Hinv) as (A & B & C & D).
    split; [exact A|]. split; [auto|]. split; [auto|].
    intros N _ _ _ Hlen _. simpl in D. lia.
  - destruct (shrinks_step _ _ (shrinks_destroyed s) Hinv) as (A & B & C & D).
    split; [exact A|]. split; [auto|]. split; [auto|].
    intros N _ _ _ Hlen _. lia.
  - simpl. split; [exact (proj1 Hinv)|]. split; [intros _; exact Hinv|].
    split; [reflexivity|]. auto.
  - simpl. split; [exact (proj1 Hinv)|]. split; [intros _; exact Hinv|].
    split; [discriminate|]. discriminate.
Qed.

Lemma run_cons (op : Op) (ops : list Op) (s : KA.t) :
  run (op :: ops) s =
  match run_op op s with
  | Ok _ s1 => run ops s1
  | Throw e s1 => Throw e s1
  end.
Proof. reflexivity. Qed.

(** X1.  Along any sequence of render passes, commits, filter changes,
    teardown, patches and changes of [max], from a state where the cache and
    the keys are in lock-step and the staged key is not live, the cache and
    the keys stay in lock-step, also in the state an exception leaves; when
    the sequence completes, the staged key is again not live. *)
Theorem store_invariant (ops : list Op) (s : KA.t) :
  store_inv s ->
  lockstep (KA.cache (state_of (run ops s))) (KA.keys (state_of (run ops s)))
  /\ (completes (run ops s) = true -> store_inv (state_of (run ops s))).
Proof.
  revert s. induction ops as [|op ops IH]; intros s Hinv.
  - simpl. split; [exact (proj1 Hinv) | intros _; exact Hinv].
  - rewrite run_cons. destruct (run_op_step op s Hinv) as (A & B & _).
    destruct (run_op op s) as [[] s1 | e s1]; simpl in *.
    + apply IH, B. reflexivity.
    + split; [exact A | discriminate].
Qed.

Lemma store_inv_fresh (max : MaxProp) : store_inv (Ex.fresh max).
Proof.
  split.
  - split; simpl; [constructor | constructor |].
    intros k. split; [tauto | congruence].
  - intros H. now contradiction H.
Qed.

Lemma store_invariant_witness :
  lockstep (KA.cache (state_of (run Ex4.session (Ex.fresh (MaxString "2")))))
    (KA.keys (state_of (run Ex4.session (Ex.fresh (MaxString "2"))))) /\
  KA.keys (state_of (run Ex4.session (Ex.fresh (MaxString "2"))))
  = ["3::baz"].
Proof.
  split; [|reflexivity].
  destruct (store_invariant Ex4.session (Ex.fresh (MaxString "2"))
              (store_inv_fresh (MaxString "2"))) as [A _].
  exact A.
Defined.

(** X2.  With a capacity [N >= 1], along any sequence of render passes,
    commits, filter changes, teardown and patches that completes and does
    not change [max], from a store within capacity, the keys and the live
    entries stay at most [N]: repeated renders of cached keys and sweeps in
    between commits never let the cache outgrow the bound. *)
Theorem capacity_invariant (N : nat) (ops : list Op) (s : KA.t) :
  1 <= N ->
  parseInt (KA.max s) = Some (Z.of_nat N) ->
  store_inv s ->
  length (KA.keys s) <= N ->
  forallb keeps_max ops = true ->
  completes (run ops s) = true ->
  length (KA.keys (state_of (run ops s))) <= N /\
  live_count (KA.cache (state_of (run ops s))) <= N.
Proof.
  intros HN. revert s.
  induction ops as [|op ops IH]; intros s Hmax Hinv Hlen Hk Hc.
  - simpl. split; [exact Hlen|].
    now rewrite (live_count_lockstep _ _ (proj1 Hinv)).
  - simpl in Hk. apply andb_true_iff in Hk as [Hk1 Hk2].
    rewrite run_cons in *.
    destruct (run_op_step op s Hinv) as (_ & B & C & D).
    specialize (C Hk1). specialize (D N Hk1 HN Hmax Hlen).
    destruct (run_op op s) as [[] s1 | e s1]; simpl in *; [|discriminate].
    apply IH; auto. congruence.
Qed.

Lemma capacity_invariant_witness :
  length (KA.keys (state_of (run Ex4.session (Ex.fresh (MaxString "2")))))
  <= 2 /\
  live_count (KA.cache (state_of (run Ex4.session (Ex.fresh (MaxString "2")))))
  <= 2.
Proof.
  apply (capacity_invariant 2 Ex4.session (Ex.fresh (MaxString "2")));
    try reflexivity.
  - lia.
  - apply store_inv_fresh.
  - simpl. lia.
Defined.

(** ** A commit on any state with a staged node *)

Lemma cacheVNode_staged (s : KA.t) (v : ref) :
  KA.vnodeToCache s = Some v ->
  wf_store (KA.cache s) (KA.keys s) ->
  ~ In (KA.keyToCache s) (KA.keys s) ->
  VNode.componentInstance (KA.heap s v) <> None ->
  ~ (truthy_max (KA.max s) = true /\ non_positive (KA.max s)) ->
  (over_capacity s = false /\ cacheVNode s = Ok tt (committed s)) \/
  (over_capacity s = true /\
   exists h rest eh,
     KA.keys s = h :: rest /\
     h <> KA.keyToCache s /\
     cache_get (KA.cache s) h = Some eh /\
     CacheEntry.componentInstance eh <> None /\
     cacheVNode s = Ok tt (committed_evicting h eh v s)).
Proof.
  intros Hv Hwf Hfresh Hinst Hpos.
  rewrite (cacheVNode_run s v Hv). unfold over_capacity.
  rewrite length_app. simpl length.
  destruct (truthy_max (KA.max s)) eqn:T; [|left; now split].
  destruct (parseInt (KA.max s)) as [n|] eqn:P; [|left; now split].
  simpl. destruct (Z.ltb_spec n (Z.of_nat (length (KA.keys s) + 1)))
    as [Hlt | Hge]; [|left; now split].
  right. split; [reflexivity|].
  assert (Hn : (0 < n)%Z).
  { destruct (Z.ltb_spec 0 n) as [H | H]; [exact H|].
    exfalso. apply Hpos. split; [reflexivity|]. exists n. now split. }
  destruct (KA.keys s) as [|h rest] eqn:Ek; [simpl in Hlt; lia|].
  assert (Hhk : h <> KA.keyToCache s)
    by (intros E; apply Hfresh; left; exact E).
  destruct (cache_get (KA.cache s) h) as [eh|] eqn:Gh.
  2:{ exfalso. apply (proj1 (wf_lockstep _ _ Hwf h)); [now left | exact Gh]. }
  destruct (CacheEntry.componentInstance eh) as [i|] eqn:Ei.
  2:{ exfalso. now apply (wf_instances _ _ Hwf h eh). }
  exists h, rest, eh. split; [reflexivity|]. split; [exact Hhk|].
  split; [exact Gh|]. split; [congruence|].
  unfold bind. rewrite pruneCacheEntry_run. simpl.
  rewrite cache_get_set_neq, Gh by exact Hhk.
  unfold committed_evicting. rewrite Ei.
  fold (guard (KA.heap s) eh (KA._vnode s)).
  destruct (guard (KA.heap s) eh (KA._vnode s));
    unfold evicted, inserted, logged, modify; simpl;
    rewrite ?Ek, ?Ei; simpl; rewrite ?String.eqb_refl; reflexivity.
Qed.

(** ** From a miss to a hit *)

Lemma not_ineligible_filtered include exclude name :
  ~ ineligible include exclude name ->
  filtered_out include exclude name = false.
Proof.
  intros H. destruct (filtered_out include exclude name) eqn:F;
    [|reflexivity].
  exfalso. now apply H, filtered_out_ineligible.
Qed.

Lemma served_node key v e s :
  KA.heap (served key v e s) v
  = bind_instance (KA.heap s v) (CacheEntry.componentInstance e).
Proof. unfold served. simpl. apply heap_set_same. Qed.

Lemma committed_lookup (s : KA.t) (v : ref) :
  KA.vnodeToCache s = Some v ->
  cache_get (KA.cache (committed s)) (KA.keyToCache s) = Some (entry_of s v)
  /\ KA.keys (committed s) = KA.keys s ++ [KA.keyToCache s].
Proof.
  intros Hv. unfold committed. rewrite Hv. simpl.
  split; [apply cache_get_set_eq | reflexivity].
Qed.

Lemma committed_evicting_lookup (h : string) (eh : CacheEntry.t) (v : ref)
  (s : KA.t) :
  h <> KA.keyToCache s ->
  cache_get (KA.cache (committed_evicting h eh v s)) (KA.keyToCache s)
  = Some (entry_of s v) /\
  KA.keys (committed_evicting h eh v s)
  = remove (KA.keys s ++ [KA.keyToCache s]) h.
Proof.
  intros N. unfold committed_evicting.
  destruct (CacheEntry.componentInstance eh);
    [destruct (guard (KA.heap s) eh (KA._vnode s))|]; simpl;
    (rewrite cache_get_set_neq by congruence;
     split; [apply cache_get_set_eq | reflexivity]).
Qed.

(** X3.  From a miss to a hit.  A component child that passes the filter
    and whose key is not cached is rendered; the patch makes the node real;
    the commit caches it.  When a later pass renders a node that resolves to
    the same key and passes the filter, that node goes out with the very
    instance handle the patch gave the first node, and the key is the most
    recently used.  This holds with no limit and with any capacity of at
    least 1, whatever the commit had to evict. *)
Theorem render_commit_render (slot slot' : option (list ref)) (v v' : ref)
  (co co' : Opts.t) (h h' : ref -> VNode.t) (cur cur' : option ref)
  (s : KA.t) :
  wf_store (KA.cache s) (KA.keys s) ->
  ~ (truthy_max (KA.max s) = true /\ non_positive (KA.max s)) ->
  VNode.componentOptions (KA.heap s v) = Some co ->
  ~ ineligible (KA.include s) (KA.exclude s) (_getComponentName (Some co)) ->
  cache_get (KA.cache s) (resolveKey (KA.heap s v) co) = None ->
  VNode.data (KA.heap s v) <> None ->
  VNode.componentInstance (h v) <> None ->
  VNode.componentOptions (h' v') = Some co' ->
  ~ ineligible (KA.include s) (KA.exclude s) (_getComponentName (Some co')) ->
  resolveKey (h' v') co' = resolveKey (KA.heap s v) co ->
  let o :=
    run [OpRender slot (Some v); OpPatch h cur; OpCommit; OpPatch h' cur';
         OpRender slot' (Some v')] s in
  VNode.componentInstance (KA.heap (state_of o) v')
  = VNode.componentInstance (h v) /\
  last (KA.keys (state_of o)) "" = resolveKey (KA.heap s v) co /\
  KA.vnodeToCache (state_of o) = None /\
  (VNode.data (h' v') <> None -> completes o = true).
Proof.
  intros Hwf Hmax Hco Hel Hmiss Hdata Hinst Hco' Hel' Hkey.
  apply not_ineligible_filtered in Hel, Hel'.
  set (key := resolveKey (KA.heap s v) co) in *.
  set (s2 := KA.with__vnode cur (KA.with_heap h (marked v (stage key v s)))).
  assert (Hfresh : ~ In key (KA.keys s)).
  { intros Hin. apply (wf_lockstep _ _ Hwf) in Hin. contradiction. }
  assert (Hlook : exists s3,
    cacheVNode s2 = Ok tt s3 /\
    cache_get (KA.cache s3) key = Some (entry_of s2 v) /\
    KA.include s3 = KA.include s /\ KA.exclude s3 = KA.exclude s /\
    KA.vnodeToCache s3 = None).
  { destruct (cacheVNode_staged s2 v eq_refl Hwf Hfresh Hinst Hmax)
      as [[_ E] | (_ & h0 & rest & eh & Ek & Hh & _ & _ & E)].
    - exists (committed s2). split; [exact E|].
      split; [apply (committed_lookup s2 v eq_refl)|]. repeat split.
    - exists (committed_evicting h0 eh v s2). split; [exact E|].
      split; [apply (committed_evicting_lookup h0 eh v s2 Hh)|].
      unfold committed_evicting.
      destruct (CacheEntry.componentInstance eh);
        [destruct (guard (KA.heap s2) eh (KA._vnode s2))|]; repeat split. }
  destruct Hlook as (s3 & E3 & G3 & Ei3 & Ee3 & Ev3).
  set (s4 := KA.with__vnode cur' (KA.with_heap h' s3)).
  assert (Hrun :
    run [OpRender slot (Some v); OpPatch h cur; OpCommit; OpPatch h' cur';
         OpRender slot' (Some v')] s =
    match VNode.data (h' v') with
    | Some _ => Ok tt (marked v' (served key v' (entry_of s2 v) s4))
    | None => Throw TypeError (served key v' (entry_of s2 v) s4)
    end).
  { (* the first pass stages the node *)
    rewrite run_cons. unfold run_op at 1. unfold bind at 1.
    rewrite (render_run slot v co s Hco Hel). cbv zeta. fold key.
    unfold looked_up. rewrite Hmiss.
    change (VNode.data (KA.heap (stage key v s) v))
      with (VNode.data (KA.heap s v)).
    destruct (VNode.data (KA.heap s v)) as [d|] eqn:Hd; [|congruence].
    cbv beta iota. unfold ret at 1. cbv beta iota.
    (* the patch, then the commit *)
    rewrite run_cons. unfold run_op at 1.
    change ((modify (KA.with_heap h) ;; modify (KA.with__vnode cur))
              (marked v (stage key v s))) with (Ok tt s2).
    cbv beta iota.
    rewrite run_cons. unfold run_op at 1, updated. rewrite E3.
    cbv beta iota.
    (* the second patch, then the second pass *)
    rewrite run_cons. unfold run_op at 1.
    change ((modify (KA.with_heap h') ;; modify (KA.with__vnode cur')) s3)
      with (Ok tt s4).
    cbv beta iota.
    rewrite run_cons. unfold run_op at 1. unfold bind at 1.
    assert (Hel4 : filtered_out (KA.include s4) (KA.exclude s4)
                     (_getComponentName (Some co')) = false).
    { simpl. now rewrite Ei3, Ee3. }
    rewrite (render_run slot' v' co' s4 Hco' Hel4). cbv zeta.
    change (KA.heap s4 v') with (h' v'). rewrite Hkey.
    unfold looked_up. change (KA.cache s4) with (KA.cache s3). rewrite G3.
    rewrite served_node. simpl VNode.data.
    change (KA.heap s4 v') with (h' v').
    destruct (VNode.data (h' v')); reflexivity. }
  cbv zeta. rewrite Hrun.
  assert (Hserved :
    VNode.componentInstance (KA.heap (served key v' (entry_of s2 v) s4) v')
    = VNode.componentInstance (h v) /\
    last (KA.keys (served key v' (entry_of s2 v) s4)) "" = key /\
    KA.vnodeToCache (served key v' (entry_of s2 v) s4) = None).
  { unfold served. simpl. rewrite heap_set_same. simpl.
    split; [reflexivity|]. split; [apply last_last | exact Ev3]. }
  destruct Hserved as (A & B & C).
  destruct (VNode.data (h' v')) as [d'|]; simpl.
  - rewrite heap_set_same. simpl.
    split; [exact A|]. split; [exact B|]. split; [exact C | reflexivity].
  - split; [exact A|]. split; [exact B|]. split; [exact C | congruence].
Qed.

Lemma not_non_positive_2 :
  ~ (truthy_max (MaxString "2") = true /\ non_positive (MaxString "2")).
Proof.
  intros [_ (n & Hn & Hle)]. vm_compute in Hn. injection Hn as <-. lia.
Qed.

Lemma eligible_unfiltered name :
  ~ ineligible undefined_pattern undefined_pattern name.
Proof. intros [[H _] | [H _]]; discriminate. Qed.

Lemma render_commit_render_witness :
  let o :=
    run [OpRender None (Some 1); OpPatch Ex.heap None; OpCommit;
         OpPatch Ex.heap (Some 1); OpRender None (Some 1)]
      (Ex.fresh (MaxString "2")) in
  VNode.componentInstance (KA.heap (state_of o) 1) = Some 101 /\
  last (KA.keys (state_of o)) "" = "1::foo".
Proof.
  destruct (render_commit_render None None 1 1 (Ex.opts 1 "foo" "foo")
              (Ex.opts 1 "foo" "foo") Ex.heap Ex.heap None (Some 1)
              (Ex.fresh (MaxString "2")))
    as (A & B & _); try reflexivity; try discriminate.
  - exact wf_store_empty.
  - exact not_non_positive_2.
  - apply eligible_unfiltered.
  - apply eligible_unfiltered.
  - split; [exact A | exact B].
Defined.

(** ** Commits compose *)

Lemma cacheVNode_clears (s s1 : KA.t) :
  cacheVNode s = Ok tt s1 -> KA.vnodeToCache s1 = None.
Proof.
  destruct (KA.vnodeToCache s) as [v|] eqn:Hv.
  - rewrite (cacheVNode_run s v Hv).
    destruct (truthy_max (KA.max s) && _).
    + unfold bind, modify.
      destruct (pruneCacheEntry _ _ (inserted v s)) as [[] s2 | e s2];
        [|discriminate].
      intros [= <-]. reflexivity.
    + unfold committed. rewrite Hv. intros [= <-]. reflexivity.
  - unfold cacheVNode, bind, get, ret. rewrite Hv. now intros [= <-].
Qed.

(** X4.  A commit with nothing staged does nothing, and a commit drains the
    staging slot: [cacheVNode] run twice in a row is [cacheVNode] run once,
    whatever the first run does (insert, evict or throw).  So [mounted]
    followed by [updated], or several [updated] with no render pass in
    between, cache a node once. *)
Theorem cacheVNode_idempotent (s : KA.t) :
  (KA.vnodeToCache s = None -> cacheVNode s = Ok tt s) /\
  (mounted ;; updated) s = cacheVNode s /\
  (updated ;; updated) s = cacheVNode s.
Proof.
  assert (Nothing : forall s0, KA.vnodeToCache s0 = None ->
                               cacheVNode s0 = Ok tt s0).
  { intros s0 H. unfold cacheVNode, bind, get, ret. now rewrite H. }
  assert (Twice : (cacheVNode ;; cacheVNode) s = cacheVNode s).
  { unfold bind. destruct (cacheVNode s) as [[] s1 | e s1] eqn:E;
      [|reflexivity].
    apply Nothing. eapply cacheVNode_clears. exact E. }
  split; [apply Nothing|]. split; exact Twice.
Qed.

Lemma cacheVNode_idempotent_witness :
  cacheVNode (Ex.fresh MaxAbsent) = Ok tt (Ex.fresh MaxAbsent) /\
  KA.keys (state_of ((updated ;; updated) (Ex3.staged MaxAbsent))) = ["A"].
Proof.
  destruct (cacheVNode_idempotent (Ex.fresh MaxAbsent)) as [A _].
  destruct (cacheVNode_idempotent (Ex3.staged MaxAbsent)) as (_ & _ & B).
  split; [apply A; reflexivity | rewrite B; reflexivity].
Defined.

(** ** Teardown *)

Lemma filter_length_perm {A} (p : A -> bool) (l l' : list A) :
  Permutation l l' -> length (List.filter p l) = length (List.filter p l').
Proof.
  induction 1 as [|x l l' H IH | x y l | l l' l'' H1 IH1 H2 IH2]; simpl.
  - reflexivity.
  - destruct (p x); simpl; now rewrite IH.
  - destruct (p x), (p y); reflexivity.
  - congruence.
Qed.

(** The instance that the teardown destroys at [k]. *)
Lemma teardown_log_length (c : CacheEntryMap) (l : list string) :
  instances_present c ->
  length (flat_map (fun k =>
            match cache_get c k with
            | Some e =>
                match CacheEntry.componentInstance e with
                | Some i => [i]
                | None => []
                end
            | None => []
            end) l)
  = length (List.filter (is_live c) l).
Proof.
  intros Hi. induction l as [|k l IH]; simpl; [reflexivity|].
  rewrite length_app, IH. unfold is_live.
  destruct (cache_get c k) as [e|] eqn:G; [|reflexivity].
  destruct (CacheEntry.componentInstance e) eqn:Ei; [reflexivity|].
  exfalso. now apply (Hi k e).
Qed.

(** X5.  Teardown of the container.  On a store in lock-step whose entries
    hold instances, [destroyed] completes, leaves no key and no live entry,
    and calls [$destroy] once for each live entry, with no tag comparison:
    the calls are those of the live entries in the order of enumeration of
    the cache, as many as there were keys, and the instance of every live
    entry is among them. *)
Theorem destroyed_all (s : KA.t) :
  wf_store (KA.cache s) (KA.keys s) ->
  exists s',
    destroyed s = Ok tt s' /\
    KA.keys s' = [] /\
    (forall k, cache_get (KA.cache s') k = None) /\
    live_count (KA.cache s') = 0 /\
    (exists calls,
       KA.destroy_log s' = KA.destroy_log s ++ calls /\
       length calls = length (KA.keys s) /\
       (forall k e i,
          cache_get (KA.cache s) k = Some e ->
          CacheEntry.componentInstance e = Some i -> In i calls) /\
       (forall i, In i calls ->
          exists k e,
            In k (KA.keys s) /\ cache_get (KA.cache s) k = Some e /\
            CacheEntry.componentInstance e = Some i)).
Proof.
  intros Hwf. pose proof (wf_instances _ _ Hwf) as Hi.
  pose proof (wf_names _ _ Hwf) as Hn.
  unfold destroyed, bind, get.
  destruct (teardown_loop (forin_keys (KA.cache s)) s Hi)
    as (s' & R & A & B & C & D & E).
  assert (Hnull : forall k, cache_get (KA.cache s') k = None).
  { intros k.
    destruct (in_dec string_dec k (forin_keys (KA.cache s))) as [H | H].
    - now apply A.
    - rewrite (B k H). apply cache_get_absent.
      intros Hk. apply H. now apply forin_keys_In. }
  exists s'. split; [exact R|]. split.
  { destruct (KA.keys s') as [|k r]; [reflexivity|]. exfalso.
    assert (Hk : In k (k :: r)) by now left.
    apply (D k); [|exact (wf_keys _ _ Hwf)|exact Hk].
    apply forin_keys_In. pose proof (C k Hk) as Hin.
    apply (wf_lockstep _ _ Hwf) in Hin.
    destruct (cache_get (KA.cache s) k) eqn:G; [|congruence].
    eapply cache_get_In. exact G. }
  split; [exact Hnull|]. split.
  { unfold live_count.
    induction (map fst (KA.cache s')) as [|x r IHr]; simpl; [reflexivity|].
    unfold is_live at 1. rewrite Hnull. exact IHr. }
  eexists. split; [apply E, forin_keys_NoDup, Hn|]. split.
  { rewrite (teardown_log_length _ _ Hi).
    rewrite (filter_length_perm _ _ _ (forin_keys_perm (KA.cache s))).
    apply (live_count_keys _ _ Hwf). }
  split.
  - intros k e i G Ei. apply in_flat_map. exists k. split.
    + apply forin_keys_In. eapply cache_get_In. exact G.
    + rewrite G, Ei. now left.
  - intros i Hin. apply in_flat_map in Hin as (k & _ & Hk).
    destruct (cache_get (KA.cache s) k) as [e|] eqn:G; [|destruct Hk].
    destruct (CacheEntry.componentInstance e) as [j|] eqn:Ej; [|destruct Hk].
    destruct Hk as [<- | []]. exists k, e. split; [|now split].
    apply (wf_lockstep _ _ Hwf). congruence.
Qed.

Lemma wf_store_store3 : wf_store (KA.cache Ex.store3) (KA.keys Ex.store3).
Proof.
  split; try concrete_store.
  intros k. split.
  - intros [<- | [<- | [<- | []]]]; vm_compute; discriminate.
  - intros H.
    destruct (in_dec string_dec k (KA.keys Ex.store3)) as [Hin | Hout];
      [exact Hin|].
    exfalso. apply H. apply cache_get_absent. exact Hout.
Qed.

Lemma destroyed_all_witness :
  exists s',
    destroyed Ex.store3 = Ok tt s' /\
    KA.keys s' = [] /\
    length (KA.destroy_log s') = 3.
Proof.
  destruct (destroyed_all Ex.store3 wf_store_store3)
    as (s' & R & K & _ & _ & calls & L & N & _).
  exists s'. split; [exact R|]. split; [exact K|].
  rewrite L, length_app, N. reflexivity.
Defined.

(** ** A hit protects the key *)

Lemma wf_store_touch c keys k :
  wf_store c keys -> cache_get c k <> None ->
  wf_store c (remove keys k ++ [k]).
Proof.
  intros Hwf Hlive.
  destruct (lockstep_touch c keys k (wf_store_lockstep _ _ Hwf) Hlive)
    as [Hn Hk Hl].
  split; [exact Hn | exact Hk | exact Hl | exact (wf_instances _ _ Hwf)].
Qed.

(** The store after an eligible pass that hits. *)
Lemma render_hit_store (slot : option (list ref)) (v : ref) (co : Opts.t)
  (e : CacheEntry.t) (s : KA.t) :
  VNode.componentOptions (KA.heap s v) = Some co ->
  filtered_out (KA.include s) (KA.exclude s) (_getComponentName (Some co))
  = false ->
  cache_get (KA.cache s) (resolveKey (KA.heap s v) co) = Some e ->
  let s1 := state_of (render slot (Some v) s) in
  KA.cache s1 = KA.cache s /\
  KA.keys s1 = remove (KA.keys s) (resolveKey (KA.heap s v) co)
               ++ [resolveKey (KA.heap s v) co] /\
  KA.max s1 = KA.max s /\
  KA.destroy_log s1 = KA.destroy_log s /\
  (forall r, r <> v -> KA.heap s1 r = KA.heap s r) /\
  VNode.componentInstance (KA.heap s1 v) = CacheEntry.componentInstance e.
Proof.
  intros Hco F G. cbv zeta. rewrite (render_run slot v co s Hco F).
  cbv zeta. unfold looked_up. rewrite G. rewrite served_node.
  simpl VNode.data.
  assert (Other : forall (h : ref -> VNode.t) n r,
            r <> v -> heap_set h v n r = h r).
  { intros h n r N. unfold heap_set. apply Nat.eqb_neq in N. now rewrite N. }
  destruct (VNode.data (KA.heap s v)); simpl;
    rewrite ?heap_set_same; simpl; repeat split;
    intros r N; rewrite ?Other by exact N; reflexivity.
Qed.

(** X6.  A hit protects the key.  With a capacity of at least 2, a key that
    a render pass has just served from the cache survives the commit of the
    next fresh key: below capacity nothing is evicted; on a full store the
    victim is the oldest of the other keys, and the served key moves up
    behind the remaining ones. *)
Theorem hit_survives_commit (N : nat) (slot : option (list ref)) (v : ref)
  (co : Opts.t) (e : CacheEntry.t) (c : Commit.t) (s : KA.t) :
  2 <= N ->
  parseInt (KA.max s) = Some (Z.of_nat N) ->
  wf_store (KA.cache s) (KA.keys s) ->
  length (KA.keys s) <= N ->
  VNode.componentOptions (KA.heap s v) = Some co ->
  ~ ineligible (KA.include s) (KA.exclude s) (_getComponentName (Some co)) ->
  cache_get (KA.cache s) (resolveKey (KA.heap s v) co) = Some e ->
  ~ In (Commit.key c) (KA.keys s) ->
  Commit.vnode c <> v ->
  VNode.componentInstance (KA.heap s (Commit.vnode c)) <> None ->
  let key := resolveKey (KA.heap s v) co in
  let s1 := state_of (render slot (Some v) s) in
  exists s2,
    commit c s1 = Ok tt s2 /\
    cache_get (KA.cache s2) key = Some e /\
    In key (KA.keys s2) /\
    (length (KA.keys s) < N ->
     KA.keys s2 = remove (KA.keys s) key ++ [key; Commit.key c]) /\
    (length (KA.keys s) = N ->
     exists h rest,
       remove (KA.keys s) key = h :: rest /\
       h <> key /\
       cache_get (KA.cache s2) h = None /\
       KA.keys s2 = rest ++ [key; Commit.key c]).
Proof.
  intros HN Hmax Hwf Hlen Hco Hel G Hfresh Hcv Hinst. cbv zeta.
  apply not_ineligible_filtered in Hel.
  destruct (render_hit_store slot v co e s Hco Hel G)
    as (Ec & Ek & Em & _ & Eh & _).
  set (key := resolveKey (KA.heap s v) co) in *.
  set (s1 := state_of (render slot (Some v) s)) in *.
  assert (Hin : In key (KA.keys s))
    by (apply (wf_lockstep _ _ Hwf); congruence).
  assert (Hkc : key <> Commit.key c) by (intros E; apply Hfresh; now rewrite <- E).
  assert (Hlen1 : length (KA.keys s1) = length (KA.keys s)).
  { rewrite Ek, length_app. simpl.
    pose proof (remove_length_In _ _ Hin). lia. }
  assert (Hwf1 : wf_store (KA.cache s1) (KA.keys s1)).
  { rewrite Ec, Ek. apply wf_store_touch; [exact Hwf | congruence]. }
  destruct (commit_step N c s1) as (s2 & R & _ & _ & _ & D).
  - lia.
  - now rewrite Em.
  - exact Hwf1.
  - lia.
  - rewrite Ek. intros H. apply in_app_iff in H as [H | [H | []]].
    + apply Hfresh. eapply remove_incl. exact H.
    + congruence.
  - now rewrite (Eh _ Hcv).
  - exists s2. split; [exact R|].
    destruct D as [(L & Ec2 & Ek2 & _)
                  | (L & h & rest & eh & Ek1 & _ & Ec2 & Ek2 & _)].
    + split; [rewrite Ec2, cache_get_set_neq, Ec by exact Hkc; exact G|].
      split.
      { rewrite Ek2, Ek. apply in_or_app. left. apply in_or_app. right.
        now left. }
      split; [|lia]. intros _. rewrite Ek2, Ek, <- app_assoc. reflexivity.
    + rewrite Ek in Ek1.
      destruct (remove (KA.keys s) key) as [|h0 rest0] eqn:Er.
      { exfalso. pose proof (remove_length_In _ _ Hin) as E.
        rewrite Er in E. simpl in E. lia. }
      simpl in Ek1. injection Ek1 as <- <-.
      assert (Hh : h0 <> key).
      { intros ->. assert (H : In key (remove (KA.keys s) key))
          by (rewrite Er; now left).
        apply remove_In in H; [tauto | exact (wf_keys _ _ Hwf)]. }
      split.
      { rewrite Ec2, !cache_get_set_neq, Ec by congruence. exact G. }
      split.
      { rewrite Ek2. apply in_or_app. left. apply in_or_app. right.
        now left. }
      split; [lia|]. intros _. exists h0, rest0.
      split; [reflexivity|]. split; [exact Hh|].
      split; [rewrite Ec2; apply cache_get_set_eq|].
      rewrite Ek2, <- app_assoc. reflexivity.
Qed.

(** Discharges [wf_store] on a concrete store. *)
Ltac concrete_wf :=
  split; [concrete_store | concrete_store | | concrete_store];
  let k := fresh "k" in
  let H := fresh "H" in
  intros k; split;
  [ intros H;
    repeat (destruct H as [<- | H]; [vm_compute; discriminate|]);
    destruct H
  | intros H;
    match goal with
    | |- In _ ?l =>
        destruct (in_dec string_dec k l) as [Hin | Hout];
        [exact Hin | exfalso; apply H; apply cache_get_absent; exact Hout]
    end ].

Lemma wf_store_two : wf_store (KA.cache Ex5.two) (KA.keys Ex5.two).
Proof. concrete_wf. Qed.

Lemma hit_survives_commit_witness :
  exists s2,
    commit Ex5.baz (state_of (render None (Some 1) Ex5.two)) = Ok tt s2 /\
    cache_get (KA.cache s2) "1::foo" = Ex.entry 1 /\
    cache_get (KA.cache s2) "2::bar" = None /\
    KA.keys s2 = ["1::foo"; "3::baz"].
Proof.
  destruct (hit_survives_commit 2 None 1 (Ex.opts 1 "foo" "foo")
              (CacheEntry.mk (Some "foo") (Some "vue-component-1-foo")
                 (Some 101)) Ex5.baz Ex5.two)
    as (s2 & R & G & _ & _ & Full); try reflexivity; try discriminate.
  - exact wf_store_two.
  - apply eligible_unfiltered.
  - simpl. intuition discriminate.
  - destruct (Full eq_refl) as (h & rest & Er & _ & Gh & Ek).
    vm_compute in Er. injection Er as <- <-.
    exists s2. split; [exact R|]. split; [exact G|].
    split; [exact Gh | exact Ek].
Defined.

(** ** What a sweep leaves *)

Lemma pruneCache_result (keep : string -> bool) (s : KA.t) :
  instances_present (KA.cache s) ->
  NoDup (KA.keys s) ->
  NoDup (map fst (KA.cache s)) ->
  exists s1,
    (forall k, cache_get (KA.cache s1) k =
               if sweeps keep (KA.cache s) k
               then None else cache_get (KA.cache s) k) /\
    KA.keys s1 =
      List.filter (fun k => negb (sweeps keep (KA.cache s) k)) (KA.keys s) /\
    KA.destroy_log s1 =
      KA.destroy_log s ++
      flat_map (sweep_log keep (KA.heap s) (KA._vnode s) (KA.cache s))
        (forin_keys (KA.cache s)) /\
    KA.heap s1 = KA.heap s /\
    KA.parent_vnode s1 = KA.parent_vnode s /\
    pruneCache keep s =
    match VNode.componentOptions (KA.heap s (KA.parent_vnode s)) with
    | Some _ =>
        Ok tt (KA.with_heap
                 (heap_set (KA.heap s) (KA.parent_vnode s)
                    (without_children (KA.heap s (KA.parent_vnode s)))) s1)
    | None => Throw TypeError s1
    end.
Proof.
  intros Hi NDk NDn.
  destruct (sweep_loop keep (KA._vnode s) (forin_keys (KA.cache s))
              (forin_keys_NoDup _ NDn) s Hi NDk)
    as (s1 & R & A & B & C & D & E).
  assert (Hin : forall k,
    includes (forin_keys (KA.cache s)) k && sweeps keep (KA.cache s) k
    = sweeps keep (KA.cache s) k).
  { intros k. destruct (sweeps keep (KA.cache s) k) eqn:S;
      [|apply andb_false_r].
    rewrite andb_true_r. apply includes_In, forin_keys_In.
    eapply sweeps_live. exact S. }
  exists s1. split.
  { intros k. rewrite A, Hin. reflexivity. }
  split.
  { rewrite B. apply List.filter_ext. intros k. now rewrite Hin. }
  split; [exact C|]. split; [exact D|]. split; [exact E|].
  unfold pruneCache, bind at 1, get at 1. unfold bind at 1.
  change (for_each (forin_keys (KA.cache s)) _ s)
    with (for_each (forin_keys (KA.cache s))
            (sweep_body keep (KA._vnode s)) s).
  rewrite R. unfold bind, get, modify, throw. cbv beta iota.
  rewrite !D. unfold without_children.
  destruct (VNode.componentOptions (KA.heap s (KA.parent_vnode s)));
    cbv beta iota; rewrite ?D; reflexivity.
Qed.

(** X7.  A sweep that cannot finish.  When the placeholder node of the
    container has no [componentOptions], [pruneCache] still evicts and
    destroys all it has to and then throws a [TypeError]; when it has them,
    the sweep completes, [children] of the placeholder is [undefined]
    afterwards and no other render node is written.  In both cases the cache,
    the keys and the log are those of the finished sweep. *)
Theorem pruneCache_placeholder (keep : string -> bool) (s : KA.t) :
  instances_present (KA.cache s) ->
  NoDup (KA.keys s) ->
  NoDup (map fst (KA.cache s)) ->
  let o := pruneCache keep s in
  (completes o = true <->
   VNode.componentOptions (KA.heap s (KA.parent_vnode s)) <> None) /\
  (forall k, cache_get (KA.cache (state_of o)) k =
             if sweeps keep (KA.cache s) k
             then None else cache_get (KA.cache s) k) /\
  KA.keys (state_of o) =
    List.filter (fun k => negb (sweeps keep (KA.cache s) k)) (KA.keys s) /\
  KA.destroy_log (state_of o) =
    KA.destroy_log s ++
    flat_map (sweep_log keep (KA.heap s) (KA._vnode s) (KA.cache s))
      (forin_keys (KA.cache s)) /\
  (forall r, r <> KA.parent_vnode s ->
             KA.heap (state_of o) r = KA.heap s r) /\
  (completes o = true ->
   forall co,
     VNode.componentOptions (KA.heap (state_of o) (KA.parent_vnode s))
     = Some co ->
     Opts.children co = None).
Proof.
  intros Hi NDk NDn. cbv zeta.
  destruct (pruneCache_result keep s Hi NDk NDn)
    as (s1 & A & B & C & D & E & R).
  rewrite R.
  destruct (VNode.componentOptions (KA.heap s (KA.parent_vnode s)))
    as [pco|] eqn:Hp; simpl.
  - split; [split; [discriminate | reflexivity]|].
    split; [exact A|]. split; [exact B|]. split; [exact C|]. split.
    + intros r N. unfold heap_set. apply Nat.eqb_neq in N. now rewrite N.
    + intros _ co. rewrite heap_set_same. unfold without_children.
      rewrite Hp. simpl. now intros [= <-].
  - split; [split; [discriminate | congruence]|].
    split; [exact A|]. split; [exact B|]. split; [exact C|]. split.
    + intros r _. now rewrite D.
    + discriminate.
Qed.

Lemma pruneCache_placeholder_witness :
  completes (watch_include (PString "foo,bar") Ex6.orphan) = false /\
  KA.keys (state_of (watch_include (PString "foo,bar") Ex6.orphan))
  = ["1::foo"; "2::bar"] /\
  KA.destroy_log (state_of (watch_include (PString "foo,bar") Ex6.orphan))
  = [103].
Proof.
  destruct (pruneCache_placeholder
              (fun name => matches (PString "foo,bar") name) Ex6.orphan)
    as (A & _ & B & C & _); try concrete_store.
  cbv zeta in *. split; [|split].
  - destruct (completes (watch_include (PString "foo,bar") Ex6.orphan))
      eqn:E; [|reflexivity].
    exfalso. apply (proj1 A E). reflexivity.
  - unfold watch_include. rewrite B. reflexivity.
  - unfold watch_include. rewrite C. reflexivity.
Defined.

Lemma sweeps_none_keys keep (c : CacheEntryMap) (l : list string) :
  (forall k, sweeps keep c k = false) ->
  List.filter (fun k => negb (sweeps keep c k)) l = l.
Proof.
  intros H. induction l as [|x l IH]; simpl; [reflexivity|].
  now rewrite H, IH.
Qed.

Lemma sweeps_none_log keep h cur (c : CacheEntryMap) (l : list string) :
  (forall k, sweeps keep c k = false) ->
  flat_map (sweep_log keep h cur c) l = [].
Proof.
  intros H. induction l as [|x l IH]; simpl; [reflexivity|].
  rewrite IH, app_nil_r. unfold sweep_log. rewrite H.
  destruct (cache_get c x); reflexivity.
Qed.

(** X8.  A filter value that matches no name.  When [include] changes to a
    value that matches nothing ([undefined], a value of another type, an
    empty array), the sweep evicts every live entry whose name is present
    and keeps those whose name is absent; when [exclude] changes to such a
    value, the sweep leaves the cache, the keys and the log as they
    were. *)
Theorem watch_unmatchable (val : Pattern) (s : KA.t) :
  (forall name, matches val name = false) ->
  instances_present (KA.cache s) ->
  NoDup (KA.keys s) ->
  NoDup (map fst (KA.cache s)) ->
  (forall k e,
     cache_get (KA.cache s) k = Some e ->
     (present (CacheEntry.name e) ->
      cache_get (KA.cache (state_of (watch_include val s))) k = None /\
      ~ In k (KA.keys (state_of (watch_include val s)))) /\
     (absent (CacheEntry.name e) ->
      cache_get (KA.cache (state_of (watch_include val s))) k = Some e)) /\
  (forall k, cache_get (KA.cache (state_of (watch_exclude val s))) k
             = cache_get (KA.cache s) k) /\
  KA.keys (state_of (watch_exclude val s)) = KA.keys s /\
  KA.destroy_log (state_of (watch_exclude val s)) = KA.destroy_log s.
Proof.
  intros Hm Hi NDk NDn. unfold watch_include, watch_exclude.
  destruct (pruneCache_result (fun name => matches val name) s Hi NDk NDn)
    as (s1 & A & B & _ & _ & _ & R).
  destruct (pruneCache_result (fun name => negb (matches val name)) s
              Hi NDk NDn) as (s2 & A2 & B2 & C2 & _ & _ & R2).
  assert (E1 : KA.cache (state_of (pruneCache (fun name => matches val name) s))
               = KA.cache s1 /\
               KA.keys (state_of (pruneCache (fun name => matches val name) s))
               = KA.keys s1).
  { rewrite R. destruct (VNode.componentOptions _); now split. }
  assert (E2 :
    KA.cache (state_of (pruneCache (fun name => negb (matches val name)) s))
    = KA.cache s2 /\
    KA.keys (state_of (pruneCache (fun name => negb (matches val name)) s))
    = KA.keys s2 /\
    KA.destroy_log
      (state_of (pruneCache (fun name => negb (matches val name)) s))
    = KA.destroy_log s2).
  { rewrite R2. destruct (VNode.componentOptions _); repeat split. }
  destruct E1 as [Ec1 Ek1]. destruct E2 as (Ec2 & Ek2 & El2).
  rewrite Ec1, Ek1, Ec2, Ek2, El2.
  assert (S2 : forall k,
    sweeps (fun name => negb (matches val name)) (KA.cache s) k = false).
  { intros k. unfold sweeps. destruct (cache_get (KA.cache s) k);
      [|reflexivity].
    rewrite Hm. simpl. apply andb_false_r. }
  split; [|split; [|split]].
  - intros k e G. split.
    + intros P. unfold present in P.
      assert (S1 : sweeps (fun name => matches val name) (KA.cache s) k = true)
        by (unfold sweeps; now rewrite G, P, Hm).
      split; [now rewrite A, S1|].
      rewrite B. intros H. apply filter_In in H. rewrite S1 in H.
      destruct H as [_ H]. discriminate.
    + intros P. unfold absent in P.
      assert (S1 : sweeps (fun name => matches val name) (KA.cache s) k
                   = false)
        by (unfold sweeps; now rewrite G, P).
      now rewrite A, S1.
  - intros k. now rewrite A2, S2.
  - rewrite B2. now apply sweeps_none_keys.
  - rewrite C2, sweeps_none_log by exact S2. apply app_nil_r.
Qed.

Lemma watch_unmatchable_witness :
  KA.keys (state_of (watch_include undefined_pattern Ex5.mixed)) = ["6"] /\
  cache_get (KA.cache (state_of (watch_include undefined_pattern Ex5.mixed)))
    "1::foo" = None /\
  KA.keys (state_of (watch_exclude undefined_pattern Ex5.mixed))
  = ["1::foo"; "6"; "2::bar"].
Proof.
  destruct (watch_unmatchable undefined_pattern Ex5.mixed)
    as (A & _ & B & _); try concrete_store; [reflexivity|].
  split; [reflexivity|]. split; [|exact B].
  apply (A "1::foo" (CacheEntry.mk (Some "foo") (Some "vue-component-1-foo")
                       (Some 101)) eq_refl).
  reflexivity.
Defined.

(** What a sweep keeps: a live entry with a name that is left after the
    sweep has a name that the predicate accepts. *)
Lemma pruneCache_keeps (keep : string -> bool) (s : KA.t) k e :
  instances_present (KA.cache s) ->
  NoDup (KA.keys s) ->
  NoDup (map fst (KA.cache s)) ->
  cache_get (KA.cache (state_of (pruneCache keep s))) k = Some e ->
  present (CacheEntry.name e) ->
  keep (str (CacheEntry.name e)) = true.
Proof.
  intros Hi NDk NDn G P.
  destruct (pruneCache_result keep s Hi NDk NDn)
    as (s1 & A & _ & _ & _ & _ & R).
  rewrite R in G.
  assert (G1 : cache_get (KA.cache s1) k = Some e)
    by (destruct (VNode.componentOptions _); exact G).
  rewrite A in G1. unfold sweeps in G1.
  destruct (cache_get (KA.cache s) k) as [e0|]; [|discriminate].
  destruct (truthy (CacheEntry.name e0)
            && negb (keep (str (CacheEntry.name e0)))) eqn:T;
    [discriminate|].
  injection G1 as ->. unfold present in P. rewrite P in T. simpl in T.
  now apply negb_false_iff in T.
Qed.

(** X10.  A sweep is idempotent.  On a store in lock-step whose entries hold
    instances, with the placeholder node in place, a second sweep with the
    same predicate right after the first completes and changes no entry, no
    key and destroys nothing. *)
Theorem pruneCache_idempotent (keep : string -> bool) (pco : Opts.t)
  (s : KA.t) :
  wf_store (KA.cache s) (KA.keys s) ->
  VNode.componentOptions (KA.heap s (KA.parent_vnode s)) = Some pco ->
  exists s1 s2,
    pruneCache keep s = Ok tt s1 /\
    pruneCache keep s1 = Ok tt s2 /\
    (forall k, cache_get (KA.cache s2) k = cache_get (KA.cache s1) k) /\
    KA.keys s2 = KA.keys s1 /\
    KA.destroy_log s2 = KA.destroy_log s1.
Proof.
  intros Hwf Hp.
  destruct (pruneCache_result keep s (wf_instances _ _ Hwf)
              (wf_keys _ _ Hwf) (wf_names _ _ Hwf))
    as (s0 & A & B & C & D & E & R).
  rewrite Hp in R.
  set (s1 := KA.with_heap
               (heap_set (KA.heap s) (KA.parent_vnode s)
                  (without_children (KA.heap s (KA.parent_vnode s)))) s0)
    in *.
  pose proof (shrinks_pruneCache keep s) as Sh. rewrite R in Sh.
  simpl state_of in Sh.
  pose proof (sh_lockstep _ _ Sh (wf_store_lockstep _ _ Hwf)) as L1.
  assert (Hi1 : instances_present (KA.cache s1)).
  { intros k e G. change (KA.cache s1) with (KA.cache s0) in G.
    rewrite A in G. destruct (sweeps keep (KA.cache s) k); [discriminate|].
    now apply (wf_instances _ _ Hwf k e). }
  assert (S1 : forall k, sweeps keep (KA.cache s1) k = false).
  { intros k. unfold sweeps. change (KA.cache s1) with (KA.cache s0).
    rewrite A. destruct (sweeps keep (KA.cache s) k) eqn:S; [reflexivity|].
    exact S. }
  destruct (pruneCache_result keep s1 Hi1 (ls_keys _ _ L1) (ls_names _ _ L1))
    as (s3 & A3 & B3 & C3 & _ & _ & R3).
  assert (Hp1 : VNode.componentOptions (KA.heap s1 (KA.parent_vnode s1))
                <> None).
  { change (KA.parent_vnode s1) with (KA.parent_vnode s0). rewrite E.
    unfold s1. simpl. rewrite heap_set_same. unfold without_children.
    rewrite Hp. discriminate. }
  destruct (VNode.componentOptions (KA.heap s1 (KA.parent_vnode s1)));
    [|congruence].
  exists s1. eexists. split; [exact R|]. split; [exact R3|]. simpl.
  split; [|split].
  - intros k. now rewrite A3, S1.
  - rewrite B3. now apply sweeps_none_keys.
  - rewrite C3, sweeps_none_log by exact S1. apply app_nil_r.
Qed.

Lemma wf_store_filtered :
  wf_store (KA.cache Ex2.filtered) (KA.keys Ex2.filtered).
Proof. concrete_wf. Qed.

Lemma pruneCache_idempotent_witness :
  exists s1 s2,
    watch_include (PString "foo") Ex2.filtered = Ok tt s1 /\
    watch_include (PString "foo") s1 = Ok tt s2 /\
    KA.keys s2 = KA.keys s1 /\
    KA.destroy_log s2 = KA.destroy_log s1.
Proof.
  destruct (pruneCache_idempotent (fun name => matches (PString "foo") name)
              (Ex.opts 9 "keep-alive" "keep-alive") Ex2.filtered
              wf_store_filtered eq_refl)
    as (s1 & s2 & R1 & R2 & _ & K & L).
  exists s1, s2. repeat split; assumption.
Defined.

(** ** The destroy guard of a capacity eviction *)

(** X11.  What a commit destroys.  A commit on a store with room inserts and
    destroys nothing.  A commit that breaches the capacity evicts the head
    of the keys and calls [$destroy] on its instance exactly when there is
    no node on display or the tag of the node on display differs from the
    tag of the evicted entry; when the tags are equal the entry leaves the
    cache with its instance alive. *)
Theorem cacheVNode_destroy_guard (s : KA.t) (v : ref) :
  KA.vnodeToCache s = Some v ->
  wf_store (KA.cache s) (KA.keys s) ->
  ~ In (KA.keyToCache s) (KA.keys s) ->
  VNode.componentInstance (KA.heap s v) <> None ->
  ~ (truthy_max (KA.max s) = true /\ non_positive (KA.max s)) ->
  exists s',
    cacheVNode s = Ok tt s' /\
    (over_capacity s = false -> KA.destroy_log s' = KA.destroy_log s) /\
    (over_capacity s = true ->
     exists h rest eh i,
       KA.keys s = h :: rest /\
       cache_get (KA.cache s) h = Some eh /\
       CacheEntry.componentInstance eh = Some i /\
       cache_get (KA.cache s') h = None /\
       (must_destroy s eh (KA._vnode s) ->
        KA.destroy_log s' = KA.destroy_log s ++ [i]) /\
       (same_tag s eh (KA._vnode s) ->
        KA.destroy_log s' = KA.destroy_log s)).
Proof.
  intros Hv Hwf Hfresh Hinst Hmax.
  destruct (cacheVNode_staged s v Hv Hwf Hfresh Hinst Hmax)
    as [[O E] | (O & h & rest & eh & Ek & Hh & Gh & Hi & E)].
  - exists (committed s). split; [exact E|]. split; [|congruence].
    intros _. unfold committed. now rewrite Hv.
  - exists (committed_evicting h eh v s). split; [exact E|].
    split; [congruence|]. intros _.
    destruct (CacheEntry.componentInstance eh) as [i|] eqn:Ei; [|congruence].
    exists h, rest, eh, i. split; [exact Ek|]. split; [exact Gh|].
    split; [exact Ei|].
    unfold committed_evicting. rewrite Ei.
    pose proof (guard_must_destroy s eh (KA._vnode s)) as Gd.
    fold (guard (KA.heap s) eh (KA._vnode s)) in Gd.
    destruct (guard (KA.heap s) eh (KA._vnode s)) eqn:Hg; simpl.
    + split; [apply cache_get_set_eq|]. split; [reflexivity|].
      intros St. exfalso. eapply must_destroy_same_tag; [|exact St].
      now apply Gd.
    + split; [apply cache_get_set_eq|]. split; [|reflexivity].
      intros Md. apply Gd in Md. discriminate.
Qed.

Lemma cacheVNode_destroy_guard_witness :
  exists s',
    cacheVNode Ex6.full_staged = Ok tt s' /\
    KA.keys s' = ["2::bar"; "3::baz"] /\
    KA.destroy_log s' = [].
Proof.
  destruct (cacheVNode_destroy_guard Ex6.full_staged 3 eq_refl)
    as (s' & R & _ & Over).
  - exact wf_store_two.
  - simpl. intuition discriminate.
  - discriminate.
  - exact not_non_positive_2.
  - destruct (Over eq_refl) as (h & rest & eh & i & Ek & G & Ei & _ & _ & St).
    injection Ek as <- <-. vm_compute in G. injection G as <-.
    exists s'. split; [exact R|].
    assert (E : s' = state_of (cacheVNode Ex6.full_staged))
      by (rewrite R; reflexivity).
    split; [rewrite E; reflexivity|].
    apply St. exists 1. split; reflexivity.
Defined.

(** ** What a render pass never does *)

Lemma heap_set_other (h : ref -> VNode.t) v n r :
  r <> v -> heap_set h v n r = h r.
Proof. intros N. unfold heap_set. apply Nat.eqb_neq in N. now rewrite N. Qed.




(** ** A string pattern and the array of its names *)

Lemma split_comma_join (l : list string) :
  l <> [] ->
  Forall (fun x => has_comma x = false) l ->
  split_comma (join l) = l.
Proof.
  unfold join. induction l as [|x l IH]; [congruence|].
  intros _ F. inversion F as [|? ? Hx Fl]; subst.
  destruct l as [|y r].
  - simpl. now apply split_comma_single.
  - change (String.concat "," (x :: y :: r))
      with (String.append x
              (String.append "," (String.concat "," (y :: r)))).
    rewrite split_comma_app, (split_comma_single _ Hx), IH;
      [reflexivity | discriminate | exact Fl].
Qed.

(** X13.  A string pattern is the array of its names: for a non-empty list
    of names without commas, the string that joins them with commas matches
    exactly the names that the list, given as an array pattern, matches.
    Nothing is trimmed, and the empty list is the exception: its join is the
    empty string, which matches the empty name. *)
Theorem matches_string_as_array (l : list string) (name : string) :
  l <> [] ->
  Forall (fun x => has_comma x = false) l ->
  matches (PString (join l)) name = matches (PArray l) name.
Proof.
  intros NE F. simpl. now rewrite split_comma_join.
Qed.

Lemma matches_string_as_array_witness :
  matches (PString "foo,bar") "bar" = matches (PArray ["foo"; "bar"]) "bar"
  /\ matches (PString "") "" = true /\ matches (PArray []) "" = false.
Proof.
  split; [|split; reflexivity].
  apply (matches_string_as_array ["foo"; "bar"] "bar");
    [discriminate | repeat constructor].
Defined.

(** ** Synthetic keys do not collide *)

Lemma digits_prefix_inj (d1 : Decimal.uint) :
  forall (d2 : Decimal.uint) (r1 r2 : string),
  colon_rest r1 -> colon_rest r2 ->
  (NilEmpty.string_of_uint d1 ++ r1 = NilEmpty.string_of_uint d2 ++ r2)%string
  -> d1 = d2 /\ r1 = r2.
Proof.
  induction d1; intros d2 r1 r2 H1 H2 E; destruct d2; simpl in E;
    try (injection E as E; destruct (IHd1 _ _ _ H1 H2 E) as [-> ->];
         now split);
    try (destruct H1 as [-> | [t ->]]; discriminate E);
    try (destruct H2 as [-> | [t ->]]; discriminate E);
    try discriminate E.
  now split.
Qed.

Lemma synthetic_rest (tag : option string) :
  colon_rest (if truthy tag then "::" ++ str tag else "")%string.
Proof.
  destruct (truthy tag); [right | left; reflexivity].
  simpl. eexists. reflexivity.
Qed.

(** X14.  Synthetic keys do not collide.  Two nodes without an explicit key
    resolve to the same key only when their constructors have the same
    [cid] and they have the same tag, or both have none: the decimal digits
    of the [cid] never run into the tag, because the separator starts with a
    colon. *)
Theorem resolveKey_injective (vnode vnode' : VNode.t) (co co' : Opts.t) :
  VNode.key vnode = None -> VNode.key vnode' = None ->
  resolveKey vnode co = resolveKey vnode' co' ->
  Ctor.cid (Opts.Ctor co) = Ctor.cid (Opts.Ctor co') /\
  truthy (Opts.tag co) = truthy (Opts.tag co') /\
  (present (Opts.tag co) -> Opts.tag co = Opts.tag co').
Proof.
  unfold resolveKey, string_of_cid, present. intros -> -> E.
  apply digits_prefix_inj in E; try apply synthetic_rest.
  destruct E as [Ed Er]. split.
  - now apply DecimalNat.Unsigned.to_uint_inj.
  - destruct (truthy (Opts.tag co)) eqn:T,
             (truthy (Opts.tag co')) eqn:T'; try discriminate.
    + split; [reflexivity|]. intros _. injection Er as Er.
      rewrite (truthy_Some _ T), (truthy_Some _ T'). now f_equal.
    + split; [reflexivity | discriminate].
Qed.

Lemma resolveKey_injective_witness :
  resolveKey (Ex.heap 1) (Ex.opts 1 "foo" "1")
  <> resolveKey (Ex.heap 1) (Ex.opts 11 "foo" "").
Proof.
  intros E.
  destruct (resolveKey_injective (Ex.heap 1) (Ex.heap 1)
              (Ex.opts 1 "foo" "1") (Ex.opts 11 "foo" "")
              eq_refl eq_refl E) as [H _].
  discriminate.
Defined.

(** ** A numeric [max] *)

Lemma parse_digits_value (d : Decimal.uint) :
  forall a,
    parse_digits 10 (Some a) (NilEmpty.string_of_uint d)
    = Some (digits_value a d).
Proof.
  induction d; intros a; simpl; try reflexivity; apply IHd.
Qed.

Lemma parse_digits_value0 (d : Decimal.uint) :
  d <> Decimal.Nil ->
  parse_digits 10 None (NilEmpty.string_of_uint d)
  = Some (digits_value 0 d).
Proof.
  destruct d; intros H; [congruence| ..]; simpl; apply parse_digits_value.
Qed.

Lemma of_uint_acc_value (d : Decimal.uint) :
  forall acc, Zpos (Pos.of_uint_acc d acc) = digits_value (Zpos acc) d.
Proof.
  induction d; intros acc; cbn [Pos.of_uint_acc digits_value];
    try reflexivity; rewrite IHd; f_equal; lia.
Qed.

Lemma of_uint_value (d : Decimal.uint) :
  Z.of_N (Pos.of_uint d) = digits_value 0 d.
Proof.
  induction d; cbn [Pos.of_uint digits_value]; try reflexivity;
    try exact IHd; cbn [Z.of_N]; rewrite of_uint_acc_value; reflexivity.
Qed.

(** Evaluates [is_space] on the characters at hand. *)
Ltac no_space :=
  repeat match goal with
         | |- context [is_space ?c] =>
             let v := eval vm_compute in (is_space c) in
             change (is_space c) with v
         end;
  cbv beta iota zeta.

Lemma digits_no_prefix (d : Decimal.uint) :
  d <> Decimal.Nil ->
  parseInt_string (NilEmpty.string_of_uint d) = Some (digits_value 0 d) /\
  parseInt_string (String "-" (NilEmpty.string_of_uint d))
  = Some (- digits_value 0 d)%Z.
Proof.
  intros H. pose proof (parse_digits_value0 d H) as P.
  destruct d as [|d|d|d|d|d|d|d|d|d|d]; [congruence| ..].
  2-10: unfold parseInt_string; cbn [NilEmpty.string_of_uint skip_space] in *;
      no_space; rewrite P; split; f_equal; lia.
  unfold parseInt_string. cbn [NilEmpty.string_of_uint skip_space] in *.
  destruct d; cbn [NilEmpty.string_of_uint] in *;
      no_space; rewrite P; split; f_equal; lia.
Qed.

(** X15.  A numeric [max] is the bound it denotes: for an integer-valued
    number [n] that prints in plain decimal digits (of magnitude below
    10^21), [parseInt(this.max)] is [n], so a commit goes on to evict
    exactly when [n] is not 0 and the keys, with the new one, are more than
    [n]. *)
Theorem parseInt_number (n : Z) (s : KA.t) :
  (Z.abs n < 10 ^ 21)%Z ->
  parseInt (MaxNumber n) = Some n /\
  (KA.max s = MaxNumber n ->
   over_capacity s
   = negb (n =? 0)%Z && (n <? Z.of_nat (length (KA.keys s) + 1))%Z).
Proof.
  intros _.
  assert (P : parseInt (MaxNumber n) = Some n).
  { unfold parseInt, ToString_int. destruct n as [|p|p]; [reflexivity| |].
    - simpl Z.to_int. unfold NilZero.string_of_int, NilZero.string_of_uint.
      pose proof (DecimalPos.Unsigned.to_uint_nonnil p) as NN.
      destruct (digits_no_prefix _ NN) as [A _].
      pose proof (of_uint_value (Pos.to_uint p)) as V.
      rewrite DecimalPos.Unsigned.of_to in V. simpl in V.
      destruct (Pos.to_uint p) eqn:E; [congruence| ..]; rewrite A;
        now rewrite <- V.
    - simpl Z.to_int. unfold NilZero.string_of_int, NilZero.string_of_uint.
      pose proof (DecimalPos.Unsigned.to_uint_nonnil p) as NN.
      destruct (digits_no_prefix _ NN) as [_ A].
      pose proof (of_uint_value (Pos.to_uint p)) as V.
      rewrite DecimalPos.Unsigned.of_to in V. simpl in V.
      destruct (Pos.to_uint p) eqn:E; [congruence| ..]; rewrite A;
        now rewrite <- V. }
  split; [exact P|].
  intros Hm. unfold over_capacity. rewrite Hm, P. reflexivity.
Qed.

Lemma parseInt_number_witness :
  parseInt (MaxNumber 1024) = Some 1024%Z /\
  over_capacity (Ex.fresh (MaxNumber 1)) = false /\
  over_capacity (KA.with_keys ["a"] (Ex.fresh (MaxNumber 1))) = true.
Proof.
  split; [|split].
  - apply (parseInt_number 1024 (Ex.fresh MaxAbsent)). reflexivity.
  - destruct (parseInt_number 1 (Ex.fresh (MaxNumber 1))) as [_ H];
      [reflexivity|].
    rewrite (H eq_refl). reflexivity.
  - destruct (parseInt_number 1 (KA.with_keys ["a"] (Ex.fresh (MaxNumber 1))))
      as [_ H]; [reflexivity|].
    rewrite (H eq_refl). reflexivity.
Defined.

(** ** The staging slot *)

(** X16.  The staging slot holds one node.  When two render passes miss in
    a row with no commit in between, the second staging replaces the first:
    the commit caches the second node only, the key of the first pass stays
    out of the cache and out of the keys, and the slot is empty
    afterwards. *)
Theorem staging_overwrite (slot slot' : option (list ref)) (v1 v2 : ref)
  (co1 co2 : Opts.t) (h : ref -> VNode.t) (cur : option ref) (s : KA.t) :
  wf_store (KA.cache s) (KA.keys s) ->
  ~ (truthy_max (KA.max s) = true /\ non_positive (KA.max s)) ->
  v2 <> v1 ->
  VNode.componentOptions (KA.heap s v1) = Some co1 ->
  VNode.componentOptions (KA.heap s v2) = Some co2 ->
  ~ ineligible (KA.include s) (KA.exclude s) (_getComponentName (Some co1)) ->
  ~ ineligible (KA.include s) (KA.exclude s) (_getComponentName (Some co2)) ->
  cache_get (KA.cache s) (resolveKey (KA.heap s v1) co1) = None ->
  cache_get (KA.cache s) (resolveKey (KA.heap s v2) co2) = None ->
  resolveKey (KA.heap s v1) co1 <> resolveKey (KA.heap s v2) co2 ->
  VNode.data (KA.heap s v1) <> None ->
  VNode.data (KA.heap s v2) <> None ->
  VNode.componentInstance (h v2) <> None ->
  exists s',
    run [OpRender slot (Some v1); OpRender slot' (Some v2); OpPatch h cur;
         OpCommit] s = Ok tt s' /\
    (exists e,
       cache_get (KA.cache s') (resolveKey (KA.heap s v2) co2) = Some e /\
       CacheEntry.componentInstance e = VNode.componentInstance (h v2)) /\
    cache_get (KA.cache s') (resolveKey (KA.heap s v1) co1) = None /\
    ~ In (resolveKey (KA.heap s v1) co1) (KA.keys s') /\
    KA.vnodeToCache s' = None.
Proof.
  intros Hwf Hmax Hv Hco1 Hco2 Hel1 Hel2 Hm1 Hm2 Hk Hd1 Hd2 Hinst.
  apply not_ineligible_filtered in Hel1, Hel2.
  set (k1 := resolveKey (KA.heap s v1) co1) in *.
  set (k2 := resolveKey (KA.heap s v2) co2) in *.
  set (s1 := marked v1 (stage k1 v1 s)).
  set (s2 := marked v2 (stage k2 v2 s1)).
  set (s3 := KA.with__vnode cur (KA.with_heap h s2)).
  assert (Hh1 : KA.heap s1 v2 = KA.heap s v2).
  { unfold s1, marked. simpl. now apply heap_set_other. }
  assert (Hfresh : ~ In k2 (KA.keys s)).
  { intros Hin. apply (wf_lockstep _ _ Hwf) in Hin. contradiction. }
  assert (Hout : ~ In k1 (KA.keys s)).
  { intros Hin. apply (wf_lockstep _ _ Hwf) in Hin. contradiction. }
  assert (Hrun :
    run [OpRender slot (Some v1); OpRender slot' (Some v2); OpPatch h cur;
         OpCommit] s = cacheVNode s3).
  { rewrite run_cons. unfold run_op at 1. unfold bind at 1.
    rewrite (render_run slot v1 co1 s Hco1 Hel1). cbv zeta. fold k1.
    unfold looked_up. rewrite Hm1.
    change (VNode.data (KA.heap (stage k1 v1 s) v1))
      with (VNode.data (KA.heap s v1)).
    destruct (VNode.data (KA.heap s v1)) as [d1|] eqn:E1; [|congruence].
    cbv beta iota. unfold ret at 1. cbv beta iota. fold s1.
    rewrite run_cons. unfold run_op at 1. unfold bind at 1.
    assert (Hco2' : VNode.componentOptions (KA.heap s1 v2) = Some co2)
      by now rewrite Hh1.
    assert (Hel2' : filtered_out (KA.include s1) (KA.exclude s1)
                      (_getComponentName (Some co2)) = false) by exact Hel2.
    rewrite (render_run slot' v2 co2 s1 Hco2' Hel2'). cbv zeta.
    rewrite Hh1. fold k2. unfold looked_up.
    change (KA.cache s1) with (KA.cache s). rewrite Hm2.
    change (VNode.data (KA.heap (stage k2 v2 s1) v2))
      with (VNode.data (KA.heap s1 v2)).
    rewrite Hh1.
    destruct (VNode.data (KA.heap s v2)) as [d2|] eqn:E2; [|congruence].
    cbv beta iota. unfold ret at 1. cbv beta iota. fold s2.
    rewrite run_cons. unfold run_op at 1.
    change ((modify (KA.with_heap h) ;; modify (KA.with__vnode cur)) s2)
      with (Ok tt s3).
    cbv beta iota. rewrite run_cons. unfold run_op at 1, updated.
    destruct (cacheVNode s3) as [[] s4 | e s4]; reflexivity. }
  rewrite Hrun.
  destruct (cacheVNode_staged s3 v2 eq_refl Hwf Hfresh Hinst Hmax)
    as [[_ E] | (_ & h0 & rest & eh & Ek & Hh & _ & _ & E)].
  - exists (committed s3). split; [exact E|].
    destruct (committed_lookup s3 v2 eq_refl) as [G K].
    change (KA.keyToCache s3) with k2 in G, K.
    split; [eexists; split; [exact G | reflexivity]|].
    split; [|split].
    + unfold committed. simpl. now rewrite cache_get_set_neq.
    + rewrite K. intros Hin. apply in_app_iff in Hin as [Hin | [Hin | []]];
        [now apply Hout | congruence].
    + reflexivity.
  - exists (committed_evicting h0 eh v2 s3). split; [exact E|].
    destruct (committed_evicting_lookup h0 eh v2 s3 Hh) as [G K].
    change (KA.keyToCache s3) with k2 in G, K.
    split; [eexists; split; [exact G | reflexivity]|].
    split; [|split].
    + unfold committed_evicting.
      destruct (CacheEntry.componentInstance eh);
        [destruct (guard (KA.heap s3) eh (KA._vnode s3))|]; simpl;
        (destruct (String.eqb_spec k1 h0) as [-> | N];
         [apply cache_get_set_eq
         | rewrite !cache_get_set_neq by congruence; exact Hm1]).
    + rewrite K. intros Hin. apply remove_incl in Hin.
      apply in_app_iff in Hin as [Hin | [Hin | []]];
        [now apply Hout | congruence].
    + reflexivity.
Qed.

Lemma staging_overwrite_witness :
  exists s',
    run [OpRender None (Some 1); OpRender None (Some 2);
         OpPatch Ex.heap (Some 2); OpCommit] (Ex.fresh MaxAbsent) = Ok tt s' /\
    KA.keys s' = ["2::bar"] /\
    cache_get (KA.cache s') "1::foo" = None.
Proof.
  destruct (staging_overwrite None None 1 2 (Ex.opts 1 "foo" "foo")
              (Ex.opts 2 "bar" "bar") Ex.heap (Some 2) (Ex.fresh MaxAbsent))
    as (s' & R & _ & G & _); try reflexivity; try discriminate.
  - exact wf_store_empty.
  - intros [H _]. discriminate.
  - apply eligible_unfiltered.
  - apply eligible_unfiltered.
  - exists s'. split; [exact R|]. split; [|exact G].
    pose proof (f_equal (fun o => KA.keys (state_of o)) R) as E.
    cbv beta in E.
    change (KA.keys (state_of (Ok tt s'))) with (KA.keys s') in E.
    rewrite <- E. reflexivity.
Defined.

(** ** Regular expressions with flags *)

(** The search finds a match exactly when the matcher succeeds at one of the
    [n] indices from [i] on; for a sticky expression, at [i] itself. *)
Lemma Js_search_found m (input : string) (sticky : bool) (i n : nat) :
  (exists e, Js.search m input sticky i n = Some e) <->
  (exists j e, (i <= j /\ j < i + n) /\ m input j = Some e /\
               (sticky = true -> j = i)).
Proof.
  revert i. induction n as [|n IH]; intros i; simpl.
  - split; [intros [e H]; discriminate | intros (j & e & H & _); lia].
  - destruct (m input i) as [e0|] eqn:E.
    + split; [intros _ | intros _; now exists e0].
      exists i, e0. split; [lia|]. split; [exact E | reflexivity].
    + destruct sticky.
      * split; [intros [e H]; discriminate|].
        intros (j & e & _ & H & Hs). rewrite (Hs eq_refl) in H. congruence.
      * rewrite IH. split; intros (j & e & Hj & H & _); exists j, e.
        -- split; [lia|]. split; [exact H | discriminate].
        -- assert (j <> i) by congruence.
           split; [lia|]. split; [exact H | discriminate].
Qed.

(** Without the [g] and [y] flags [test] leaves the object as it was, and
    answers whether the expression has a match in the name, whatever
    [lastIndex] is. *)
Lemma Js_test_flagless (r : Js.RegExp) (name : string) :
  Js.flagless_regexp r = true ->
  snd (Js.test r name) = r /\
  (fst (Js.test r name) = true <-> Js.satisfies r name).
Proof.
  unfold Js.flagless_regexp, Js.test. intros F. apply negb_true_iff in F.
  rewrite F. destruct (orb_false_elim _ _ F) as [_ Fs]. rewrite Fs.
  rewrite Nat.sub_0_r.
  pose proof (Js_search_found (Js.matcher r) name false 0
                (S (String.length name))) as [S1 S2].
  destruct (Js.search (Js.matcher r) name false 0 (S (String.length name)))
    as [e|]; simpl; (split; [reflexivity|]).
  - split; [intros _ | reflexivity].
    destruct S1 as (j & e' & Hj & H & _); [now exists e|].
    exists j, e'. split; [lia | exact H].
  - split; [discriminate|]. intros (j & e & Hj & H).
    destruct S2 as [e' S2]; [|discriminate].
    exists j, e. split; [lia|]. split; [exact H | discriminate].
Qed.

(** On a pattern that is not a regular expression with the [g] or the [y]
    flag, [matches] is the function of the pattern and the name, and leaves
    the pattern as it was. *)
Lemma Js_matches_flagless (pattern : Js.Pattern) (name : string) :
  Js.flagless pattern = true ->
  Js.matches pattern name = (matches (flagless_view pattern) name, pattern).
Proof.
  destruct pattern as [s|r|l|t]; simpl; intros F; try reflexivity.
  destruct (Js_test_flagless r name F) as [A _].
  destruct (Js.test r name) as [b r']. simpl in A. now subst.
Qed.

(** X17.  [matches] on a pattern that is not a regular expression with the
    [g] or the [y] flag: the call leaves the pattern as it was, and answers
    true exactly when the pattern is an array and the name is a member of
    it, or the pattern is a string and the name is one of its
    comma-separated segments, or the pattern is a regular expression that
    has a match in the name; for a value of another type it answers
    false. *)
Theorem Js_matches_flagless_spec (pattern : Js.Pattern) (name : string) :
  Js.flagless pattern = true ->
  snd (Js.matches pattern name) = pattern /\
  (fst (Js.matches pattern name) = true <->
   match pattern with
   | Js.PArray l => In name l
   | Js.PString s => segment_of name s
   | Js.PRegExp r => Js.satisfies r name
   | Js.POther _ => False
   end).
Proof.
  destruct pattern as [s|r|l|t]; simpl; intros F.
  - split; [reflexivity|]. rewrite includes_In. apply split_comma_segment.
  - destruct (Js_test_flagless r name F) as [A B].
    destruct (Js.test r name) as [b r']. simpl in *. now subst.
  - split; [reflexivity|]. apply includes_In.
  - split; [reflexivity|]. split; [discriminate | tauto].
Qed.

Lemma Js_matches_flagless_spec_witness :
  Js.flagless (Js.PRegExp Ex7.foo) = true /\
  snd (Js.matches (Js.PRegExp Ex7.foo) "foo") = Js.PRegExp Ex7.foo /\
  Js.satisfies Ex7.foo "foo".
Proof.
  destruct (Js_matches_flagless_spec (Js.PRegExp Ex7.foo) "foo" eq_refl)
    as [A [B _]].
  split; [reflexivity|]. split; [exact A | exact (B eq_refl)].
Defined.

(** With the [g] or the [y] flag and [lastIndex] past the end of the name,
    [test] answers false and resets [lastIndex], whatever the
    expression. *)
Lemma Js_test_past_end (r : Js.RegExp) (name : string) :
  Js.global r || Js.sticky r = true ->
  String.length name < Js.lastIndex r ->
  Js.test r name = (false, Js.with_lastIndex 0 r).
Proof.
  intros F L. unfold Js.test. rewrite F.
  replace (S (String.length name) - Js.lastIndex r) with 0 by lia.
  reflexivity.
Qed.

(** C9.  [matches] with a regular expression that has the [g] or the [y]
    flag.  The expression [/foo/] has a match in the name [foo], and without
    a flag [matches] answers true; on [/foo/g] and on [/foo/y] the first
    call answers true and leaves [lastIndex] at 3, and the next call on the
    same object answers false and resets [lastIndex]: [matches] returns
    false for a regular expression that the name satisfies. *)
Theorem matches_flagged_regexp :
  Js.satisfies Ex7.foo_g "foo" /\
  Js.matches (Js.PRegExp Ex7.foo) "foo" = (true, Js.PRegExp Ex7.foo) /\
  Js.matches (Js.PRegExp Ex7.foo_g) "foo"
  = (true, Js.PRegExp (Js.with_lastIndex 3 Ex7.foo_g)) /\
  Js.matches (Js.PRegExp (Js.with_lastIndex 3 Ex7.foo_g)) "foo"
  = (false, Js.PRegExp Ex7.foo_g) /\
  Js.matches (Js.PRegExp Ex7.foo_y) "foo"
  = (true, Js.PRegExp (Js.with_lastIndex 3 Ex7.foo_y)) /\
  Js.matches (Js.PRegExp (Js.with_lastIndex 3 Ex7.foo_y)) "foo"
  = (false, Js.PRegExp Ex7.foo_y).
Proof.
  split; [exists 0, 3; split; [simpl; lia | reflexivity]|].
  repeat split.
Qed.

(** ** The sweep of a watcher on the pattern object *)

Lemma state_of_then_ret {A B} (m : M A) (b : B) (s : KA.t) :
  state_of ((m ;; ret b) s) = state_of (m s).
Proof.
  unfold bind, ret. destruct (m s); reflexivity.
Qed.

(** A filter that answers by a function of the name and leaves its object
    as it was: the loop of the sweep is the loop with that function. *)
Lemma Js_for_each_pure {V} (filter : V -> string -> bool * V)
  (f : string -> bool) (val : V) (_vnode : option ref) (l : list string)
  (s : KA.t) :
  (forall name, filter val name = (f name, val)) ->
  Js.for_each l (fun key val =>
    s1 <- get ;;
    match cache_get (KA.cache s1) key with
    | Some entry =>
        let name := CacheEntry.name entry in
        if truthy name
        then
          let (keep, val') := filter val (str name) in
          (if negb keep then pruneCacheEntry key _vnode else ret tt) ;;
          ret val'
        else ret val
    | None => ret val
    end) val s
  = (for_each l (fun key =>
       s1 <- get ;;
       match cache_get (KA.cache s1) key with
       | Some entry =>
           let name := CacheEntry.name entry in
           if truthy name && negb (f (str name))
           then pruneCacheEntry key _vnode
           else ret tt
       | None => ret tt
       end) ;; ret val) s.
Proof.
  intros H.
  set (bj := fun (key : string) (val : V) => _).
  set (bp := fun key : string => _).
  assert (B : forall key s0, bj key val s0 = (bp key ;; ret val) s0).
  { intros key s0. subst bj bp. cbv beta. unfold bind, get.
    destruct (cache_get (KA.cache s0) key) as [entry|]; [|reflexivity].
    cbv zeta. destruct (truthy (CacheEntry.name entry)); [|reflexivity].
    rewrite H. cbn [andb].
    destruct (f (str (CacheEntry.name entry))); cbn [negb];
      [reflexivity|].
    destruct (pruneCacheEntry key _vnode s0); reflexivity. }
  revert s. induction l as [|key l IH]; intros s; [reflexivity|].
  cbn [Js.for_each for_each]. unfold bind at 1. rewrite B.
  unfold bind.
  destruct (bp key s) as [[] s'|e s']; [|reflexivity].
  unfold ret at 1. exact (IH s').
Qed.

(** With such a filter the sweep is the sweep with that function, and gives
    the object back as it was. *)
Lemma Js_pruneCache_pure {V} (filter : V -> string -> bool * V)
  (f : string -> bool) (val : V) (s : KA.t) :
  (forall name, filter val name = (f name, val)) ->
  Js.pruneCache filter val s = (pruneCache f ;; ret val) s.
Proof.
  intros H. unfold Js.pruneCache, pruneCache.
  pose proof (Js_for_each_pure filter f val (KA._vnode s)
                (forin_keys (KA.cache s)) s H) as E.
  unfold bind, get in *. rewrite E.
  destruct (for_each _ _ s) as [[] s1|e s1]; [|reflexivity].
  unfold ret at 1.
  destruct (VNode.componentOptions (KA.heap s1 (KA.parent_vnode s)));
    reflexivity.
Qed.

(** X9.  After a filter change to a value that is not a regular expression
    with the [g] or the [y] flag, no live entry with a name is one the new
    value rejects: once the watcher of [include] has run on the value,
    [matches] answers true for the name of every live entry whose name is
    present; once the watcher of [exclude] has run, it answers false for
    each of them. *)
Theorem filter_change_consistent (val : Js.Pattern) (s : KA.t) :
  Js.flagless val = true ->
  instances_present (KA.cache s) ->
  NoDup (KA.keys s) ->
  NoDup (map fst (KA.cache s)) ->
  (forall k e,
     cache_get (KA.cache (state_of (Js.watch_include val s))) k = Some e ->
     present (CacheEntry.name e) ->
     fst (Js.matches val (str (CacheEntry.name e))) = true) /\
  (forall k e,
     cache_get (KA.cache (state_of (Js.watch_exclude val s))) k = Some e ->
     present (CacheEntry.name e) ->
     fst (Js.matches val (str (CacheEntry.name e))) = false).
Proof.
  intros F Hi NDk NDn. unfold Js.watch_include, Js.watch_exclude.
  split; intros k e G P; rewrite (Js_matches_flagless val _ F); simpl fst.
  - rewrite (Js_pruneCache_pure _
               (fun name => matches (flagless_view val) name)) in G
      by (intros name; apply (Js_matches_flagless val name F)).
    rewrite state_of_then_ret in G.
    exact (pruneCache_keeps _ s k e Hi NDk NDn G P).
  - rewrite (Js_pruneCache_pure _
               (fun name => negb (matches (flagless_view val) name))) in G
      by (intros name; now rewrite (Js_matches_flagless val name F)).
    rewrite state_of_then_ret in G.
    apply negb_true_iff.
    exact (pruneCache_keeps _ s k e Hi NDk NDn G P).
Qed.

Lemma filter_change_consistent_witness :
  Js.flagless (Js.PRegExp Ex7.foo) = true /\
  KA.keys (state_of (Js.watch_include (Js.PRegExp Ex7.foo) Ex2.filtered))
  = ["1::foo"] /\
  fst (Js.matches (Js.PRegExp Ex7.foo) "foo") = true.
Proof.
  split; [reflexivity|]. split; [reflexivity|].
  destruct (filter_change_consistent (Js.PRegExp Ex7.foo) Ex2.filtered)
    as [A _]; [reflexivity | concrete_store | concrete_store
              | concrete_store |].
  exact (A "1::foo" (CacheEntry.mk (Some "foo")
                       (Some "vue-component-1-foo") (Some 101))
           eq_refl eq_refl).
Defined.

(** The sweeps on [/foo/g] over three entries of the component [foo]: the
    watcher of [include] destroys the second entry, the watcher of
    [exclude] leaves it live. *)
Example sweep_include_global :
  KA.keys (state_of (Js.watch_include (Js.PRegExp Ex7.foo_g) Ex7.three_foo))
  = ["a"; "c"] /\
  KA.destroy_log
    (state_of (Js.watch_include (Js.PRegExp Ex7.foo_g) Ex7.three_foo))
  = [112].
Proof. split; reflexivity. Qed.

Example sweep_exclude_global :
  KA.keys (state_of (Js.watch_exclude (Js.PRegExp Ex7.foo_g) Ex7.three_foo))
  = ["b"] /\
  KA.keys (state_of (Js.watch_exclude (Js.PRegExp Ex7.foo) Ex7.three_foo))
  = [].
Proof. split; reflexivity. Qed.
